(** * Buffer-cache word manager, streaming copy and page walk

    A shallow embedding of
    - [video_core/buffer_cache/word_manager.h]   (RegionManager),
    - [video_core/buffer_cache/stream_memcpy.cpp] (util_streaming_load_memcpy),
    - [video_core/buffer_cache/buffer_cache.h]    (ForEachBufferInRange),
    followed by the properties proved about them.

    Unsigned 64-bit values ([u64], [size_t], [VAddr], [uintptr_t]) are
    integers of [Z] with the wrap-around written out ([wrap64]); the
    arrays of 16 words are lists read and written by index; the external
    page tracker and the callbacks are an event trace. Loops whose exit
    depends on data carry a fuel and report [OutOfFuel] when it runs out;
    array accesses outside the array report [OutOfBounds]. *)

From Stdlib Require Import ZArith Lia List Bool Sorting.Sorted.
From stdpp Require Import base list sorting gmap.
Import ListNotations.
Local Open Scope Z_scope.

(** ** Machine integers and the error monad *)

Definition wrap64 (x : Z) : Z := x mod 2 ^ 64.

(** [static_cast<s64>] of a 64-bit pattern. *)
Definition to_s64 (x : Z) : Z :=
  let u := wrap64 x in if u <? 2 ^ 63 then u else u - 2 ^ 64.

(** [~x] on [u64]. *)
Definition not64 (x : Z) : Z := Z.lxor (wrap64 x) (2 ^ 64 - 1).

Inductive Fault : Set :=
| OutOfFuel      (* a data-dependent loop did not exit within its fuel *)
| OutOfBounds    (* an array was indexed outside its extent *)
| BadShift       (* a shift by 64 or more positions *)
| Misaligned     (* a 16-byte vector access at an unaligned address *)
| AssertFailed   (* an ASSERT of the source does not hold *)
| DeadSlot.      (* a slot vector was indexed with an id that is not live *)

Inductive result (A : Type) : Type :=
| Ok (a : A)
| Err (f : Fault).
Arguments Ok {A} a.
Arguments Err {A} f.

Definition bind {A B} (c : result A) (k : A -> result B) : result B :=
  match c with
  | Ok a => k a
  | Err f => Err f
  end.

Notation "'do' x <- c ; k" := (bind c (fun x => k))
  (at level 10, x pattern, c at level 100, k at level 200).

(** [std::countr_zero] and [std::countr_one] on a 64-bit operand. *)
Fixpoint countr_zero_aux (n : nat) (x : Z) : Z :=
  match n with
  | O => 0
  | S n' => if Z.testbit x 0 then 0 else 1 + countr_zero_aux n' (Z.shiftr x 1)
  end.
Definition countr_zero (x : Z) : Z := countr_zero_aux 64 x.

Fixpoint countr_one_aux (n : nat) (x : Z) : Z :=
  match n with
  | O => 0
  | S n' => if Z.testbit x 0 then 1 + countr_one_aux n' (Z.shiftr x 1) else 0
  end.
Definition countr_one (x : Z) : Z := countr_one_aux 64 x.

(** [x << n] and [x >> n] on [u64]; a count of 64 or more is undefined. *)
Definition shl64 (x n : Z) : result Z :=
  if (0 <=? n) && (n <? 64) then Ok (wrap64 (Z.shiftl x n)) else Err BadShift.
Definition shr64 (x n : Z) : result Z :=
  if (0 <=? n) && (n <? 64) then Ok (Z.shiftr x n) else Err BadShift.

(** ** word_manager.h *)

Definition PAGES_PER_WORD : Z := 64.
Definition BYTES_PER_PAGE : Z := 4096.
Definition BYTES_PER_WORD : Z := PAGES_PER_WORD * BYTES_PER_PAGE.
Definition HIGHER_PAGE_BITS : Z := 22.
Definition HIGHER_PAGE_SIZE : Z := Z.shiftl 1 HIGHER_PAGE_BITS.
Definition HIGHER_PAGE_MASK : Z := HIGHER_PAGE_SIZE - 1.
Definition NUM_REGION_WORDS : Z := HIGHER_PAGE_SIZE / BYTES_PER_WORD.

Inductive Type_ : Set := CPU | GPU.

Abbreviation WordsArray := (list Z).

(** [a[i]] and [a[i] = v] on a [std::array]. *)
Definition word_get (a : WordsArray) (i : Z) : result Z :=
  if 0 <=? i then
    match a !! Z.to_nat i with
    | Some w => Ok w
    | None => Err OutOfBounds
    end
  else Err OutOfBounds.

Definition word_set (a : WordsArray) (i v : Z) : result WordsArray :=
  if (0 <=? i) && (i <? Z.of_nat (length a)) then Ok (<[Z.to_nat i := v]> a)
  else Err OutOfBounds.

Record RegionManager : Type := mkRegion {
  cpu_addr : Z;
  cpu : WordsArray;
  gpu : WordsArray;
  write : WordsArray;
  read : WordsArray
}.

(** What the region manager does to the outside: the tracker's
    [UpdatePageWatchers<delta, is_read>(addr, size)] and the callback of
    [ForEachModifiedRange], which is recorded with the region it can
    observe at the moment it is invoked. *)
Inductive Event : Type :=
| Watch (delta : Z) (is_read : bool) (addr size : Z)
| Call (addr size : Z) (seen : RegionManager).

Record State : Type := mkState {
  region : RegionManager;
  trace : list Event
}.

Definition fill (v : Z) : WordsArray := replicate (Z.to_nat NUM_REGION_WORDS) v.

(** [RegionManager(tracker_, cpu_addr_)] *)
Definition RegionManager_new (cpu_addr_ : Z) : RegionManager :=
  {| cpu_addr := cpu_addr_;
     cpu := fill (not64 0);
     gpu := fill 0;
     write := fill (not64 0);
     read := fill (not64 0) |}.

(** [SetCpuAddress] and [GetCpuAddr] *)
Definition SetCpuAddress (new_cpu_addr : Z) (rm : RegionManager) : RegionManager :=
  {| cpu_addr := new_cpu_addr; cpu := cpu rm; gpu := gpu rm; write := write rm; read := read rm |}.

Definition GetCpuAddr (rm : RegionManager) : Z := cpu_addr rm.

Definition ExtractBits (word page_start page_end : Z) : result Z :=
  let number_bits := 64 in
  let limit_page_end := number_bits - Z.min page_end number_bits in
  do bits <- shr64 word page_start;
  do bits <- shl64 bits page_start;
  do bits <- shl64 bits limit_page_end;
  shr64 bits limit_page_end.

Definition GetWordPage (address : Z) : Z * Z :=
  let converted_address := address in
  let word_number := converted_address / BYTES_PER_WORD in
  let amount_pages := converted_address mod BYTES_PER_WORD in
  (word_number, amount_pages / BYTES_PER_PAGE).

(** The [for] loop of [IterateWords]; [n] is the number of words left.
    [func] answers [true] to break ([BOOL_BREAK]). *)
Fixpoint IterateWords_loop {S : Type} (n : nat) (word_index start_page end_page : Z)
    (func : Z -> Z -> S -> result (bool * S)) (s : S) : result S :=
  match n with
  | O => Ok s
  | S n' =>
      do mask <- ExtractBits (not64 0) start_page end_page;
      let start_page := 0 in
      let end_page := wrap64 (end_page - PAGES_PER_WORD) in
      do r <- func word_index mask s;
      if fst r then Ok (snd r)
      else IterateWords_loop n' (word_index + 1) start_page end_page func (snd r)
  end.

(** The clamped bounds [start] and [end] of [IterateWords]. *)
Definition range_start (offset : Z) : Z := Z.max (to_s64 offset) 0.
Definition range_end (offset size : Z) : Z := Z.max (to_s64 (wrap64 (offset + size))) 0.

Definition IterateWords {S : Type} (offset size : Z)
    (func : Z -> Z -> S -> result (bool * S)) (s : S) : result S :=
  let start := range_start offset in
  let end_ := range_end offset size in
  if (HIGHER_PAGE_SIZE <=? start) || (end_ <=? start) then Ok s
  else
    let '(start_word, start_page) := GetWordPage start in
    let '(end_word, end_page) := GetWordPage (wrap64 (end_ + BYTES_PER_PAGE - 1)) in
    let num_words := NUM_REGION_WORDS in
    let start_word := Z.min start_word num_words in
    let end_word := Z.min end_word num_words in
    let diff := wrap64 (end_word - start_word) in
    let end_word := wrap64 (end_word + wrap64 (end_page + PAGES_PER_WORD - 1) / PAGES_PER_WORD) in
    let end_word := Z.min end_word num_words in
    let end_page := wrap64 (end_page + wrap64 (diff * PAGES_PER_WORD)) in
    IterateWords_loop (Z.to_nat (end_word - start_word)) start_word start_page end_page func s.

(** A [void] callback never breaks. *)
Definition no_break {S : Type} (f : Z -> Z -> S -> result S) : Z -> Z -> S -> result (bool * S) :=
  fun index mask s => do s' <- f index mask s; Ok (false, s').

(** The [while (mask != 0)] loop of [IteratePages]. *)
Fixpoint IteratePages_loop {S : Type} (fuel : nat) (mask offset : Z)
    (func : Z -> Z -> S -> S) (s : S) : result S :=
  if mask =? 0 then Ok s
  else
    match fuel with
    | O => Err OutOfFuel
    | S fuel' =>
        let empty_bits := countr_zero mask in
        let offset := offset + empty_bits in
        let mask := Z.shiftr mask empty_bits in
        let continuous_bits := countr_one mask in
        let s := func offset continuous_bits s in
        let mask := if continuous_bits <? PAGES_PER_WORD
                    then Z.shiftr mask continuous_bits else 0 in
        IteratePages_loop fuel' mask (offset + continuous_bits) func s
    end.

Definition IteratePages {S : Type} (mask : Z) (func : Z -> Z -> S -> S) (s : S) : result S :=
  IteratePages_loop 64 mask 0 func s.

Definition emit (e : Event) (tr : list Event) : list Event := tr ++ [e].

Definition UpdateProtection (add_to_tracker is_read : bool) (rm : RegionManager)
    (word_index access_bits mask : Z) (tr : list Event) : result (list Event) :=
  let delta := if add_to_tracker then 1 else -1 in
  let changed_bits := Z.land (if add_to_tracker then access_bits else not64 access_bits) mask in
  let addr := wrap64 (cpu_addr rm + wrap64 (word_index * BYTES_PER_WORD)) in
  IteratePages changed_bits
    (fun offset size tr =>
       emit (Watch delta is_read (wrap64 (addr + wrap64 (offset * BYTES_PER_PAGE)))
                   (wrap64 (size * BYTES_PER_PAGE))) tr)
    tr.

Definition set_cpu (rm : RegionManager) (a : WordsArray) : RegionManager :=
  {| cpu_addr := cpu_addr rm; cpu := a; gpu := gpu rm; write := write rm; read := read rm |}.
Definition set_gpu (rm : RegionManager) (a : WordsArray) : RegionManager :=
  {| cpu_addr := cpu_addr rm; cpu := cpu rm; gpu := a; write := write rm; read := read rm |}.
Definition set_write (rm : RegionManager) (a : WordsArray) : RegionManager :=
  {| cpu_addr := cpu_addr rm; cpu := cpu rm; gpu := gpu rm; write := a; read := read rm |}.
Definition set_read (rm : RegionManager) (a : WordsArray) : RegionManager :=
  {| cpu_addr := cpu_addr rm; cpu := cpu rm; gpu := gpu rm; write := write rm; read := a |}.

(** [Span<type>()] and assignment through it. *)
Definition Span (type : Type_) (rm : RegionManager) : WordsArray :=
  match type with CPU => cpu rm | GPU => gpu rm end.
Definition set_Span (type : Type_) (rm : RegionManager) (a : WordsArray) : RegionManager :=
  match type with CPU => set_cpu rm a | GPU => set_gpu rm a end.

(** [a[index] |= mask] and [a[index] &= ~mask]. *)
Definition or_word (a : WordsArray) (index mask : Z) : result WordsArray :=
  do w <- word_get a index; word_set a index (Z.lor w mask).
Definition andnot_word (a : WordsArray) (index mask : Z) : result WordsArray :=
  do w <- word_get a index; word_set a index (Z.land w (not64 mask)).

(** The body of the lambda of [ChangeRegionState<type, is_dirty>]. *)
Definition ChangeRegionState_word (type : Type_) (is_dirty : bool)
    (index mask : Z) (st : State) : result State :=
  let rm := region st in
  match type with
  | CPU =>
      do w <- word_get (write rm) index;
      do tr <- UpdateProtection (negb is_dirty) false rm index w mask (trace st);
      if is_dirty then
        do c <- or_word (cpu rm) index mask;
        let rm := set_cpu rm c in
        do w <- or_word (write rm) index mask;
        Ok (mkState (set_write rm w) tr)
      else
        do c <- andnot_word (cpu rm) index mask;
        let rm := set_cpu rm c in
        do w <- andnot_word (write rm) index mask;
        Ok (mkState (set_write rm w) tr)
  | GPU =>
      do w <- word_get (write rm) index;
      do tr <- UpdateProtection true false rm index w mask (trace st);
      do r <- word_get (read rm) index;
      do tr <- UpdateProtection is_dirty true rm index r mask tr;
      do w <- andnot_word (write rm) index mask;
      let rm := set_write rm w in
      if is_dirty then
        do g <- or_word (gpu rm) index mask;
        let rm := set_gpu rm g in
        do r <- andnot_word (read rm) index mask;
        Ok (mkState (set_read rm r) tr)
      else
        do g <- andnot_word (gpu rm) index mask;
        let rm := set_gpu rm g in
        do r <- or_word (read rm) index mask;
        Ok (mkState (set_read rm r) tr)
  end.

Definition ChangeRegionState (type : Type_) (is_dirty : bool)
    (dirty_addr size : Z) (st : State) : result State :=
  IterateWords (wrap64 (dirty_addr - cpu_addr (region st))) size
    (no_break (ChangeRegionState_word type is_dirty)) st.

(** The locals [pending], [pending_offset], [pending_pointer] of
    [ForEachModifiedRange], next to the region and the trace. *)
Record Walk : Type := mkWalk {
  walk_state : State;
  pending : bool;
  pending_offset : Z;
  pending_pointer : Z
}.

(** [release()] *)
Definition release (w : Walk) : Walk :=
  let st := walk_state w in
  let rm := region st in
  let ev := Call (wrap64 (cpu_addr rm + wrap64 (pending_offset w * BYTES_PER_PAGE)))
                 (wrap64 (wrap64 (pending_pointer w - pending_offset w) * BYTES_PER_PAGE)) rm in
  mkWalk (mkState rm (emit ev (trace st))) (pending w) (pending_offset w) (pending_pointer w).

(** The lambda handed to [IteratePages] inside [ForEachModifiedRange]. *)
Definition ForEachModifiedRange_page (base_offset pages_offset pages_size : Z) (w : Walk) : Walk :=
  let reset (w : Walk) :=
    mkWalk (walk_state w) (pending w)
           (wrap64 (base_offset + pages_offset))
           (wrap64 (wrap64 (base_offset + pages_offset) + pages_size)) in
  if negb (pending w) then
    let w := reset w in
    mkWalk (walk_state w) true (pending_offset w) (pending_pointer w)
  else if pending_pointer w =? wrap64 (base_offset + pages_offset) then
    mkWalk (walk_state w) (pending w) (pending_offset w) (wrap64 (pending_pointer w + pages_size))
  else
    reset (release w).

(** The lambda handed to [IterateWords] inside [ForEachModifiedRange]. *)
Definition ForEachModifiedRange_word (type : Type_) (clear : bool)
    (index mask : Z) (w : Walk) : result Walk :=
  let st := walk_state w in
  let rm := region st in
  do sw <- word_get (Span type rm) index;
  let word := Z.land sw mask in
  do st <-
    (if clear then
       do st <-
         (match type with
          | CPU =>
              do x <- word_get (write rm) index;
              do tr <- UpdateProtection true false rm index x mask (trace st);
              do x <- andnot_word (write rm) index mask;
              Ok (mkState (set_write rm x) tr)
          | GPU =>
              do x <- word_get (read rm) index;
              do tr <- UpdateProtection false true rm index x mask (trace st);
              do x <- or_word (read rm) index mask;
              Ok (mkState (set_read rm x) tr)
          end);
       do x <- andnot_word (Span type (region st)) index mask;
       Ok (mkState (set_Span type (region st) x) (trace st))
     else Ok st);
  let base_offset := wrap64 (index * PAGES_PER_WORD) in
  IteratePages word (ForEachModifiedRange_page base_offset)
    (mkWalk st (pending w) (pending_offset w) (pending_pointer w)).

Definition ForEachModifiedRange (type : Type_) (clear : bool)
    (query_cpu_range size : Z) (st : State) : result State :=
  let offset := wrap64 (query_cpu_range - cpu_addr (region st)) in
  do w <- IterateWords offset (wrap64 size) (no_break (ForEachModifiedRange_word type clear))
            (mkWalk st false 0 0);
  if pending w then Ok (walk_state (release w)) else Ok (walk_state w).

(** The lambda of [IsRegionModified]; the state is the local [result]. *)
Definition IsRegionModified_word (type : Type_) (rm : RegionManager)
    (index mask : Z) (res : bool) : result (bool * bool) :=
  do sw <- word_get (Span type rm) index;
  let word := Z.land sw mask in
  if negb (word =? 0) then Ok (true, true) else Ok (false, res).

Definition IsRegionModified (type : Type_) (offset size : Z) (rm : RegionManager) : result bool :=
  IterateWords offset size (IsRegionModified_word type rm) false.

(** ** stream_memcpy.cpp *)

(** Byte-addressed memory. *)
Definition Memory : Type := Z -> Byte.byte.

Definition poke (m : Memory) (a : Z) (b : Byte.byte) : Memory :=
  fun x => if x =? a then b else m x.

(** [memcpy(d, s, n)] of the C library, for ranges that do not overlap:
    the [n] bytes at [d] become the [n] bytes that were at [s]. *)
Definition memcpy (m : Memory) (d s n : Z) : Memory :=
  fun x => if (d <=? x) && (x <? d + n) then m (s + (x - d)) else m x.

(** [std::has_single_bit] *)
Definition has_single_bit (x : Z) : bool :=
  (0 <? x) && (Z.land x (x - 1) =? 0).

Definition ALIGN_POT (x pot_align : Z) : Z :=
  Z.land (wrap64 (x + pot_align - 1)) (not64 (wrap64 (pot_align - 1))).

Definition align_uintptr (value alignment : Z) : result Z :=
  if has_single_bit alignment then Ok (ALIGN_POT value alignment) else Err AssertFailed.

(** [_mm_stream_load_si128] and [_mm_store_si128]: sixteen bytes at an
    address that must be a multiple of sixteen. *)
Definition lanes : list Z := [0; 1; 2; 3; 4; 5; 6; 7; 8; 9; 10; 11; 12; 13; 14; 15].

Definition _mm_stream_load_si128 (m : Memory) (p : Z) : result (list Byte.byte) :=
  if Z.land p 15 =? 0 then Ok (map (fun i => m (p + i)) lanes) else Err Misaligned.

Fixpoint poke_all (m : Memory) (p : Z) (v : list Byte.byte) : Memory :=
  match v with
  | [] => m
  | b :: v' => poke_all (poke m p b) (p + 1) v'
  end.

Definition _mm_store_si128 (m : Memory) (p : Z) (v : list Byte.byte) : result Memory :=
  if Z.land p 15 =? 0 then Ok (poke_all m p v) else Err Misaligned.

(** The [while (len >= 16)] loop. *)
Fixpoint stream_loop (fuel : nat) (m : Memory) (d s len : Z) : result (Memory * Z * Z * Z) :=
  if len <? 16 then Ok (m, d, s, len)
  else
    match fuel with
    | O => Err OutOfFuel
    | S fuel' =>
        let dst_cacheline := d in
        let src_cacheline := s in
        do temp1 <- _mm_stream_load_si128 m (src_cacheline + 0);
        do m <- _mm_store_si128 m (dst_cacheline + 0) temp1;
        stream_loop fuel' m (wrap64 (d + 16)) (wrap64 (s + 16)) (len - 16)
    end.

Definition util_streaming_load_memcpy (fuel : nat) (m : Memory) (dst src len : Z)
    : result Memory :=
  let d := dst in
  let s := src in
  if negb (Z.land d 15 =? Z.land s 15) then Ok (memcpy m d s len)
  else
    do h <-
      (if negb (Z.land d 15 =? 0) then
         let bytes_before_alignment_boundary := 16 - Z.land d 15 in
         if bytes_before_alignment_boundary <? 16 then
           let m := memcpy m d s (Z.min bytes_before_alignment_boundary len) in
           do d' <- align_uintptr d 16;
           do s' <- align_uintptr s 16;
           Ok (m, d', s', len - Z.min bytes_before_alignment_boundary len)
         else Err AssertFailed
       else Ok (m, d, s, len));
    let '(m, d, s, len) := h in
    (* if (len >= 16) _mm_mfence(): orders the accesses, changes no byte *)
    do t <- stream_loop fuel m d s len;
    let '(m, d, s, len) := t in
    if negb (len =? 0) then Ok (memcpy m d s len) else Ok m.

(** The reference: an ordinary copy, one byte after the other. *)
Fixpoint bytewise_copy (n : nat) (m : Memory) (d s : Z) : Memory :=
  match n with
  | O => m
  | S n' => bytewise_copy n' (poke m d (m s)) (d + 1) (s + 1)
  end.

(** ** buffer_cache.h *)

Definition CACHING_PAGEBITS : Z := 12.
Definition CACHING_PAGESIZE : Z := Z.shiftl 1 CACHING_PAGEBITS.
Definition AddressSpaceBits : Z := 40.

Record Buffer : Type := mkBuffer {
  CpuAddr : Z;
  SizeBytes : Z
}.

Abbreviation BufferId := Z (only parsing).

(** Modelled from the spec: [Common::DivCeil] of [common/div_ceil.h] is
    not among the sources; the quotient rounded up, on [u64]. *)
Definition DivCeil (number divisor : Z) : Z :=
  wrap64 (number + divisor - 1) / divisor.

(** Modelled from the spec: the [MultiLevelPageTable] and the slot vector
    are not among the sources. An entry of the page table is null or
    names a buffer: a finite map from the page to the id, absent where
    the entry is null; the slot vector maps the ids of live buffers. *)
Abbreviation PageTable := (gmap Z Z).
Abbreviation SlotVector := (gmap Z Buffer).

Fixpoint ForEachBufferInRange_loop {S : Type} (fuel : nat)
    (page_table : PageTable) (slot_buffers : SlotVector)
    (page page_end : Z) (func : BufferId -> Buffer -> S -> S) (s : S) : result S :=
  if page <? page_end then
    match fuel with
    | O => Err OutOfFuel
    | S fuel' =>
        match page_table !! page with
        | None =>
            ForEachBufferInRange_loop fuel' page_table slot_buffers
              (wrap64 (page + 1)) page_end func s
        | Some buffer_id =>
            match slot_buffers !! buffer_id with
            | None => Err DeadSlot
            | Some buffer =>
                let s := func buffer_id buffer s in
                let end_addr := wrap64 (CpuAddr buffer + SizeBytes buffer) in
                ForEachBufferInRange_loop fuel' page_table slot_buffers
                  (DivCeil end_addr CACHING_PAGESIZE) page_end func s
            end
        end
    end
  else Ok s.

Definition ForEachBufferInRange {S : Type} (fuel : nat)
    (page_table : PageTable) (slot_buffers : SlotVector)
    (device_addr size : Z) (func : BufferId -> Buffer -> S -> S) (s : S) : result S :=
  let page_end := DivCeil (wrap64 (device_addr + size)) CACHING_PAGESIZE in
  ForEachBufferInRange_loop fuel page_table slot_buffers
    (Z.shiftr (wrap64 device_addr) CACHING_PAGEBITS) page_end func s.

(** ** Vocabulary of the specification *)

(** The word an index names, and the bit of a page, read off an array
    without the bounds check of the code (0 outside). *)
Definition word_at (a : WordsArray) (i : Z) : Z :=
  if 0 <=? i then default 0 (a !! Z.to_nat i) else 0.

Definition page_bit (a : WordsArray) (p : Z) : bool :=
  Z.testbit (word_at a (p / PAGES_PER_WORD)) (p mod PAGES_PER_WORD).

Definition NUM_REGION_PAGES : Z := NUM_REGION_WORDS * PAGES_PER_WORD.

(** The page carries the modified bit of the side. *)
Definition modified (type : Type_) (rm : RegionManager) (p : Z) : bool :=
  page_bit (Span type rm) p.

(** The arrays [write] and [read] hold the access bits: a set bit is a
    page that is not protected ("Bits of pages of word_index that are
    unprotected", at [UpdateProtection]); a page is tracked when its
    access bit is clear. *)
Definition write_tracked (rm : RegionManager) (p : Z) : bool := negb (page_bit (write rm) p).
Definition read_tracked (rm : RegionManager) (p : Z) : bool := negb (page_bit (read rm) p).

(** First page and page after the last of the clamped byte range, the
    latter clipped to the region. *)
Definition first_page (offset : Z) : Z := range_start offset / BYTES_PER_PAGE.
Definition end_page (offset size : Z) : Z :=
  (range_end offset size + BYTES_PER_PAGE - 1) / BYTES_PER_PAGE.
Definition last_page (offset size : Z) : Z :=
  Z.min (end_page offset size) NUM_REGION_PAGES.

(** Page [p] of the region is touched by the byte range. *)
Definition in_query (offset size p : Z) : bool :=
  (range_start offset <? range_end offset size)
  && (first_page offset <=? p) && (p <? last_page offset size).

(** The 64-bit word whose bit [b] is [f b]. *)
Definition bits_of (f : Z -> bool) : Z :=
  fold_right (fun b acc => Z.lor (if f b then Z.shiftl 1 b else 0) acc) 0 (seqZ 0 64).

(** The mask of word [i] for a query: the pages of the word the query touches. *)
Definition query_mask (offset size i : Z) : Z :=
  bits_of (fun b => in_query offset size (i * PAGES_PER_WORD + b)).

(** The words a query visits, in the order of the loop, with their masks. *)
Definition query_words (offset size : Z) : list (Z * Z) :=
  if in_query offset size (first_page offset) then
    let sw := first_page offset / PAGES_PER_WORD in
    let ew := (last_page offset size + PAGES_PER_WORD - 1) / PAGES_PER_WORD in
    map (fun i => (i, query_mask offset size i)) (seqZ sw (ew - sw))
  else [].

(** Running a callback over a list of words, stopping when it breaks. *)
Fixpoint run_words {S : Type} (func : Z -> Z -> S -> result (bool * S))
    (l : list (Z * Z)) (s : S) : result S :=
  match l with
  | [] => Ok s
  | (i, m) :: l' =>
      do r <- func i m s;
      if fst r then Ok (snd r) else run_words func l' (snd r)
  end.

(** [(s, n)] is a maximal run of [P]: [n] pages from [s] on satisfy [P],
    and the pages just before and just after do not. *)
Definition maximal_run (P : Z -> bool) (s n : Z) : Prop :=
  0 < n /\ (forall p, s <= p < s + n -> P p = true)
  /\ P (s - 1) = false /\ P (s + n) = false.

(** Runs in ascending order with at least one page between them. *)
Definition apart (r1 r2 : Z * Z) : Prop := fst r1 + snd r1 < fst r2.

(** The runs of the bits of a word, as [IteratePages] finds them. *)
Fixpoint bit_runs_loop (fuel : nat) (mask offset : Z) : list (Z * Z) :=
  if mask =? 0 then []
  else
    match fuel with
    | O => []
    | S fuel' =>
        let e := countr_zero mask in
        let mask1 := Z.shiftr mask e in
        let c := countr_one mask1 in
        (offset + e, c)
          :: bit_runs_loop fuel' (if c <? PAGES_PER_WORD then Z.shiftr mask1 c else 0)
               (offset + e + c)
    end.
Definition bit_runs (mask : Z) : list (Z * Z) := bit_runs_loop 64 mask 0.

(** The bits [lo .. hi) of a word. *)
Definition range_mask (lo hi : Z) : Z := bits_of (fun b => (lo <=? b) && (b <? hi)).

(** The words and masks the loop of [IterateWords] goes through. *)
Fixpoint loop_words (n : nat) (word_index start_page end_page : Z) : list (Z * Z) :=
  match n with
  | O => []
  | S n' =>
      (word_index, range_mask start_page end_page)
        :: loop_words n' (word_index + 1) 0 (end_page - PAGES_PER_WORD)
  end.

Definition well_formed (rm : RegionManager) : Prop :=
  length (cpu rm) = Z.to_nat NUM_REGION_WORDS
  /\ length (gpu rm) = Z.to_nat NUM_REGION_WORDS
  /\ length (write rm) = Z.to_nat NUM_REGION_WORDS
  /\ length (read rm) = Z.to_nat NUM_REGION_WORDS.

Definition calls (tr : list Event) : list (Z * Z) :=
  flat_map (fun e => match e with Call a s _ => [(a, s)] | Watch _ _ _ _ => [] end) tr.

Definition watches (tr : list Event) : list Event :=
  flat_map (fun e => match e with Watch _ _ _ _ => [e] | Call _ _ _ => [] end) tr.

Arguments bits_of : simpl never.

(** ** Vocabulary of the proofs *)

Definition covers (L : list (Z * Z)) (p : Z) : Prop :=
  exists r, r ∈ L /\ fst r <= p < fst r + snd r.

(** The mask after one round of [IteratePages]: zeros and first run shifted out. *)
Definition next_mask (mask : Z) : Z :=
  let m1 := Z.shiftr mask (countr_zero mask) in
  if countr_one m1 <? PAGES_PER_WORD then Z.shiftr m1 (countr_one m1) else 0.

(** The length of the first run of the mask. *)
Definition run_len (mask : Z) : Z := countr_one (Z.shiftr mask (countr_zero mask)).

(** The callback of [IteratePages] applied to a list of runs, in order. *)
Definition feed {S : Type} (func : Z -> Z -> S -> S) (L : list (Z * Z)) (s : S) : S :=
  fold_left (fun s r => func (fst r) (snd r) s) L s.

(** What an operation does to a word of one array under the mask:
    nothing, [|= mask] or [&= ~mask]. *)
Inductive Upd : Set := Keep | SetBits | ClearBits.

Definition upd_word (u : Upd) (w m : Z) : Z :=
  match u with
  | Keep => w
  | SetBits => Z.lor w m
  | ClearBits => Z.land w (not64 m)
  end.

Definition upd_bit (u : Upd) (old inm : bool) : bool :=
  match u with
  | Keep => old
  | SetBits => old || inm
  | ClearBits => old && negb inm
  end.

(** The array with word [i] updated. *)
Definition upd_array (u : Upd) (a : WordsArray) (i m : Z) : WordsArray :=
  <[Z.to_nat i := upd_word u (word_at a i) m]> a.

(** The updates of an operation on the four arrays. *)
Record Effect : Set := mkEffect { e_cpu : Upd; e_gpu : Upd; e_write : Upd; e_read : Upd }.

Definition apply_effect (e : Effect) (rm : RegionManager) (i m : Z) : RegionManager :=
  {| cpu_addr := cpu_addr rm;
     cpu := upd_array (e_cpu e) (cpu rm) i m;
     gpu := upd_array (e_gpu e) (gpu rm) i m;
     write := upd_array (e_write e) (write rm) i m;
     read := upd_array (e_read e) (read rm) i m |}.

(** The bits [ChangeRegionState<type, is_dirty>] writes. *)
Definition change_effect (type : Type_) (is_dirty : bool) : Effect :=
  match type, is_dirty with
  | CPU, true => mkEffect SetBits Keep SetBits Keep
  | CPU, false => mkEffect ClearBits Keep ClearBits Keep
  | GPU, true => mkEffect Keep SetBits ClearBits ClearBits
  | GPU, false => mkEffect Keep ClearBits ClearBits SetBits
  end.

(** The bits [ForEachModifiedRange<type, clear>] writes. *)
Definition walk_effect (type : Type_) (clear : bool) : Effect :=
  match clear, type with
  | false, _ => mkEffect Keep Keep Keep Keep
  | true, CPU => mkEffect ClearBits Keep ClearBits Keep
  | true, GPU => mkEffect Keep ClearBits Keep SetBits
  end.

(** The notifications of one [UpdateProtection]. *)
Definition changed_bits (add_to_tracker : bool) (access_bits mask : Z) : Z :=
  Z.land (if add_to_tracker then access_bits else not64 access_bits) mask.

Definition watch_of (add_to_tracker is_read : bool) (cpu_addr_ word_index : Z) (r : Z * Z) : Event :=
  Watch (if add_to_tracker then 1 else -1) is_read
    (wrap64 (wrap64 (cpu_addr_ + wrap64 (word_index * BYTES_PER_WORD))
             + wrap64 (fst r * BYTES_PER_PAGE)))
    (wrap64 (snd r * BYTES_PER_PAGE)).

Definition protection_events (add_to_tracker is_read : bool) (cpu_addr_ word_index : Z)
    (access_bits mask : Z) : list Event :=
  map (watch_of add_to_tracker is_read cpu_addr_ word_index)
      (bit_runs (changed_bits add_to_tracker access_bits mask)).

(** The notifications of one word of [ChangeRegionState]. *)
Definition change_events (type : Type_) (is_dirty : bool) (rm : RegionManager) (i m : Z)
    : list Event :=
  match type with
  | CPU => protection_events (negb is_dirty) false (cpu_addr rm) i (word_at (write rm) i) m
  | GPU => protection_events true false (cpu_addr rm) i (word_at (write rm) i) m
           ++ protection_events is_dirty true (cpu_addr rm) i (word_at (read rm) i) m
  end.

(** The notifications of one word of [ForEachModifiedRange]. *)
Definition walk_events (type : Type_) (clear : bool) (rm : RegionManager) (i m : Z)
    : list Event :=
  match clear, type with
  | false, _ => []
  | true, CPU => protection_events true false (cpu_addr rm) i (word_at (write rm) i) m
  | true, GPU => protection_events false true (cpu_addr rm) i (word_at (read rm) i) m
  end.

(** One word of [ForEachModifiedRange], as a function. *)
Definition walk_word (type : Type_) (clear : bool) (w : Walk) (im : Z * Z) : Walk :=
  let rm := region (walk_state w) in
  let i := fst im in
  let m := snd im in
  feed (ForEachModifiedRange_page (wrap64 (i * PAGES_PER_WORD)))
    (bit_runs (Z.land (word_at (Span type rm) i) m))
    (mkWalk (mkState (apply_effect (walk_effect type clear) rm i m)
                     (trace (walk_state w) ++ walk_events type clear rm i m))
            (pending w) (pending_offset w) (pending_pointer w)).

(** One word of [ChangeRegionState], as a function. *)
Definition change_word (type : Type_) (is_dirty : bool) (st : State) (im : Z * Z) : State :=
  mkState (apply_effect (change_effect type is_dirty) (region st) (fst im) (snd im))
          (trace st ++ change_events type is_dirty (region st) (fst im) (snd im)).

(** The indices of the words a query visits, in the order of the loop. *)
Definition query_indices (offset size : Z) : list Z :=
  if in_query offset size (first_page offset) then
    let sw := first_page offset / PAGES_PER_WORD in
    let ew := (last_page offset size + PAGES_PER_WORD - 1) / PAGES_PER_WORD in
    seqZ sw (ew - sw)
  else [].

(** The end of [ForEachModifiedRange]: the pending run, if any, is released. *)
Definition finish (w : Walk) : State :=
  if pending w then walk_state (release w) else walk_state w.

(** The walk over all the words of the query. *)
Definition walk_all (type : Type_) (clear : bool) (query_cpu_range size : Z) (st : State) : Walk :=
  fold_left (walk_word type clear)
    (query_words (wrap64 (query_cpu_range - cpu_addr (region st))) (wrap64 size))
    (mkWalk st false 0 0).

(** An array after the update of the words [ixs], word [i] under mask [g i]. *)
Definition array_after (u : Upd) (g : Z -> Z) (ixs : list Z) (a : WordsArray) : WordsArray :=
  fold_left (fun a i => upd_array u a i (g i)) ixs a.

(** The region after an operation with effect [e] on the query. *)
Definition region_after (e : Effect) (offset size : Z) (rm : RegionManager) : RegionManager :=
  {| cpu_addr := cpu_addr rm;
     cpu := array_after (e_cpu e) (query_mask offset size) (query_indices offset size) (cpu rm);
     gpu := array_after (e_gpu e) (query_mask offset size) (query_indices offset size) (gpu rm);
     write := array_after (e_write e) (query_mask offset size) (query_indices offset size) (write rm);
     read := array_after (e_read e) (query_mask offset size) (query_indices offset size) (read rm) |}.

(** The operations that change a region, and the states they reach from
    a fresh one. *)
Inductive Op : Set :=
| OpChange (type : Type_) (is_dirty : bool) (dirty_addr size : Z)
| OpWalk (type : Type_) (clear : bool) (query_cpu_range size : Z).

Definition run_op (op : Op) (st : State) : result State :=
  match op with
  | OpChange type is_dirty dirty_addr size => ChangeRegionState type is_dirty dirty_addr size st
  | OpWalk type clear query_cpu_range size => ForEachModifiedRange type clear query_cpu_range size st
  end.

Definition op_effect (op : Op) : Effect :=
  match op with
  | OpChange type is_dirty _ _ => change_effect type is_dirty
  | OpWalk type clear _ _ => walk_effect type clear
  end.

Inductive reachable (cpu_addr_ : Z) : State -> Prop :=
| reach_new : reachable cpu_addr_ (mkState (RegionManager_new cpu_addr_) [])
| reach_step st op st' :
    reachable cpu_addr_ st -> run_op op st = Ok st' -> reachable cpu_addr_ st'.

(** The statement of the data model: a CPU-modified page is not write
    tracked, and a write-tracked page is not CPU-modified. *)
Definition cpu_excludes_write_tracking (rm : RegionManager) (p : Z) : Prop :=
  (modified CPU rm p = true -> write_tracked rm p = false)
  /\ (write_tracked rm p = true -> modified CPU rm p = false).

(** A fresh region at address 0 whose first page was marked GPU-modified. *)
Definition gpu_marked : State :=
  Eval vm_compute in
    match ChangeRegionState GPU true 0 4096 (mkState (RegionManager_new 0) []) with
    | Ok st => st
    | Err _ => mkState (RegionManager_new 0) []
    end.

Definition gpu_implies_tracking (rm : RegionManager) (p : Z) : Prop :=
  (modified GPU rm p = true -> write_tracked rm p = true /\ read_tracked rm p = true)
  /\ (modified GPU rm p = false -> read_tracked rm p = false).

(** The same page then written by the CPU again. *)
Definition gpu_then_cpu_marked : State :=
  Eval vm_compute in
    match ChangeRegionState CPU true 0 4096 gpu_marked with
    | Ok st => st
    | Err _ => gpu_marked
    end.

(** The four bits of page [p] are the same in both regions. *)
Definition same_page (rm rm' : RegionManager) (p : Z) : Prop :=
  page_bit (cpu rm') p = page_bit (cpu rm) p
  /\ page_bit (gpu rm') p = page_bit (gpu rm) p
  /\ page_bit (write rm') p = page_bit (write rm) p
  /\ page_bit (read rm') p = page_bit (read rm) p.

(** Page [p] is one whose write protection
    [ChangeRegionState<type, is_dirty>] changes on the given range. *)
Definition write_watch_changes (type : Type_) (is_dirty : bool) (rm : RegionManager)
    (offset size p : Z) : bool :=
  in_query offset size p
  && match type with
     | CPU => if is_dirty then negb (page_bit (write rm) p) else page_bit (write rm) p
     | GPU => page_bit (write rm) p
     end.

(** The statement of C6 for the write watchers: every maximal run of
    pages whose write protection changes is notified by one call that
    covers the whole run. *)
Definition one_call_per_run (type : Type_) (is_dirty : bool) (addr size : Z) (st : State) : Prop :=
  exists st' new,
    ChangeRegionState type is_dirty addr size st = Ok st'
    /\ trace st' = trace st ++ new
    /\ forall s n,
         maximal_run (write_watch_changes type is_dirty (region st)
                        (wrap64 (addr - cpu_addr (region st))) size) s n ->
         Watch (match type with CPU => if is_dirty then -1 else 1 | GPU => 1 end) false
               (wrap64 (cpu_addr (region st) + s * BYTES_PER_PAGE)) (n * BYTES_PER_PAGE) ∈ new.

(** Bit [b] of word [i] is a page of the query whose protection changes:
    its access bit is set when watchers are added, clear when they are
    removed. *)
Definition needs_change (add_to_tracker : bool) (a : WordsArray) (offset size i b : Z) : bool :=
  (0 <=? b) && (b <? PAGES_PER_WORD)
  && in_query offset size (i * PAGES_PER_WORD + b)
  && (if add_to_tracker then page_bit a (i * PAGES_PER_WORD + b)
      else negb (page_bit a (i * PAGES_PER_WORD + b))).

(** A run inside the region. *)
Definition good (r : Z * Z) : Prop :=
  0 <= fst r /\ 0 < snd r /\ fst r + snd r <= NUM_REGION_PAGES.

(** [r1] ends no later than [r2] starts. *)
Definition before (r1 r2 : Z * Z) : Prop := fst r1 + snd r1 <= fst r2.

(** The pending run and the released ones, newest first: what the lambda
    of [ForEachModifiedRange] does with the next run. *)
Definition merge_step (macc : list (Z * Z)) (r : Z * Z) : list (Z * Z) :=
  match macc with
  | [] => [r]
  | (s, l) :: rest =>
      if s + l =? fst r then (s, l + snd r) :: rest else r :: (s, l) :: rest
  end.

Definition shift (base : Z) (r : Z * Z) : Z * Z := (base + fst r, snd r).

(** The runs of word [i] under mask [m], in pages of the region. *)
Definition word_runs (type : Type_) (rm : RegionManager) (i m : Z) : list (Z * Z) :=
  map (shift (i * PAGES_PER_WORD)) (bit_runs (Z.land (word_at (Span type rm) i) m)).

(** Address and length in bytes of the callback for a run of pages. *)
Definition call_of (c : Z) (r : Z * Z) : Z * Z :=
  (wrap64 (c + fst r * BYTES_PER_PAGE), snd r * BYTES_PER_PAGE).

(** Page [p] is resolved on the side [type]: not modified, and write
    tracked (CPU) or not read tracked (GPU). *)
Definition cleared_in (type : Type_) (rm : RegionManager) (p : Z) : Prop :=
  modified type rm p = false
  /\ match type with
     | CPU => write_tracked rm p = true
     | GPU => read_tracked rm p = false
     end.

(** Every callback among [new] is for a run of pages of the region, and
    the region it observes has already resolved every page of that run. *)
Definition calls_cleared (type : Type_) (c : Z) (new : list Event) : Prop :=
  forall a len seen, Call a len seen ∈ new ->
    exists s n, good (s, n) /\ (a, len) = call_of c (s, n)
                /\ forall p, s <= p < s + n -> cleared_in type seen p.

(** The address of page [p] of the region at [c] lies among the [len]
    bytes from [a] on. *)
Definition page_in_call (c a len p : Z) : Prop :=
  wrap64 (c + p * BYTES_PER_PAGE - a) < len.

(** What [ChangeRegionState<type, is_dirty>] leaves of a page of its range. *)
Definition marked (type : Type_) (is_dirty : bool) (rm rm' : RegionManager) (p : Z) : Prop :=
  match type with
  | CPU => modified CPU rm' p = is_dirty
           /\ write_tracked rm' p = negb is_dirty
           /\ page_bit (gpu rm') p = page_bit (gpu rm) p
           /\ page_bit (read rm') p = page_bit (read rm) p
  | GPU => modified GPU rm' p = is_dirty
           /\ write_tracked rm' p = true
           /\ read_tracked rm' p = is_dirty
           /\ page_bit (cpu rm') p = page_bit (cpu rm) p
  end.

(** What [ForEachModifiedRange<type, clear>] leaves of a page of its range. *)
Definition walked (type : Type_) (clear : bool) (rm rm' : RegionManager) (p : Z) : Prop :=
  if clear then
    cleared_in type rm' p
    /\ match type with
       | CPU => page_bit (gpu rm') p = page_bit (gpu rm) p
                /\ page_bit (read rm') p = page_bit (read rm) p
       | GPU => page_bit (cpu rm') p = page_bit (cpu rm) p
                /\ page_bit (write rm') p = page_bit (write rm) p
       end
  else same_page rm rm' p.

Definition walk_rel (type : Type_) (clear : bool) (st0 : State) (w : Walk)
    (macc : list (Z * Z)) : Prop :=
  cpu_addr (region (walk_state w)) = cpu_addr (region st0)
  /\ Forall good macc
  /\ match macc with
     | [] => pending w = false /\ calls (trace (walk_state w)) = calls (trace st0)
     | (s, l) :: rest =>
         pending w = true /\ pending_offset w = s /\ pending_pointer w = s + l
         /\ calls (trace (walk_state w))
            = calls (trace st0) ++ map (call_of (cpu_addr (region st0))) (reverse rest)
         /\ (clear = true ->
             forall p, s <= p < s + l -> cleared_in type (region (walk_state w)) p)
     end
  /\ exists new, trace (walk_state w) = trace st0 ++ new
                 /\ (clear = true -> calls_cleared type (cpu_addr (region st0)) new).

(** The pages a walk over the query reports. *)
Definition reported (type : Type_) (rm : RegionManager) (offset size p : Z) : bool :=
  in_query offset size p && modified type rm p.

(** A region at 4 MiB whose pages 2, 3, 4, 7 and 8 are modified on both sides. *)
Definition pages_23478 : State :=
  mkState {| cpu_addr := 4194304;
             cpu := 412 :: replicate 15 0;
             gpu := 412 :: replicate 15 0;
             write := 412 :: replicate 15 0;
             read := fill (not64 412) |} [].

(** The statement of C5: after a clearing walk the pages of the range
    are not modified and not protected on the side walked. *)
Definition clear_unprotects (type : Type_) (addr size : Z) (st : State) : Prop :=
  exists st',
    ForEachModifiedRange type true addr size st = Ok st'
    /\ forall p, in_query (wrap64 (addr - cpu_addr (region st))) (wrap64 size) p = true ->
         modified type (region st') p = false
         /\ match type with
            | CPU => write_tracked (region st') p = false
            | GPU => read_tracked (region st') p = false
            end.

(** Memory holding at every address the low byte of the address. *)
Definition ramp : Memory :=
  fun a => match Byte.of_N (Z.to_N (a mod 256)) with Some b => b | None => Byte.x00 end.

(** The guest range of the buffer lies in the address space and reaches
    into page [p], as it does when it contains the page. *)
Definition covers_page (b : Buffer) (p : Z) : Prop :=
  0 <= CpuAddr b /\ 0 <= SizeBytes b
  /\ CpuAddr b + SizeBytes b <= 2 ^ AddressSpaceBits
  /\ CpuAddr b < (p + 1) * CACHING_PAGESIZE
  /\ p * CACHING_PAGESIZE < CpuAddr b + SizeBytes b.

(** Every entry of the page table that is not null names a live buffer
    that covers the page of the entry. *)
Definition table_covered (page_table : gmap Z Z) (slot_buffers : gmap Z Buffer) : Prop :=
  forall p id, page_table !! p = Some id ->
    exists b, slot_buffers !! id = Some b /\ covers_page b p.

(** A visit of the loop: the page of the cursor, the id found there and its buffer. *)
Record Visit : Type := mkVisit { v_page : Z; v_id : Z; v_buffer : Buffer }.

Definition visit_all {S : Type} (func : BufferId -> Buffer -> S -> S)
    (visits : list Visit) (s : S) : S :=
  fold_left (fun s v => func (v_id v) (v_buffer v) s) visits s.

(** The cursor after the visit: the first page past the buffer. *)
Definition next_page (v : Visit) : Z :=
  DivCeil (wrap64 (CpuAddr (v_buffer v) + SizeBytes (v_buffer v))) CACHING_PAGESIZE.

(** One buffer of three pages at page 4, another of one page at page 9. *)
Definition two_buffers_table : gmap Z Z :=
  <[4 := 1]> (<[5 := 1]> (<[6 := 1]> (<[9 := 2]> ∅))).

Definition two_buffers_slots : gmap Z Buffer :=
  <[1 := mkBuffer 16384 12288]> (<[2 := mkBuffer 36864 4096]> ∅).

(** What [UpdatePageWatchers<delta, is_read>(addr, size)] adds to the
    watchers of kind [rd] of page [p] of the region at [c]: [delta] when
    the address of the page lies among the [size] bytes from [addr] on,
    nothing otherwise; a callback adds nothing. *)
Definition watch_delta (rd : bool) (c p : Z) (e : Event) : Z :=
  match e with
  | Watch delta is_read addr size =>
      if Bool.eqb is_read rd && (wrap64 (c + p * BYTES_PER_PAGE - addr) <? size)
      then delta else 0
  | Call _ _ _ => 0
  end.

(** The watchers of kind [rd] that the notifications of a trace leave on
    page [p]: additions less removals. *)
Definition watchers (rd : bool) (c p : Z) (tr : list Event) : Z :=
  fold_right (fun e n => watch_delta rd c p e + n) 0 tr.

(** What one [UpdateProtection<add>] adds to the watchers of a page whose
    access bit is [bit]; [q] tells whether the page is under the mask. *)
Definition watch_change (add q bit : bool) : Z :=
  if q && (if add then bit else negb bit) then (if add then 1 else -1) else 0.

(** ** Machine arithmetic *)

Ltac consts :=
  change NUM_REGION_PAGES with 1024 in *;
  change PAGES_PER_WORD with 64 in *;
  change BYTES_PER_PAGE with 4096 in *;
  change BYTES_PER_WORD with 262144 in *;
  change HIGHER_PAGE_SIZE with 4194304 in *;
  change NUM_REGION_WORDS with 16 in *.

Lemma wrap64_small x : 0 <= x < 2 ^ 64 -> wrap64 x = x.
Proof. intros H. unfold wrap64. apply Z.mod_small. exact H. Qed.

Lemma wrap64_range x : 0 <= wrap64 x < 2 ^ 64.
Proof. unfold wrap64. apply Z.mod_pos_bound. lia. Qed.

Lemma to_s64_range x : - 2 ^ 63 <= to_s64 x < 2 ^ 63.
Proof.
  unfold to_s64. pose proof (wrap64_range x) as H.
  destruct (Z.ltb_spec (wrap64 x) (2 ^ 63)); lia.
Qed.

Lemma range_start_range offset : 0 <= range_start offset < 2 ^ 63.
Proof. unfold range_start. pose proof (to_s64_range offset). lia. Qed.

Lemma range_end_range offset size : 0 <= range_end offset size < 2 ^ 63.
Proof. unfold range_end. pose proof (to_s64_range (wrap64 (offset + size))). lia. Qed.

Lemma wrap64_bit x b : Z.testbit (wrap64 x) b = (b <? 64) && Z.testbit x b.
Proof.
  unfold wrap64. destruct (Z.ltb_spec b 64); simpl.
  - apply Z.mod_pow2_bits_low. lia.
  - apply Z.mod_pow2_bits_high. lia.
Qed.

Lemma ones64_bit b : Z.testbit (2 ^ 64 - 1) b = (0 <=? b) && (b <? 64).
Proof.
  change (2 ^ 64 - 1) with (Z.ones 64).
  destruct (Z.leb_spec 0 b); simpl.
  - destruct (Z.ltb_spec b 64).
    + apply Z.ones_spec_low. lia.
    + apply Z.ones_spec_high. lia.
  - apply Z.testbit_neg_r. lia.
Qed.

Lemma not64_bit x b :
  Z.testbit (not64 x) b = (0 <=? b) && (b <? 64) && negb (Z.testbit x b).
Proof.
  unfold not64. rewrite Z.lxor_spec, wrap64_bit, ones64_bit.
  destruct (Z.leb_spec 0 b); simpl.
  - destruct (b <? 64); simpl; [|reflexivity]. destruct (Z.testbit x b); reflexivity.
  - rewrite (Z.testbit_neg_r x b) by lia. destruct (b <? 64); reflexivity.
Qed.

Lemma bits_bound x n :
  0 <= n -> 0 <= x -> (forall b, n <= b -> Z.testbit x b = false) -> x < 2 ^ n.
Proof.
  intros Hn Hx Hb. destruct (Z.eq_dec x 0) as [->|Hne].
  - apply Z.pow_pos_nonneg; lia.
  - apply Z.log2_lt_pow2; [lia|].
    destruct (Z.lt_ge_cases (Z.log2 x) n) as [Hlt|Hge]; [exact Hlt|].
    specialize (Hb _ Hge). rewrite Z.bit_log2 in Hb by lia. discriminate.
Qed.

Lemma bound_bits x n b : 0 <= x < 2 ^ n -> n <= b -> Z.testbit x b = false.
Proof.
  intros Hx Hb. destruct (Z.eq_dec x 0) as [->|Hne]; [apply Z.bits_0|].
  apply Z.bits_above_log2; [lia|].
  assert (Z.log2 x < n); [|lia].
  apply Z.log2_lt_pow2; lia.
Qed.

Lemma nonneg_bits x : (forall b, 64 <= b -> Z.testbit x b = false) -> 0 <= x.
Proof.
  intros Hb. destruct (Z.lt_ge_cases x 0) as [Hneg|]; [|assumption].
  destruct (Z.bits_iff_neg_ex x) as [Hex _]. destruct (Hex Hneg) as [k Hk].
  specialize (Hk (Z.max (k + 1) 64)). rewrite Hb in Hk by lia.
  assert (false = true) by (apply Hk; lia). discriminate.
Qed.

Lemma u64_of_bits x :
  (forall b, 64 <= b -> Z.testbit x b = false) -> 0 <= x < 2 ^ 64.
Proof.
  intros Hb. pose proof (nonneg_bits x Hb). split; [assumption|].
  apply bits_bound; try lia. exact Hb.
Qed.

Lemma not64_range x : 0 <= not64 x < 2 ^ 64.
Proof.
  apply u64_of_bits. intros b Hb. rewrite not64_bit.
  destruct (Z.ltb_spec b 64); [lia|]. rewrite andb_false_r. reflexivity.
Qed.

Lemma land_mask_range w m : 0 <= m < 2 ^ 64 -> 0 <= Z.land w m < 2 ^ 64.
Proof.
  intros Hm. apply u64_of_bits. intros b Hb.
  rewrite Z.land_spec, (bound_bits m 64 b) by lia. apply andb_false_r.
Qed.

Lemma fold_bits_spec (f : Z -> bool) (l : list Z) b :
  Forall (fun c => 0 <= c) l ->
  Z.testbit (fold_right (fun c acc => Z.lor (if f c then Z.shiftl 1 c else 0) acc) 0 l) b = true
  <-> b ∈ l /\ f b = true.
Proof.
  induction 1 as [|c l Hc Hl IH]; simpl.
  - rewrite Z.bits_0. rewrite elem_of_nil. intuition discriminate.
  - rewrite Z.lor_spec, orb_true_iff, IH, elem_of_cons.
    assert (Z.testbit (if f c then Z.shiftl 1 c else 0) b = true <-> b = c /\ f b = true) as ->.
    { destruct (f c) eqn:Hf.
      - rewrite Z.shiftl_1_l, Z.pow2_bits_eqb by lia. rewrite Z.eqb_eq.
        split; [intros ->; auto | intros [-> _]; auto].
      - rewrite Z.bits_0. split; [discriminate | intros [-> ?]; congruence]. }
    tauto.
Qed.

Lemma bits_of_bit f b : Z.testbit (bits_of f) b = (0 <=? b) && (b <? 64) && f b.
Proof.
  apply eq_true_iff_eq. unfold bits_of. rewrite fold_bits_spec.
  - rewrite elem_of_seqZ, !andb_true_iff, Z.leb_le, Z.ltb_lt. intuition lia.
  - apply Forall_forall. intros c Hc. apply elem_of_seqZ in Hc. lia.
Qed.

Lemma bits_of_range f : 0 <= bits_of f < 2 ^ 64.
Proof.
  apply u64_of_bits. intros b Hb. rewrite bits_of_bit.
  destruct (Z.ltb_spec b 64); [lia|]. rewrite andb_false_r. reflexivity.
Qed.

(** ** [std::countr_zero], [std::countr_one] *)

Lemma countr_zero_aux_spec n x :
  let e := countr_zero_aux n x in
  0 <= e <= Z.of_nat n
  /\ (forall b, 0 <= b < e -> Z.testbit x b = false)
  /\ (e < Z.of_nat n -> Z.testbit x e = true).
Proof.
  revert x. induction n as [|n IH]; intros x; cbn [countr_zero_aux].
  - cbv zeta. split; [lia|]. split; [intros; lia|lia].
  - destruct (Z.testbit x 0) eqn:H0; cbv zeta.
    + split; [lia|]. split; [intros; lia|]. intros _. exact H0.
    + destruct (IH (Z.shiftr x 1)) as (Hr & Hlow & Hhit).
      set (e := countr_zero_aux n (Z.shiftr x 1)) in *.
      split; [lia|]. split.
      * intros b Hb. destruct (Z.eq_dec b 0) as [->|]; [exact H0|].
        specialize (Hlow (b - 1)). rewrite Z.shiftr_spec in Hlow by lia.
        replace (b - 1 + 1) with b in Hlow by lia. apply Hlow. lia.
      * intros He. rewrite Z.shiftr_spec in Hhit by lia.
        replace (1 + e) with (e + 1) by lia. apply Hhit. lia.
Qed.

Lemma countr_one_aux_spec n x :
  let c := countr_one_aux n x in
  0 <= c <= Z.of_nat n
  /\ (forall b, 0 <= b < c -> Z.testbit x b = true)
  /\ (c < Z.of_nat n -> Z.testbit x c = false).
Proof.
  revert x. induction n as [|n IH]; intros x; cbn [countr_one_aux].
  - cbv zeta. split; [lia|]. split; [intros; lia|lia].
  - destruct (Z.testbit x 0) eqn:H0; cbv zeta.
    + destruct (IH (Z.shiftr x 1)) as (Hr & Hlow & Hhit).
      set (c := countr_one_aux n (Z.shiftr x 1)) in *.
      split; [lia|]. split.
      * intros b Hb. destruct (Z.eq_dec b 0) as [->|]; [exact H0|].
        specialize (Hlow (b - 1)). rewrite Z.shiftr_spec in Hlow by lia.
        replace (b - 1 + 1) with b in Hlow by lia. apply Hlow. lia.
      * intros He. rewrite Z.shiftr_spec in Hhit by lia.
        replace (1 + c) with (c + 1) by lia. apply Hhit. lia.
    + split; [lia|]. split; [intros; lia|]. intros _. exact H0.
Qed.

Lemma countr_zero_spec x :
  0 <= x < 2 ^ 64 -> x <> 0 ->
  0 <= countr_zero x < 64
  /\ (forall b, 0 <= b < countr_zero x -> Z.testbit x b = false)
  /\ Z.testbit x (countr_zero x) = true.
Proof.
  intros Hx Hne. destruct (countr_zero_aux_spec 64 x) as (Hr & Hlow & Hhit).
  fold (countr_zero x) in *. change (Z.of_nat 64) with 64 in *.
  assert (countr_zero x < 64) as Hlt.
  { destruct (Z.eq_dec (countr_zero x) 64) as [E|]; [|lia].
    exfalso. apply Hne. apply Z.bits_inj'. intros b Hb. rewrite Z.bits_0.
    destruct (Z.lt_ge_cases b 64); [apply Hlow; lia|].
    apply (bound_bits x 64); lia. }
  split; [lia|]. split; [exact Hlow|]. apply Hhit. exact Hlt.
Qed.

Lemma countr_one_spec x :
  0 <= countr_one x <= 64
  /\ (forall b, 0 <= b < countr_one x -> Z.testbit x b = true)
  /\ (countr_one x < 64 -> Z.testbit x (countr_one x) = false).
Proof. exact (countr_one_aux_spec 64 x). Qed.

(** ** Runs: separation and coverage decide the list *)

Lemma covers_nil p : ~ covers [] p.
Proof. intros (r & Hr & _). apply elem_of_nil in Hr. exact Hr. Qed.

Lemma covers_cons r L p :
  covers (r :: L) p <-> (fst r <= p < fst r + snd r) \/ covers L p.
Proof.
  unfold covers. split.
  - intros (r' & Hin & Hp). apply elem_of_cons in Hin as [->|Hin]; [left; exact Hp|].
    right. exists r'. auto.
  - intros [Hp|(r' & Hin & Hp)].
    + exists r. split; [apply elem_of_cons; auto|exact Hp].
    + exists r'. split; [apply elem_of_cons; auto|exact Hp].
Qed.

Lemma covers_app L1 L2 p : covers (L1 ++ L2) p <-> covers L1 p \/ covers L2 p.
Proof.
  unfold covers. split.
  - intros (r & Hin & Hp). apply elem_of_app in Hin as [Hin|Hin]; [left|right]; eauto.
  - intros [(r & Hin & Hp)|(r & Hin & Hp)]; exists r; rewrite elem_of_app; auto.
Qed.

Lemma sorted_apart_or (L : list (Z * Z)) r1 r2 :
  StronglySorted apart L -> r1 ∈ L -> r2 ∈ L -> r1 = r2 \/ apart r1 r2 \/ apart r2 r1.
Proof.
  induction 1 as [|a L HS IH HF]; intros H1 H2.
  - apply elem_of_nil in H1. contradiction.
  - rewrite Forall_forall in HF.
    apply elem_of_cons in H1 as [->|H1]; apply elem_of_cons in H2 as [->|H2].
    + left. reflexivity.
    + right. left. apply HF. exact H2.
    + right. right. apply HF. exact H1.
    + apply IH; assumption.
Qed.

Lemma runs_maximal (P : Z -> bool) (L : list (Z * Z)) :
  StronglySorted apart L ->
  Forall (fun r => 0 < snd r) L ->
  (forall p, P p = true <-> covers L p) ->
  forall s n, (s, n) ∈ L <-> maximal_run P s n.
Proof.
  intros HS Hpos Hcov.
  assert (forall s n, (s, n) ∈ L -> maximal_run P s n) as Hfwd.
  { intros s n Hin. rewrite Forall_forall in Hpos.
    pose proof (Hpos _ Hin) as Hn. simpl in Hn.
    split; [exact Hn|]. split.
    - intros p Hp. apply Hcov. exists (s, n). auto.
    - split.
      + destruct (P (s - 1)) eqn:E; [|reflexivity]. exfalso.
        apply Hcov in E as ([s' n'] & Hin' & Hp'). simpl in Hp'.
        destruct (sorted_apart_or L (s, n) (s', n') HS Hin Hin') as [Heq|[Ha|Ha]];
          unfold apart in *; simpl in *; [inversion Heq; lia|lia|lia].
      + destruct (P (s + n)) eqn:E; [|reflexivity]. exfalso.
        apply Hcov in E as ([s' n'] & Hin' & Hp'). simpl in Hp'.
        destruct (sorted_apart_or L (s, n) (s', n') HS Hin Hin') as [Heq|[Ha|Ha]];
          unfold apart in *; simpl in *; [inversion Heq; lia|lia|lia]. }
  intros s n. split; [apply Hfwd|].
  intros (Hn & Hall & Hbefore & Hafter).
  assert (P s = true) as Hs by (apply Hall; lia).
  apply Hcov in Hs as ([s' n'] & Hin' & Hp'). simpl in Hp'.
  destruct (Hfwd _ _ Hin') as (Hn' & Hall' & Hbefore' & Hafter').
  assert (s' = s) as ->.
  { destruct (Z.lt_trichotomy s' s) as [Hlt|[Heq|Hgt]]; [|exact Heq|lia].
    rewrite (Hall' (s - 1)) in Hbefore by lia. discriminate. }
  assert (n' = n) as ->; [|exact Hin'].
  destruct (Z.lt_trichotomy n' n) as [Hlt|[Heq|Hgt]]; [|exact Heq|].
  - rewrite (Hall (s + n')) in Hafter' by lia. discriminate.
  - rewrite (Hall' (s + n)) in Hafter by lia. discriminate.
Qed.

(** ** [IteratePages] *)

Lemma next_mask_spec mask :
  0 <= mask < 2 ^ 64 -> mask <> 0 ->
  let e := countr_zero mask in
  let c := run_len mask in
  0 <= e < 64 /\ 1 <= c <= 64
  /\ (forall b, 0 <= b < e -> Z.testbit mask b = false)
  /\ (forall b, e <= b < e + c -> Z.testbit mask b = true)
  /\ (forall b, 0 <= b -> Z.testbit (next_mask mask) b = Z.testbit mask (b + e + c))
  /\ Z.testbit (next_mask mask) 0 = false
  /\ 0 <= next_mask mask.
Proof.
  intros Hm Hne e c.
  destruct (countr_zero_spec mask Hm Hne) as (He & Hlow & Hhit). fold e in He, Hlow, Hhit.
  destruct (countr_one_spec (Z.shiftr mask e)) as (Hc & Hones & Hstop).
  change (countr_one (Z.shiftr mask e)) with c in Hc, Hones, Hstop.
  assert (1 <= c) as Hc1.
  { destruct (Z.eq_dec c 0) as [E|]; [|lia]. exfalso.
    specialize (Hstop ltac:(lia)). rewrite E, Z.shiftr_spec in Hstop by lia.
    replace (0 + e) with e in Hstop by lia. congruence. }
  assert (forall b, 0 <= b -> Z.testbit (next_mask mask) b = Z.testbit mask (b + e + c)) as Hbits.
  { intros b Hb. unfold next_mask. change (countr_zero mask) with e.
    change (countr_one (Z.shiftr mask e)) with c. consts.
    destruct (Z.ltb_spec c 64).
    - rewrite !Z.shiftr_spec by lia. f_equal. lia.
    - rewrite Z.bits_0. symmetry. apply (bound_bits mask 64); lia. }
  split; [exact He|]. split; [lia|]. split; [exact Hlow|]. split.
  { intros b Hb. specialize (Hones (b - e) ltac:(lia)).
    rewrite Z.shiftr_spec in Hones by lia. replace (b - e + e) with b in Hones by lia.
    exact Hones. }
  split; [exact Hbits|]. split.
  { unfold next_mask. change (countr_zero mask) with e.
    change (countr_one (Z.shiftr mask e)) with c. consts.
    destruct (Z.ltb_spec c 64); [|apply Z.bits_0].
    rewrite Z.shiftr_spec by lia. apply Hstop. lia. }
  unfold next_mask. change (countr_zero mask) with e.
    change (countr_one (Z.shiftr mask e)) with c. consts.
  destruct (Z.ltb_spec c 64); [|lia].
  apply Z.shiftr_nonneg. apply Z.shiftr_nonneg. lia.
Qed.

Lemma next_mask_bound mask k :
  0 <= mask < 2 ^ 64 -> mask <> 0 -> 0 <= k -> mask < 2 ^ (k + 1) ->
  0 <= next_mask mask < 2 ^ 64 /\ next_mask mask < 2 ^ k.
Proof.
  intros Hm Hne Hk Hlt.
  destruct (next_mask_spec mask Hm Hne) as (He & Hc & _ & _ & Hbits & _ & Hnn).
  split; [split; [exact Hnn|]|].
  - apply bits_bound; try lia. intros b Hb. rewrite Hbits by lia.
    apply (bound_bits mask 64); lia.
  - apply bits_bound; try lia. intros b Hb. rewrite Hbits by lia.
    apply (bound_bits mask (k + 1)); lia.
Qed.

Lemma IteratePages_loop_unfold {S : Type} fuel mask offset (func : Z -> Z -> S -> S) s :
  mask <> 0 ->
  IteratePages_loop (Datatypes.S fuel) mask offset func s
  = IteratePages_loop fuel (next_mask mask) (offset + countr_zero mask + run_len mask) func
      (func (offset + countr_zero mask) (run_len mask) s).
Proof.
  intros Hne. cbn [IteratePages_loop]. apply Z.eqb_neq in Hne. rewrite Hne. reflexivity.
Qed.

Lemma bit_runs_loop_unfold fuel mask offset :
  mask <> 0 ->
  bit_runs_loop (Datatypes.S fuel) mask offset
  = (offset + countr_zero mask, run_len mask)
      :: bit_runs_loop fuel (next_mask mask) (offset + countr_zero mask + run_len mask).
Proof.
  intros Hne. cbn [bit_runs_loop]. apply Z.eqb_neq in Hne. rewrite Hne. reflexivity.
Qed.

Lemma loop_zero {S : Type} fuel offset (func : Z -> Z -> S -> S) s :
  IteratePages_loop fuel 0 offset func s = Ok s.
Proof. destruct fuel; reflexivity. Qed.

Lemma bit_runs_loop_zero fuel offset : bit_runs_loop fuel 0 offset = [].
Proof. destruct fuel; reflexivity. Qed.

Lemma IteratePages_loop_runs {S : Type} fuel (func : Z -> Z -> S -> S) :
  forall mask offset s,
    0 <= mask < 2 ^ 64 -> mask < 2 ^ Z.of_nat fuel ->
    IteratePages_loop fuel mask offset func s
    = Ok (feed func (bit_runs_loop fuel mask offset) s).
Proof.
  induction fuel as [|fuel IH]; intros mask offset s Hm Hlt.
  - assert (mask = 0) as -> by (simpl in Hlt; lia). reflexivity.
  - destruct (Z.eq_dec mask 0) as [->|Hne]; [reflexivity|].
    rewrite IteratePages_loop_unfold, bit_runs_loop_unfold by exact Hne.
    destruct (next_mask_bound mask (Z.of_nat fuel) Hm Hne ltac:(lia)) as [Hr Hb].
    { replace (Z.of_nat fuel + 1) with (Z.of_nat (Datatypes.S fuel)) by lia. exact Hlt. }
    rewrite IH by assumption. reflexivity.
Qed.

(** [IteratePages] returns: within its 64 rounds the mask is used up. *)
Lemma IteratePages_runs {S : Type} mask (func : Z -> Z -> S -> S) s :
  0 <= mask < 2 ^ 64 ->
  IteratePages mask func s = Ok (feed func (bit_runs mask) s).
Proof.
  intros Hm. unfold IteratePages, bit_runs. apply IteratePages_loop_runs; [exact Hm|].
  change (Z.of_nat 64) with 64. lia.
Qed.

Lemma bit_runs_loop_spec fuel :
  forall mask offset,
    0 <= mask < 2 ^ 64 -> mask < 2 ^ Z.of_nat fuel ->
    let L := bit_runs_loop fuel mask offset in
    Forall (fun r => offset <= fst r /\ 0 < snd r
                     /\ (Z.testbit mask 0 = false -> offset < fst r)) L
    /\ StronglySorted apart L
    /\ (forall b, 0 <= b -> Z.testbit mask b = true <-> covers L (offset + b)).
Proof.
  induction fuel as [|fuel IH]; intros mask offset Hm Hlt.
  - assert (mask = 0) as -> by (simpl in Hlt; lia). simpl.
    split; [constructor|]. split; [constructor|].
    intros b Hb. rewrite Z.bits_0. split; [discriminate|]. intros H. destruct (covers_nil _ H).
  - destruct (Z.eq_dec mask 0) as [->|Hne].
    { simpl. split; [constructor|]. split; [constructor|].
      intros b Hb. rewrite Z.bits_0. split; [discriminate|]. intros H. destruct (covers_nil _ H). }
    cbv zeta. rewrite bit_runs_loop_unfold by exact Hne.
    destruct (next_mask_spec mask Hm Hne) as (He & Hc & Hlow & Hones & Hbits & Hbit0 & Hnn).
    destruct (next_mask_bound mask (Z.of_nat fuel) Hm Hne ltac:(lia)) as [Hr Hb].
    { replace (Z.of_nat fuel + 1) with (Z.of_nat (Datatypes.S fuel)) by lia. exact Hlt. }
    set (e := countr_zero mask) in *. set (c := run_len mask) in *.
    destruct (IH (next_mask mask) (offset + e + c) Hr Hb) as (HF & HS & Hcov).
    set (L' := bit_runs_loop fuel (next_mask mask) (offset + e + c)) in *.
    split; [|split].
    + constructor.
      * cbn [fst snd]. split; [lia|]. split; [lia|]. intros H0.
        destruct (Z.eq_dec e 0) as [E|]; [|lia].
        rewrite (Hones 0) in H0 by lia. discriminate.
      * eapply Forall_impl; [exact HF|]. cbn beta. intros r (H1 & H2 & H3).
        split; [lia|]. split; [lia|]. intros _. lia.
    + constructor; [exact HS|].
      eapply Forall_impl; [exact HF|]. cbn beta. intros r (H1 & H2 & H3).
      unfold apart. cbn [fst snd]. specialize (H3 Hbit0). lia.
    + intros b Hb0. rewrite covers_cons. cbn [fst snd].
      destruct (Z.lt_ge_cases b e) as [Hlt1|Hge1].
      { rewrite Hlow by lia. split; [discriminate|]. intros [H|H]; [lia|].
        destruct H as (r & Hin & Hp). rewrite Forall_forall in HF.
        destruct (HF r Hin) as (H1 & _). lia. }
      destruct (Z.lt_ge_cases b (e + c)) as [Hlt2|Hge2].
      { rewrite Hones by lia. split; [intros _; left; lia|reflexivity]. }
      specialize (Hcov (b - e - c) ltac:(lia)).
      rewrite Hbits in Hcov by lia.
      replace (b - e - c + e + c) with b in Hcov by lia.
      replace (offset + e + c + (b - e - c)) with (offset + b) in Hcov by lia.
      rewrite Hcov. split; [auto|]. intros [H|H]; [lia|exact H].
Qed.

Lemma bit_runs_spec mask :
  0 <= mask < 2 ^ 64 ->
  Forall (fun r => 0 <= fst r /\ 0 < snd r /\ fst r + snd r <= 64) (bit_runs mask)
  /\ StronglySorted apart (bit_runs mask)
  /\ (forall b, Z.testbit mask b = true <-> covers (bit_runs mask) b).
Proof.
  intros Hm. unfold bit_runs.
  assert (mask < 2 ^ Z.of_nat 64) as Hlt by (change (Z.of_nat 64) with 64; lia).
  pose proof (bit_runs_loop_spec 64 mask 0 Hm Hlt) as H. cbv zeta in H.
  generalize dependent (bit_runs_loop 64 mask 0). intros L (HF & HS & Hcov).
  assert (forall b, Z.testbit mask b = true <-> covers L b) as Hcov'.
  { intros b. destruct (Z.lt_ge_cases b 0) as [Hneg|Hpos].
    - rewrite Z.testbit_neg_r by lia. split; [discriminate|].
      intros (r & Hin & Hp). rewrite Forall_forall in HF.
      destruct (HF r Hin) as (H1 & _). lia.
    - specialize (Hcov b Hpos). replace (0 + b) with b in Hcov by lia. exact Hcov. }
  split; [|split; [exact HS|exact Hcov']].
  apply Forall_forall. intros [o n] Hin. rewrite Forall_forall in HF.
  destruct (HF _ Hin) as (H1 & H2 & _). cbn [fst snd] in *.
  split; [lia|]. split; [lia|].
  destruct (Z.le_gt_cases (o + n) 64) as [|Hbig]; [assumption|]. exfalso.
  assert (Z.testbit mask (o + n - 1) = true) as Hbit.
  { apply Hcov'. exists (o, n). cbn [fst snd]. split; [exact Hin|lia]. }
  rewrite (bound_bits mask 64) in Hbit by lia. discriminate.
Qed.

(** The runs [IteratePages] hands to its callback are the maximal runs
    of set bits of the mask. *)
Lemma bit_runs_maximal mask :
  0 <= mask < 2 ^ 64 ->
  forall s n, (s, n) ∈ bit_runs mask <-> maximal_run (Z.testbit mask) s n.
Proof.
  intros Hm. destruct (bit_runs_spec mask Hm) as (HF & HS & Hcov).
  apply runs_maximal; [exact HS| |exact Hcov].
  eapply Forall_impl; [exact HF|]. cbn beta. intros r H. lia.
Qed.

(** ** [ExtractBits] and [IterateWords] *)

Lemma bits_of_ext f g :
  (forall b, 0 <= b < 64 -> f b = g b) -> bits_of f = bits_of g.
Proof.
  intros H. apply Z.bits_inj'. intros b Hb. rewrite !bits_of_bit.
  destruct (Z.ltb_spec b 64).
  - rewrite H by lia. reflexivity.
  - rewrite !andb_false_r. reflexivity.
Qed.

Lemma ExtractBits_ones ps pe :
  0 <= ps < 64 -> 1 <= pe ->
  ExtractBits (not64 0) ps pe = Ok (range_mask ps pe).
Proof.
  intros Hps Hpe. unfold ExtractBits, shr64, shl64.
  assert (0 <= 64 - Z.min pe 64 < 64) as Hl by lia.
  set (l := 64 - Z.min pe 64) in *.
  replace ((0 <=? ps) && (ps <? 64)) with true
    by (symmetry; apply andb_true_iff; split; [apply Z.leb_le|apply Z.ltb_lt]; lia).
  replace ((0 <=? l) && (l <? 64)) with true
    by (symmetry; apply andb_true_iff; split; [apply Z.leb_le|apply Z.ltb_lt]; lia).
  cbn [bind]. f_equal. apply Z.bits_inj'. intros b Hb.
  unfold range_mask. rewrite bits_of_bit.
  rewrite Z.shiftr_spec, wrap64_bit, Z.shiftl_spec, wrap64_bit by lia.
  replace (b + l - l) with b by lia.
  destruct (Z.lt_ge_cases b ps) as [Hlt|Hge].
  - rewrite Z.shiftl_spec, Z.testbit_neg_r by lia.
    destruct (Z.leb_spec ps b); [lia|]. rewrite !andb_false_r. reflexivity.
  - rewrite Z.shiftl_spec, Z.shiftr_spec by lia. replace (b - ps + ps) with b by lia.
    rewrite not64_bit, Z.bits_0.
    destruct (Z.ltb_spec (b + l) 64), (Z.ltb_spec b 64), (Z.leb_spec 0 b),
      (Z.leb_spec ps b), (Z.ltb_spec b pe); simpl; try reflexivity; lia.
Qed.

Lemma range_mask_range lo hi : 0 <= range_mask lo hi < 2 ^ 64.
Proof. apply bits_of_range. Qed.

Lemma IterateWords_loop_words {S : Type} (func : Z -> Z -> S -> result (bool * S)) n :
  forall idx sp ep s,
    0 <= sp < 64 -> 64 * (Z.of_nat n - 1) < ep < 2 ^ 63 ->
    IterateWords_loop n idx sp ep func s = run_words func (loop_words n idx sp ep) s.
Proof.
  induction n as [|n IH]; intros idx sp ep s Hsp Hep; [reflexivity|].
  cbn [IterateWords_loop loop_words run_words].
  rewrite ExtractBits_ones by lia. cbn [bind].
  destruct (func idx (range_mask sp ep) s) as [[brk s']|f]; cbn [bind fst snd]; [|reflexivity].
  destruct brk; [reflexivity|].
  destruct n as [|n]; [reflexivity|].
  consts. rewrite wrap64_small by lia. apply IH; lia.
Qed.

Lemma loop_words_map (g : Z -> Z) n :
  forall idx sp ep,
    (forall k, 0 <= k < Z.of_nat n ->
       range_mask (if k =? 0 then sp else 0) (ep - 64 * k) = g (idx + k)) ->
    loop_words n idx sp ep = map (fun i => (i, g i)) (seqZ idx (Z.of_nat n)).
Proof.
  induction n as [|n IH]; intros idx sp ep Hg; [reflexivity|].
  rewrite seqZ_cons by lia. cbn [loop_words map]. f_equal.
  - f_equal. specialize (Hg 0 ltac:(lia)). cbn [Z.eqb] in Hg.
    rewrite Z.mul_0_r, Z.sub_0_r, Z.add_0_r in Hg. exact Hg.
  - replace (Z.pred (Z.of_nat (Datatypes.S n))) with (Z.of_nat n) by lia.
    replace (Z.succ idx) with (idx + 1) by lia. apply IH.
    intros k Hk. specialize (Hg (k + 1) ltac:(lia)).
    destruct (Z.eqb_spec (k + 1) 0); [lia|].
    replace (idx + 1 + k) with (idx + (k + 1)) by lia. rewrite <- Hg.
    consts. unfold range_mask. apply bits_of_ext. intros b Hb.
    destruct (Z.eqb_spec k 0).
    + subst k. f_equal. f_equal. lia.
    + f_equal. f_equal. lia.
Qed.

Lemma in_query_spec offset size p :
  in_query offset size p = true <->
  range_start offset < range_end offset size
  /\ first_page offset <= p /\ p < end_page offset size /\ p < 1024.
Proof.
  unfold in_query, last_page. consts.
  rewrite !andb_true_iff, Z.ltb_lt, Z.leb_le, Z.ltb_lt. lia.
Qed.

Lemma first_page_nonneg offset : 0 <= first_page offset.
Proof.
  unfold first_page. consts. pose proof (range_start_range offset).
  apply Z.div_pos; lia.
Qed.

Lemma pages_of_range offset size :
  range_start offset < range_end offset size -> first_page offset < end_page offset size.
Proof.
  unfold first_page, end_page. consts. intros H.
  pose proof (range_start_range offset). Z.div_mod_to_equations. lia.
Qed.

(** [IterateWords] visits the words of the query, each with the mask of
    the pages the query touches in it. *)
Lemma IterateWords_words {S : Type} offset size
    (func : Z -> Z -> S -> result (bool * S)) s :
  IterateWords offset size func s = run_words func (query_words offset size) s.
Proof.
  unfold IterateWords, query_words.
  pose proof (range_start_range offset) as HS.
  pose proof (range_end_range offset size) as HE.
  pose proof (in_query_spec offset size (first_page offset)) as Hq.
  unfold GetWordPage, first_page, last_page, end_page in *. consts.
  replace (range_end offset size + 4096 - 1) with (range_end offset size + 4095) in Hq by lia.
  set (st := range_start offset) in *. set (en := range_end offset size) in *.
  destruct (Z.leb_spec 4194304 st) as [Hbig|Hsmall]; cbn [orb].
  { destruct (in_query offset size (st / 4096)); [|reflexivity].
    exfalso. destruct Hq as [Hq _]. specialize (Hq eq_refl).
    assert (1024 <= st / 4096) by (apply Z.div_le_lower_bound; lia). lia. }
  destruct (Z.leb_spec en st) as [Hle|Hlt].
  { destruct (in_query offset size (st / 4096)); [|reflexivity].
    exfalso. destruct Hq as [Hq _]. specialize (Hq eq_refl). lia. }
  assert (st / 4096 < (en + 4095) / 4096) as Hpages
    by (apply Z.div_lt_upper_bound; [lia|]; pose proof (Z.mul_div_le st 4096 ltac:(lia));
        pose proof (Z.mod_pos_bound (en + 4095) 4096 ltac:(lia));
        pose proof (Z.div_mod (en + 4095) 4096 ltac:(lia)); lia).
  assert (st / 4096 < 1024) as Hreg by (apply Z.div_lt_upper_bound; lia).
  replace (in_query offset size (st / 4096)) with true
    by (symmetry; apply Hq; lia).
  rewrite (wrap64_small (en + 4096 - 1)) by lia.
  replace (en + 4096 - 1) with (en + 4095) in * by lia.
  set (PS := st / 4096) in *. set (PE := (en + 4095) / 4096) in *.
  assert (st / 262144 = PS / 64) as ->
    by (unfold PS; rewrite Z.div_div by lia; reflexivity).
  assert (st mod 262144 / 4096 = PS mod 64) as ->
    by (unfold PS; change 262144 with (4096 * 64); rewrite Z.rem_mul_r by lia;
        rewrite Z.mul_comm, Z.div_add by lia; rewrite (Z.div_small (st mod 4096)) by
          (apply Z.mod_pos_bound; lia); reflexivity).
  assert ((en + 4095) / 262144 = PE / 64) as ->
    by (unfold PE; rewrite Z.div_div by lia; reflexivity).
  assert ((en + 4095) mod 262144 / 4096 = PE mod 64) as ->
    by (unfold PE; change 262144 with (4096 * 64); rewrite Z.rem_mul_r by lia;
        rewrite Z.mul_comm, Z.div_add by lia;
        rewrite (Z.div_small ((en + 4095) mod 4096)) by (apply Z.mod_pos_bound; lia);
        reflexivity).
  assert (0 <= PS) as HPS0 by (apply Z.div_pos; lia).
  assert (PE < 2 ^ 52) as HPEb by (apply Z.div_lt_upper_bound; lia).
  clear Hq.
  pose proof (Z.div_mod PS 64 ltac:(lia)) as Hdps.
  pose proof (Z.mod_pos_bound PS 64 ltac:(lia)) as Hmps.
  pose proof (Z.div_mod PE 64 ltac:(lia)) as Hdpe.
  pose proof (Z.mod_pos_bound PE 64 ltac:(lia)) as Hmpe.
  set (sw := PS / 64) in *. set (sp := PS mod 64) in *.
  set (ew0 := PE / 64) in *. set (ep0 := PE mod 64) in *.
  clearbody sw sp ew0 ep0.
  assert (PS < PE /\ PS < 1024) as HP by lia.
  assert (Z.min sw 16 = sw) as -> by lia.
  set (ew1 := Z.min ew0 16).
  assert (sw <= ew1) as Hsw by lia.
  rewrite (wrap64_small (ew1 - sw)) by lia.
  rewrite (wrap64_small (ep0 + 64 - 1)) by lia.
  assert ((ep0 + 64 - 1) / 64 = if ep0 =? 0 then 0 else 1) as ->.
  { destruct (Z.eqb_spec ep0 0) as [->|]; [reflexivity|].
    symmetry. apply Z.div_unique with (r := ep0 - 1); lia. }
  rewrite (wrap64_small (ew1 + _)) by (destruct (ep0 =? 0); lia).
  rewrite (wrap64_small ((ew1 - sw) * 64)) by lia.
  rewrite (wrap64_small (ep0 + _)) by lia.
  assert (Z.min (ew1 + (if ep0 =? 0 then 0 else 1)) 16 = (Z.min PE 1024 + 64 - 1) / 64) as ->.
  { unfold ew1. destruct (Z.eqb_spec ep0 0); Z.div_mod_to_equations; lia. }
  set (ew := (Z.min PE 1024 + 64 - 1) / 64).
  assert (sw < ew <= 16 /\ 64 * (ew - 1) < Z.min PE 1024 <= 64 * ew) as Hew.
  { unfold ew. pose proof (Z.div_mod (Z.min PE 1024 + 64 - 1) 64 ltac:(lia)).
    pose proof (Z.mod_pos_bound (Z.min PE 1024 + 64 - 1) 64 ltac:(lia)). lia. }
  clearbody ew.
  rewrite IterateWords_loop_words by (rewrite ?Z2Nat.id by lia; unfold ew1; lia).
  f_equal. rewrite <- (Z2Nat.id (ew - sw)) at 2 by lia.
  apply loop_words_map. rewrite Z2Nat.id by lia. intros k Hk.
  unfold query_mask, range_mask. apply bits_of_ext. intros b Hb.
  apply eq_true_iff_eq. rewrite in_query_spec. unfold first_page, end_page. consts.
  replace (range_end offset size + 4096 - 1) with (range_end offset size + 4095) by lia.
  change (range_start offset) with st. change (range_end offset size) with en.
  change (st / 4096) with PS. change ((en + 4095) / 4096) with PE.
  rewrite !andb_true_iff, Z.leb_le, Z.ltb_lt.
  clearbody PS PE. unfold ew1. destruct (Z.eqb_spec k 0); lia.
Qed.

(** ** What one word of an operation does to the region *)

Lemma word_get_ok (a : WordsArray) i :
  0 <= i < Z.of_nat (length a) -> word_get a i = Ok (word_at a i).
Proof.
  intros Hi. unfold word_get, word_at.
  destruct (Z.leb_spec 0 i); [|lia].
  destruct (a !! Z.to_nat i) eqn:E; [reflexivity|].
  apply lookup_ge_None in E. lia.
Qed.

Lemma word_set_ok (a : WordsArray) i v :
  0 <= i < Z.of_nat (length a) -> word_set a i v = Ok (<[Z.to_nat i := v]> a).
Proof.
  intros Hi. unfold word_set.
  destruct (Z.leb_spec 0 i); [|lia]. destruct (Z.ltb_spec i (Z.of_nat (length a))); [|lia].
  reflexivity.
Qed.

Lemma or_word_ok (a : WordsArray) i m :
  0 <= i < Z.of_nat (length a) -> or_word a i m = Ok (upd_array SetBits a i m).
Proof.
  intros Hi. unfold or_word. rewrite word_get_ok by exact Hi. cbn [bind].
  apply word_set_ok. exact Hi.
Qed.

Lemma andnot_word_ok (a : WordsArray) i m :
  0 <= i < Z.of_nat (length a) -> andnot_word a i m = Ok (upd_array ClearBits a i m).
Proof.
  intros Hi. unfold andnot_word. rewrite word_get_ok by exact Hi. cbn [bind].
  apply word_set_ok. exact Hi.
Qed.

Lemma upd_array_length u (a : WordsArray) i m : length (upd_array u a i m) = length a.
Proof. unfold upd_array. apply length_insert. Qed.

Lemma upd_array_keep (a : WordsArray) i m :
  0 <= i < Z.of_nat (length a) -> upd_array Keep a i m = a.
Proof.
  intros Hi. unfold upd_array, upd_word, word_at.
  destruct (Z.leb_spec 0 i); [|lia].
  destruct (a !! Z.to_nat i) eqn:E.
  - apply list_insert_id. exact E.
  - apply lookup_ge_None in E. lia.
Qed.

Lemma word_at_upd_same u (a : WordsArray) i m :
  0 <= i < Z.of_nat (length a) ->
  word_at (upd_array u a i m) i = upd_word u (word_at a i) m.
Proof.
  intros Hi. unfold upd_array.
  generalize (upd_word u (word_at a i) m). intros v. unfold word_at.
  destruct (Z.leb_spec 0 i); [|lia].
  rewrite list_lookup_insert_eq by lia. reflexivity.
Qed.

Lemma word_at_upd_other u (a : WordsArray) i j m :
  0 <= i -> i <> j -> word_at (upd_array u a i m) j = word_at a j.
Proof.
  intros Hi Hne. unfold upd_array.
  generalize (upd_word u (word_at a i) m). intros v. unfold word_at.
  destruct (Z.leb_spec 0 j); [|reflexivity].
  rewrite list_lookup_insert_ne by lia. reflexivity.
Qed.

Lemma apply_effect_wf e rm i m : well_formed rm -> well_formed (apply_effect e rm i m).
Proof.
  unfold well_formed, apply_effect. cbn [cpu gpu write read].
  rewrite !upd_array_length. tauto.
Qed.

Lemma changed_bits_range add acc m : 0 <= m < 2 ^ 64 -> 0 <= changed_bits add acc m < 2 ^ 64.
Proof. intros Hm. unfold changed_bits. apply land_mask_range. exact Hm. Qed.

Lemma feed_emit (f : Z * Z -> Event) (L : list (Z * Z)) (tr : list Event) :
  feed (fun o n tr => emit (f (o, n)) tr) L tr = tr ++ map f L.
Proof.
  unfold feed. revert tr. induction L as [|[o n] L IH]; intros tr; cbn [fold_left map fst snd].
  - rewrite app_nil_r. reflexivity.
  - rewrite IH. unfold emit. rewrite <- app_assoc. reflexivity.
Qed.

Lemma UpdateProtection_ok add rd rm i acc m tr :
  0 <= m < 2 ^ 64 ->
  UpdateProtection add rd rm i acc m tr
  = Ok (tr ++ protection_events add rd (cpu_addr rm) i acc m).
Proof.
  intros Hm. unfold UpdateProtection. fold (changed_bits add acc m).
  rewrite IteratePages_runs by (apply changed_bits_range; exact Hm).
  f_equal. unfold protection_events.
  rewrite <- (feed_emit (watch_of add rd (cpu_addr rm) i)). reflexivity.
Qed.

Ltac step_word :=
  repeat (first [ rewrite word_get_ok by lia
                | rewrite UpdateProtection_ok by lia
                | rewrite or_word_ok by (rewrite ?upd_array_length; lia)
                | rewrite andnot_word_ok by (rewrite ?upd_array_length; lia) ];
          cbn [bind set_cpu set_gpu set_write set_read cpu gpu write read cpu_addr
               region trace Span set_Span]).

Lemma ChangeRegionState_word_ok type d i m st :
  well_formed (region st) -> 0 <= i < NUM_REGION_WORDS -> 0 <= m < 2 ^ 64 ->
  ChangeRegionState_word type d i m st = Ok (change_word type d st (i, m)).
Proof.
  intros (Hc & Hg & Hw & Hr) Hi Hm. consts. change (Z.to_nat 16) with 16%nat in *.
  unfold ChangeRegionState_word, change_word, change_events, change_effect, apply_effect.
  cbn [fst snd].
  destruct type, d; cbn [negb]; step_word; cbn [e_cpu e_gpu e_write e_read];
    rewrite ?upd_array_keep by lia; rewrite <- ?app_assoc; reflexivity.
Qed.

Lemma ForEachModifiedRange_word_ok type clear i m w :
  well_formed (region (walk_state w)) -> 0 <= i < NUM_REGION_WORDS -> 0 <= m < 2 ^ 64 ->
  ForEachModifiedRange_word type clear i m w = Ok (walk_word type clear w (i, m)).
Proof.
  intros (Hc & Hg & Hw & Hr) Hi Hm. consts. change (Z.to_nat 16) with 16%nat in *.
  unfold ForEachModifiedRange_word, walk_word, walk_events, walk_effect, apply_effect.
  cbn [fst snd].
  destruct type, clear; cbn [Span]; step_word;
    rewrite IteratePages_runs by (apply land_mask_range; exact Hm);
    cbn [e_cpu e_gpu e_write e_read];
    rewrite ?upd_array_keep by lia; rewrite ?app_nil_r;
    try reflexivity; destruct (walk_state w) as [[]]; reflexivity.
Qed.

(** ** The words of a query *)

Lemma query_words_map offset size :
  query_words offset size
  = map (fun i => (i, query_mask offset size i)) (query_indices offset size).
Proof.
  unfold query_words, query_indices.
  destruct (in_query offset size (first_page offset)); reflexivity.
Qed.

Lemma query_indices_spec offset size i :
  i ∈ query_indices offset size <->
  exists p, in_query offset size p = true /\ i = p / PAGES_PER_WORD.
Proof.
  unfold query_indices. pose proof (first_page_nonneg offset) as Hf.
  destruct (in_query offset size (first_page offset)) eqn:E.
  - rewrite elem_of_seqZ. apply in_query_spec in E. unfold last_page. consts.
    split.
    + intros Hi. exists (Z.max (first_page offset) (64 * i)). split.
      * apply in_query_spec.
        split; [lia|]. split; [lia|]. Z.div_mod_to_equations. lia.
      * Z.div_mod_to_equations. lia.
    + intros (p & Hp & ->). apply in_query_spec in Hp.
      Z.div_mod_to_equations. lia.
  - rewrite elem_of_nil. split; [contradiction|].
    intros (p & Hp & _). apply in_query_spec in Hp.
    assert (in_query offset size (first_page offset) = true); [|congruence].
    apply in_query_spec. lia.
Qed.

Lemma query_indices_bounds offset size i :
  i ∈ query_indices offset size -> 0 <= i < NUM_REGION_WORDS.
Proof.
  intros Hi. apply query_indices_spec in Hi as (p & Hp & ->).
  apply in_query_spec in Hp. pose proof (first_page_nonneg offset) as Hf.
  consts. Z.div_mod_to_equations. lia.
Qed.

Lemma query_indices_NoDup offset size : NoDup (query_indices offset size).
Proof.
  unfold query_indices. destruct (in_query offset size (first_page offset)).
  - apply NoDup_seqZ.
  - constructor.
Qed.

Lemma query_mask_range offset size i : 0 <= query_mask offset size i < 2 ^ 64.
Proof. apply bits_of_range. Qed.

Lemma query_mask_bit offset size i b :
  0 <= b < 64 -> Z.testbit (query_mask offset size i) b = in_query offset size (i * 64 + b).
Proof.
  intros Hb. unfold query_mask. rewrite bits_of_bit. consts.
  destruct (Z.leb_spec 0 b); [|lia]. destruct (Z.ltb_spec b 64); [|lia]. reflexivity.
Qed.

Lemma query_empty offset : query_indices offset 0 = [].
Proof.
  unfold query_indices.
  assert (in_query offset 0 (first_page offset) = false) as ->; [|reflexivity].
  destruct (in_query offset 0 (first_page offset)) eqn:E; [|reflexivity].
  apply in_query_spec in E. exfalso. destruct E as (E & _).
  unfold range_end, range_start in E. rewrite Z.add_0_r in E.
  unfold to_s64 in E.
  rewrite (wrap64_small (wrap64 offset)) in E by apply wrap64_range. lia.
Qed.

(** ** Running an operation over the words of a query *)

Lemma run_words_fold {S : Type} (step : Z -> Z -> S -> result S) (pure : S -> Z * Z -> S)
    (Inv : S -> Prop) (l : list (Z * Z)) :
  (forall i m s, (i, m) ∈ l -> Inv s ->
     step i m s = Ok (pure s (i, m)) /\ Inv (pure s (i, m))) ->
  forall s, Inv s ->
    run_words (no_break step) l s = Ok (fold_left pure l s) /\ Inv (fold_left pure l s).
Proof.
  induction l as [|[i m] l IH]; intros Hstep s Hs; [split; [reflexivity|exact Hs]|].
  cbn [run_words fold_left]. unfold no_break at 1.
  destruct (Hstep i m s) as [-> Hs']; [apply elem_of_cons; auto|exact Hs|].
  cbn [bind fst snd]. apply IH; [|exact Hs'].
  intros i' m' s' Hin. apply Hstep. apply elem_of_cons. auto.
Qed.

Lemma query_words_elem offset size i m :
  (i, m) ∈ query_words offset size ->
  0 <= i < NUM_REGION_WORDS /\ 0 <= m < 2 ^ 64.
Proof.
  rewrite query_words_map. intros Hin. apply list_elem_of_fmap in Hin as (j & Heq & Hj).
  inversion Heq; subst. split; [eapply query_indices_bounds; exact Hj|apply query_mask_range].
Qed.

Lemma feed_page_region base L w :
  region (walk_state (feed (ForEachModifiedRange_page base) L w)) = region (walk_state w).
Proof.
  unfold feed. revert w. induction L as [|[o n] L IH]; intros w; [reflexivity|].
  cbn [fold_left fst snd]. rewrite IH. unfold ForEachModifiedRange_page, release.
  destruct (pending w); cbn [negb]; [|reflexivity].
  destruct (pending_pointer w =? wrap64 (base + o)); reflexivity.
Qed.

Lemma walk_word_region type clear w im :
  region (walk_state (walk_word type clear w im))
  = apply_effect (walk_effect type clear) (region (walk_state w)) (fst im) (snd im).
Proof. unfold walk_word. rewrite feed_page_region. reflexivity. Qed.

(** [ChangeRegionState] returns, and does what its words do one after the other. *)
Lemma ChangeRegionState_ok type d addr size st :
  well_formed (region st) ->
  ChangeRegionState type d addr size st
  = Ok (fold_left (change_word type d)
          (query_words (wrap64 (addr - cpu_addr (region st))) size) st)
  /\ well_formed (region (fold_left (change_word type d)
          (query_words (wrap64 (addr - cpu_addr (region st))) size) st)).
Proof.
  intros Hwf. unfold ChangeRegionState. rewrite IterateWords_words.
  apply (run_words_fold _ _ (fun s => well_formed (region s))); [|exact Hwf].
  intros i m s Hin Hs. destruct (query_words_elem _ _ _ _ Hin) as [Hi Hm].
  split; [apply ChangeRegionState_word_ok; assumption|].
  unfold change_word. cbn [region]. apply apply_effect_wf. exact Hs.
Qed.

(** [ForEachModifiedRange] returns likewise. *)
Lemma ForEachModifiedRange_ok type clear addr size st :
  well_formed (region st) ->
  ForEachModifiedRange type clear addr size st = Ok (finish (walk_all type clear addr size st))
  /\ well_formed (region (walk_state (walk_all type clear addr size st))).
Proof.
  intros Hwf. unfold ForEachModifiedRange, walk_all. rewrite IterateWords_words.
  destruct (run_words_fold (ForEachModifiedRange_word type clear) (walk_word type clear)
              (fun w => well_formed (region (walk_state w)))
              (query_words (wrap64 (addr - cpu_addr (region st))) (wrap64 size)))
    with (s := mkWalk st false 0 0) as [-> Hwf'].
  - intros i m s Hin Hs. destruct (query_words_elem _ _ _ _ Hin) as [Hi Hm].
    split; [apply ForEachModifiedRange_word_ok; assumption|].
    rewrite walk_word_region. apply apply_effect_wf. exact Hs.
  - exact Hwf.
  - cbn [bind]. split; [|exact Hwf']. unfold finish.
    destruct (pending _); reflexivity.
Qed.

Lemma IsRegionModified_ok type offset size rm :
  well_formed rm ->
  IsRegionModified type offset size rm
  = Ok (existsb (fun im => negb (Z.land (word_at (Span type rm) (fst im)) (snd im) =? 0))
          (query_words offset size)).
Proof.
  intros Hwf. unfold IsRegionModified. rewrite IterateWords_words.
  assert (forall l, (forall i m, (i, m) ∈ l -> 0 <= i < NUM_REGION_WORDS) ->
            run_words (IsRegionModified_word type rm) l false
            = Ok (existsb (fun im => negb (Z.land (word_at (Span type rm) (fst im)) (snd im) =? 0)) l))
    as Hgen.
  { induction l as [|[i m] l IH]; intros Hl; [reflexivity|].
    cbn [run_words existsb fst snd]. unfold IsRegionModified_word at 1.
    rewrite word_get_ok.
    - cbn [bind]. destruct (Z.land (word_at (Span type rm) i) m =? 0); cbn [negb bind fst snd orb].
      + apply IH. intros i' m' Hin. apply (Hl i' m'). apply elem_of_cons. auto.
      + reflexivity.
    - specialize (Hl i m ltac:(apply elem_of_cons; auto)).
      destruct Hwf as (Hc & Hg & _). consts. destruct type; cbn [Span]; lia. }
  apply Hgen. intros i m Hin. apply (query_words_elem _ _ _ _ Hin).
Qed.

(** ** The region after an operation, page by page *)

Lemma fold_region {S : Type} (proj : S -> RegionManager) (step : S -> Z * Z -> S)
    (e : Effect) (g : Z -> Z) :
  (forall s im, proj (step s im) = apply_effect e (proj s) (fst im) (snd im)) ->
  forall ixs s,
    proj (fold_left step (map (fun i => (i, g i)) ixs) s)
    = {| cpu_addr := cpu_addr (proj s);
         cpu := array_after (e_cpu e) g ixs (cpu (proj s));
         gpu := array_after (e_gpu e) g ixs (gpu (proj s));
         write := array_after (e_write e) g ixs (write (proj s));
         read := array_after (e_read e) g ixs (read (proj s)) |}.
Proof.
  intros Hstep. induction ixs as [|i ixs IH]; intros s.
  - cbn. destruct (proj s); reflexivity.
  - cbn [map fold_left]. rewrite IH, Hstep. reflexivity.
Qed.

Lemma array_after_length u g ixs (a : WordsArray) : length (array_after u g ixs a) = length a.
Proof.
  unfold array_after. revert a. induction ixs as [|i ixs IH]; intros a; [reflexivity|].
  cbn [fold_left]. rewrite IH. apply upd_array_length.
Qed.

Lemma array_after_out u g ixs (a : WordsArray) j :
  Forall (fun i => 0 <= i) ixs -> j ∉ ixs ->
  word_at (array_after u g ixs a) j = word_at a j.
Proof.
  unfold array_after. revert a. induction ixs as [|i ixs IH]; intros a Hpos Hj; [reflexivity|].
  cbn [fold_left]. apply Forall_cons in Hpos as [Hi Hpos].
  apply not_elem_of_cons in Hj as [Hne Hj].
  rewrite IH by assumption. apply word_at_upd_other; [exact Hi|congruence].
Qed.

Lemma array_after_in u g ixs (a : WordsArray) j :
  NoDup ixs -> Forall (fun i => 0 <= i < Z.of_nat (length a)) ixs -> j ∈ ixs ->
  word_at (array_after u g ixs a) j = upd_word u (word_at a j) (g j).
Proof.
  unfold array_after. revert a. induction ixs as [|i ixs IH]; intros a Hnd Hb Hj.
  - apply elem_of_nil in Hj. contradiction.
  - cbn [fold_left]. apply NoDup_cons in Hnd as [Hni Hnd].
    apply Forall_cons in Hb as [Hi Hb].
    apply elem_of_cons in Hj as [->|Hj].
    + fold (array_after u g ixs (upd_array u a i (g i))).
      rewrite array_after_out; [apply word_at_upd_same; exact Hi| |exact Hni].
      eapply Forall_impl; [exact Hb|]. cbn beta. intros; lia.
    + rewrite IH; [|exact Hnd| |exact Hj].
      * rewrite word_at_upd_other; [reflexivity|lia|]. intros ->. contradiction.
      * rewrite upd_array_length. exact Hb.
Qed.

Lemma upd_word_bit u w m b :
  0 <= b < 64 ->
  Z.testbit (upd_word u w m) b = upd_bit u (Z.testbit w b) (Z.testbit m b).
Proof.
  intros Hb. destruct u; cbn [upd_word upd_bit].
  - reflexivity.
  - apply Z.lor_spec.
  - rewrite Z.land_spec, not64_bit.
    destruct (Z.leb_spec 0 b); [|lia]. destruct (Z.ltb_spec b 64); [|lia]. reflexivity.
Qed.

Lemma upd_bit_false u old : upd_bit u old false = old.
Proof. destruct u, old; reflexivity. Qed.

Lemma page_bit_after u offset size (a : WordsArray) p :
  length a = Z.to_nat NUM_REGION_WORDS ->
  page_bit (array_after u (query_mask offset size) (query_indices offset size) a) p
  = upd_bit u (page_bit a p) (in_query offset size p).
Proof.
  intros Hlen. unfold page_bit. consts.
  assert (Forall (fun i => 0 <= i < Z.of_nat (length a)) (query_indices offset size)) as Hb.
  { apply Forall_forall. intros i Hi. apply query_indices_bounds in Hi.
    rewrite Hlen. consts. lia. }
  destruct (decide (p / 64 ∈ query_indices offset size)) as [Hin|Hout].
  - rewrite array_after_in; [|apply query_indices_NoDup|exact Hb|exact Hin].
    rewrite upd_word_bit by (apply Z.mod_pos_bound; lia).
    rewrite query_mask_bit by (apply Z.mod_pos_bound; lia).
    do 2 f_equal. pose proof (Z.div_mod p 64 ltac:(lia)). lia.
  - rewrite array_after_out; [| |exact Hout].
    + assert (in_query offset size p = false) as ->; [|symmetry; apply upd_bit_false].
      destruct (in_query offset size p) eqn:E; [|reflexivity].
      exfalso. apply Hout. apply query_indices_spec. exists p. auto.
    + eapply Forall_impl; [exact Hb|]. cbn beta. intros; lia.
Qed.

Lemma region_after_wf e offset size rm :
  well_formed rm -> well_formed (region_after e offset size rm).
Proof.
  unfold well_formed, region_after. cbn [cpu gpu write read].
  rewrite !array_after_length. tauto.
Qed.

(** Bit by bit: what an operation with effect [e] leaves in the four arrays. *)
Lemma region_after_pages e offset size rm p :
  well_formed rm ->
  let rm' := region_after e offset size rm in
  page_bit (cpu rm') p = upd_bit (e_cpu e) (page_bit (cpu rm) p) (in_query offset size p)
  /\ page_bit (gpu rm') p = upd_bit (e_gpu e) (page_bit (gpu rm) p) (in_query offset size p)
  /\ page_bit (write rm') p = upd_bit (e_write e) (page_bit (write rm) p) (in_query offset size p)
  /\ page_bit (read rm') p = upd_bit (e_read e) (page_bit (read rm) p) (in_query offset size p).
Proof.
  intros (Hc & Hg & Hw & Hr). cbv zeta. unfold region_after. cbn [cpu gpu write read].
  rewrite !page_bit_after by assumption. auto.
Qed.

Lemma ChangeRegionState_region type d addr size st :
  well_formed (region st) ->
  exists st',
    ChangeRegionState type d addr size st = Ok st'
    /\ region st' = region_after (change_effect type d)
                      (wrap64 (addr - cpu_addr (region st))) size (region st).
Proof.
  intros Hwf. destruct (ChangeRegionState_ok type d addr size st Hwf) as [Heq _].
  eexists. split; [exact Heq|].
  rewrite query_words_map.
  rewrite (fold_region region (change_word type d) (change_effect type d)); reflexivity.
Qed.

Lemma walk_all_region type clear addr size st :
  region (walk_state (walk_all type clear addr size st))
  = region_after (walk_effect type clear)
      (wrap64 (addr - cpu_addr (region st))) (wrap64 size) (region st).
Proof.
  unfold walk_all. rewrite query_words_map.
  rewrite (fold_region (fun w => region (walk_state w)) (walk_word type clear)
             (walk_effect type clear)); [reflexivity|].
  intros s im. apply walk_word_region.
Qed.

Lemma finish_region w : region (finish w) = region (walk_state w).
Proof. unfold finish, release. destruct (pending w); reflexivity. Qed.

Lemma ForEachModifiedRange_region type clear addr size st :
  well_formed (region st) ->
  exists st',
    ForEachModifiedRange type clear addr size st = Ok st'
    /\ region st' = region_after (walk_effect type clear)
                      (wrap64 (addr - cpu_addr (region st))) (wrap64 size) (region st).
Proof.
  intros Hwf. destruct (ForEachModifiedRange_ok type clear addr size st Hwf) as [Heq _].
  eexists. split; [exact Heq|]. rewrite finish_region. apply walk_all_region.
Qed.

(** ** [IsRegionModified], page by page *)

Lemma nonzero_bit x : 0 <= x < 2 ^ 64 -> x <> 0 -> exists b, 0 <= b < 64 /\ Z.testbit x b = true.
Proof.
  intros Hx Hne. exists (Z.log2 x). split.
  - split; [apply Z.log2_nonneg|]. apply Z.log2_lt_pow2; lia.
  - apply Z.bit_log2. lia.
Qed.

Lemma page_bit_split (a : WordsArray) i b :
  0 <= b < 64 -> page_bit a (i * 64 + b) = Z.testbit (word_at a i) b.
Proof.
  intros Hb. unfold page_bit. consts.
  replace ((i * 64 + b) / 64) with i by (Z.div_mod_to_equations; lia).
  replace ((i * 64 + b) mod 64) with b by (Z.div_mod_to_equations; lia).
  reflexivity.
Qed.

Lemma IsRegionModified_pages type offset size rm :
  well_formed rm ->
  exists r, IsRegionModified type offset size rm = Ok r
    /\ (r = true <-> exists p, in_query offset size p = true /\ modified type rm p = true).
Proof.
  intros Hwf. eexists. split; [apply IsRegionModified_ok; exact Hwf|].
  rewrite existsb_exists. unfold modified. split.
  - intros ([i m] & Hin & Hnz). cbn [fst snd] in Hnz.
    apply list_elem_of_In in Hin. rewrite query_words_map in Hin.
    apply list_elem_of_fmap in Hin as (j & Heq & Hj). inversion Heq; subst j m. clear Heq.
    apply negb_true_iff, Z.eqb_neq in Hnz.
    destruct (nonzero_bit _ (land_mask_range _ _ (query_mask_range offset size i)) Hnz)
      as (b & Hb & Hbit).
    rewrite Z.land_spec, andb_true_iff, query_mask_bit in Hbit by exact Hb.
    exists (i * 64 + b). split; [tauto|]. rewrite page_bit_split by exact Hb. tauto.
  - intros (p & Hq & Hm).
    exists (p / 64, query_mask offset size (p / 64)). split.
    + apply list_elem_of_In. rewrite query_words_map. apply list_elem_of_fmap.
      exists (p / 64). split; [reflexivity|]. apply query_indices_spec. exists p. auto.
    + cbn [fst snd]. apply negb_true_iff, Z.eqb_neq. intros Hz.
      assert (Z.testbit (Z.land (word_at (Span type rm) (p / 64)) (query_mask offset size (p / 64)))
                (p mod 64) = true) as Hbit.
      { rewrite Z.land_spec, query_mask_bit by (apply Z.mod_pos_bound; lia).
        replace (p / 64 * 64 + p mod 64) with p
          by (pose proof (Z.div_mod p 64 ltac:(lia)); lia).
        rewrite Hq, andb_true_r. exact Hm. }
      rewrite Hz, Z.bits_0 in Hbit. discriminate.
Qed.

(** ** The freshly constructed region *)

Lemma fill_length v : length (fill v) = Z.to_nat NUM_REGION_WORDS.
Proof. unfold fill. apply length_replicate. Qed.

Lemma RegionManager_new_wf c : well_formed (RegionManager_new c).
Proof. unfold well_formed, RegionManager_new. cbn [cpu gpu write read]. rewrite !fill_length. auto. Qed.

Lemma fill_word v i : 0 <= i < NUM_REGION_WORDS -> word_at (fill v) i = v.
Proof.
  intros Hi. unfold word_at, fill. destruct (Z.leb_spec 0 i); [|lia].
  rewrite lookup_replicate_2; [reflexivity|]. consts. lia.
Qed.

Lemma fill_page v p :
  0 <= p < NUM_REGION_PAGES -> page_bit (fill v) p = Z.testbit v (p mod PAGES_PER_WORD).
Proof.
  intros Hp. unfold page_bit. rewrite fill_word; [reflexivity|].
  consts. Z.div_mod_to_equations. lia.
Qed.

Lemma fresh_pages c p :
  0 <= p < NUM_REGION_PAGES ->
  page_bit (cpu (RegionManager_new c)) p = true
  /\ page_bit (gpu (RegionManager_new c)) p = false
  /\ page_bit (write (RegionManager_new c)) p = true
  /\ page_bit (read (RegionManager_new c)) p = true.
Proof.
  intros Hp. unfold RegionManager_new. cbn [cpu gpu write read].
  rewrite !fill_page by exact Hp. rewrite not64_bit, Z.bits_0. consts.
  pose proof (Z.mod_pos_bound p 64 ltac:(lia)).
  destruct (Z.leb_spec 0 (p mod 64)); [|lia]. destruct (Z.ltb_spec (p mod 64) 64); [|lia].
  auto.
Qed.

Lemma in_query_bounds offset size p :
  in_query offset size p = true -> 0 <= p < NUM_REGION_PAGES.
Proof.
  intros H. apply in_query_spec in H. pose proof (first_page_nonneg offset). consts. lia.
Qed.

(** ** Operations and reachable states *)

Lemma run_op_region op st :
  well_formed (region st) ->
  exists st' offset size,
    run_op op st = Ok st' /\ region st' = region_after (op_effect op) offset size (region st).
Proof.
  intros Hwf. destruct op as [type d addr size|type clear addr size]; cbn [run_op op_effect].
  - destruct (ChangeRegionState_region type d addr size st Hwf) as (st' & H1 & H2). eauto.
  - destruct (ForEachModifiedRange_region type clear addr size st Hwf) as (st' & H1 & H2). eauto.
Qed.

Lemma reachable_wf c st : reachable c st -> well_formed (region st).
Proof.
  induction 1 as [|st op st' Hr IH Hrun]; [apply RegionManager_new_wf|].
  destruct (run_op_region op st IH) as (st2 & offset & size & Heq & Hreg).
  rewrite Hrun in Heq. inversion Heq; subst st2. rewrite Hreg.
  apply region_after_wf. exact IH.
Qed.

(** A property of the four bits of a page that the constructor
    establishes and every effect preserves holds in every reachable state. *)
Lemma reachable_bits (I : bool -> bool -> bool -> bool -> Prop) :
  I true false true true ->
  (forall op c g w r inm, I c g w r ->
     I (upd_bit (e_cpu (op_effect op)) c inm) (upd_bit (e_gpu (op_effect op)) g inm)
       (upd_bit (e_write (op_effect op)) w inm) (upd_bit (e_read (op_effect op)) r inm)) ->
  forall c st p, reachable c st -> 0 <= p < NUM_REGION_PAGES ->
    I (page_bit (cpu (region st)) p) (page_bit (gpu (region st)) p)
      (page_bit (write (region st)) p) (page_bit (read (region st)) p).
Proof.
  intros Hnew Hstep c st p Hreach Hp.
  induction Hreach as [|st op st' Hr IH Hrun].
  - cbn [region]. destruct (fresh_pages c p Hp) as (-> & -> & -> & ->). exact Hnew.
  - pose proof (reachable_wf _ _ Hr) as Hwf.
    destruct (run_op_region op st Hwf) as (st2 & offset & size & Heq & Hreg).
    rewrite Hrun in Heq. inversion Heq; subst st2. rewrite Hreg.
    destruct (region_after_pages (op_effect op) offset size (region st) p Hwf)
      as (-> & -> & -> & ->).
    apply Hstep. exact IH.
Qed.

(** ** The fresh region (C9) *)

Lemma range_of_plain offset size :
  0 <= offset -> 0 <= size -> offset + size < 2 ^ 63 ->
  range_start offset = offset /\ range_end offset size = offset + size.
Proof.
  intros Ho Hs Hb. unfold range_start, range_end, to_s64.
  rewrite (wrap64_small (wrap64 (offset + size))) by apply wrap64_range.
  rewrite !wrap64_small by lia.
  destruct (Z.ltb_spec offset (2 ^ 63)); [|lia].
  destruct (Z.ltb_spec (offset + size) (2 ^ 63)); [|lia]. lia.
Qed.

(** C9. Right after construction every page of the region is
    CPU-modified and none is GPU-modified: [IsRegionModified<CPU>] answers
    true and [IsRegionModified<GPU>] false on every non-empty query inside
    the region. *)
Theorem C9_fresh_region_is_cpu_modified c offset size p :
  0 <= p < NUM_REGION_PAGES ->
  0 <= offset -> 0 < size -> offset + size <= HIGHER_PAGE_SIZE ->
  modified CPU (RegionManager_new c) p = true
  /\ modified GPU (RegionManager_new c) p = false
  /\ IsRegionModified CPU offset size (RegionManager_new c) = Ok true
  /\ IsRegionModified GPU offset size (RegionManager_new c) = Ok false.
Proof.
  intros Hp Ho Hs Hin. unfold modified. cbn [Span].
  destruct (fresh_pages c p Hp) as (Hc & Hg & _).
  split; [exact Hc|]. split; [exact Hg|].
  pose proof (RegionManager_new_wf c) as Hwf. consts.
  destruct (range_of_plain offset size) as [Hst Hen]; try lia.
  split.
  - destruct (IsRegionModified_pages CPU offset size _ Hwf) as (r & -> & Hr).
    f_equal. apply Hr. exists (first_page offset).
    assert (in_query offset size (first_page offset) = true) as Hq.
    { apply in_query_spec. pose proof (pages_of_range offset size).
      unfold first_page in *. rewrite Hst, Hen in *. consts.
      split; [lia|]. split; [lia|]. split; [lia|]. Z.div_mod_to_equations. lia. }
    split; [exact Hq|]. unfold modified. cbn [Span].
    apply (fresh_pages c). apply (in_query_bounds _ _ _ Hq).
  - destruct (IsRegionModified_pages GPU offset size _ Hwf) as (r & -> & Hr).
    f_equal. destruct r; [|reflexivity]. exfalso.
    destruct Hr as [Hr _]. destruct (Hr eq_refl) as (q & Hq & Hm).
    unfold modified in Hm. cbn [Span] in Hm.
    destruct (fresh_pages c q (in_query_bounds _ _ _ Hq)) as (_ & Hg' & _). congruence.
Qed.

Lemma C9_witness :
  modified CPU (RegionManager_new 0) 5 = true
  /\ modified GPU (RegionManager_new 0) 5 = false
  /\ IsRegionModified CPU 4096 8192 (RegionManager_new 0) = Ok true
  /\ IsRegionModified GPU 4096 8192 (RegionManager_new 0) = Ok false.
Proof.
  apply (C9_fresh_region_is_cpu_modified 0 4096 8192 5); vm_compute; intuition discriminate.
Defined.

(** ** CPU-modified against write tracking (C3) *)

Lemma gpu_marked_reachable : reachable 0 gpu_marked.
Proof.
  apply (reach_step 0 (mkState (RegionManager_new 0) []) (OpChange GPU true 0 4096)).
  - apply reach_new.
  - vm_compute. reflexivity.
Qed.

(** Marking the page GPU-modified asked the tracker for a write watcher
    and a read watcher on it. *)
Example gpu_marked_trace :
  trace gpu_marked = [Watch 1 false 0 4096; Watch 1 true 0 4096].
Proof. reflexivity. Qed.

(** C3 fails as stated: marking a page GPU-modified write-tracks it and
    leaves its CPU-modified bit set. *)
Lemma C3_counterexample :
  ~ (forall st p, reachable 0 st -> 0 <= p < NUM_REGION_PAGES ->
       cpu_excludes_write_tracking (region st) p).
Proof.
  intros H. destruct (H gpu_marked 0 gpu_marked_reachable ltac:(consts; lia)) as [H1 _].
  vm_compute in H1. specialize (H1 eq_refl). discriminate.
Qed.

(** C3, amended. In every reachable state a page that is not write
    tracked is CPU-modified; [ChangeRegionState<CPU, d>] leaves every page
    of its range with the CPU-modified bit equal to [d] and write tracking
    equal to [not d], and [ForEachModifiedRange<CPU, true>] leaves it not
    CPU-modified and write tracked: the CPU-side operations move the two
    bits together. *)
Theorem C3_untracked_page_is_cpu_modified c st p :
  reachable c st -> 0 <= p < NUM_REGION_PAGES ->
  (write_tracked (region st) p = false -> modified CPU (region st) p = true)
  /\ (forall d addr size, exists st',
        ChangeRegionState CPU d addr size st = Ok st'
        /\ (in_query (wrap64 (addr - cpu_addr (region st))) size p = true ->
            modified CPU (region st') p = d /\ write_tracked (region st') p = negb d))
  /\ (forall addr size, exists st',
        ForEachModifiedRange CPU true addr size st = Ok st'
        /\ (in_query (wrap64 (addr - cpu_addr (region st))) (wrap64 size) p = true ->
            modified CPU (region st') p = false /\ write_tracked (region st') p = true)).
Proof.
  intros Hr Hp. pose proof (reachable_wf _ _ Hr) as Hwf.
  unfold modified, write_tracked. cbn [Span]. split; [|split].
  - refine (reachable_bits (fun c g w r => negb w = false -> c = true) _ _ c st p Hr Hp).
    + reflexivity.
    + intros [type d ? ?|type cl ? ?] c0 g w r inm;
        [destruct type, d|destruct type, cl]; destruct c0, w, inm; cbn; auto.
  - intros d addr size.
    destruct (ChangeRegionState_region CPU d addr size st Hwf) as (st' & Heq & Hreg).
    exists st'. split; [exact Heq|]. intros Hq. rewrite Hreg.
    destruct (region_after_pages (change_effect CPU d)
                (wrap64 (addr - cpu_addr (region st))) size (region st) p Hwf)
      as (-> & _ & -> & _).
    rewrite Hq. destruct d; cbn; destruct (page_bit _ _), (page_bit _ _); auto.
  - intros addr size.
    destruct (ForEachModifiedRange_region CPU true addr size st Hwf) as (st' & Heq & Hreg).
    exists st'. split; [exact Heq|]. intros Hq. rewrite Hreg.
    destruct (region_after_pages (walk_effect CPU true)
                (wrap64 (addr - cpu_addr (region st))) (wrap64 size) (region st) p Hwf)
      as (-> & _ & -> & _).
    rewrite Hq. cbn. destruct (page_bit _ _), (page_bit _ _); auto.
Qed.

Lemma C3_witness :
  (write_tracked (region gpu_marked) 0 = false -> modified CPU (region gpu_marked) 0 = true)
  /\ (forall d addr size, exists st',
        ChangeRegionState CPU d addr size gpu_marked = Ok st'
        /\ (in_query (wrap64 (addr - cpu_addr (region gpu_marked))) size 0 = true ->
            modified CPU (region st') 0 = d /\ write_tracked (region st') 0 = negb d))
  /\ (forall addr size, exists st',
        ForEachModifiedRange CPU true addr size gpu_marked = Ok st'
        /\ (in_query (wrap64 (addr - cpu_addr (region gpu_marked))) (wrap64 size) 0 = true ->
            modified CPU (region st') 0 = false /\ write_tracked (region st') 0 = true)).
Proof.
  apply (C3_untracked_page_is_cpu_modified 0 gpu_marked 0).
  - exact gpu_marked_reachable.
  - vm_compute. intuition discriminate.
Defined.

(** ** GPU-modified against the tracking bits (C4) *)

Lemma gpu_then_cpu_marked_reachable : reachable 0 gpu_then_cpu_marked.
Proof.
  apply (reach_step 0 gpu_marked (OpChange CPU true 0 4096)).
  - exact gpu_marked_reachable.
  - vm_compute. reflexivity.
Qed.

(** C4 fails as stated: a CPU write to a GPU-modified page lifts its
    write tracking and leaves it GPU-modified. *)
Lemma C4_counterexample :
  ~ (forall st p, reachable 0 st -> 0 <= p < NUM_REGION_PAGES ->
       gpu_implies_tracking (region st) p).
Proof.
  intros H.
  destruct (H gpu_then_cpu_marked 0 gpu_then_cpu_marked_reachable ltac:(consts; lia)) as [H1 _].
  vm_compute in H1. destruct (H1 eq_refl) as [H2 _]. discriminate.
Qed.

(** C4, amended. In every reachable state a page is read tracked exactly
    when it is GPU-modified, and [ChangeRegionState<GPU, d>] leaves every
    page of its range write tracked, with the GPU-modified bit and read
    tracking equal to [d]. *)
Theorem C4_gpu_modified_iff_read_tracked c st p :
  reachable c st -> 0 <= p < NUM_REGION_PAGES ->
  read_tracked (region st) p = modified GPU (region st) p
  /\ (forall d addr size, exists st',
        ChangeRegionState GPU d addr size st = Ok st'
        /\ (in_query (wrap64 (addr - cpu_addr (region st))) size p = true ->
            modified GPU (region st') p = d
            /\ read_tracked (region st') p = d
            /\ write_tracked (region st') p = true)).
Proof.
  intros Hr Hp. pose proof (reachable_wf _ _ Hr) as Hwf.
  unfold modified, write_tracked, read_tracked. cbn [Span]. split.
  - refine (reachable_bits (fun c g w r => negb r = g) _ _ c st p Hr Hp).
    + reflexivity.
    + intros [type d ? ?|type cl ? ?] c0 g w r inm;
        [destruct type, d|destruct type, cl]; destruct g, r, inm; cbn; auto.
  - intros d addr size.
    destruct (ChangeRegionState_region GPU d addr size st Hwf) as (st' & Heq & Hreg).
    exists st'. split; [exact Heq|]. intros Hq. rewrite Hreg.
    destruct (region_after_pages (change_effect GPU d)
                (wrap64 (addr - cpu_addr (region st))) size (region st) p Hwf)
      as (_ & -> & -> & ->).
    rewrite Hq. destruct d; cbn; destruct (page_bit _ _), (page_bit _ _), (page_bit _ _); auto.
Qed.

Lemma C4_witness :
  read_tracked (region gpu_then_cpu_marked) 0 = modified GPU (region gpu_then_cpu_marked) 0
  /\ (forall d addr size, exists st',
        ChangeRegionState GPU d addr size gpu_then_cpu_marked = Ok st'
        /\ (in_query (wrap64 (addr - cpu_addr (region gpu_then_cpu_marked))) size 0 = true ->
            modified GPU (region st') 0 = d
            /\ read_tracked (region st') 0 = d
            /\ write_tracked (region st') 0 = true)).
Proof.
  apply (C4_gpu_modified_iff_read_tracked 0 gpu_then_cpu_marked 0).
  - exact gpu_then_cpu_marked_reachable.
  - vm_compute. intuition discriminate.
Defined.

(** ** The notifications of [ChangeRegionState] *)

Lemma change_events_ext type d rm rm' i m :
  cpu_addr rm = cpu_addr rm' ->
  word_at (write rm) i = word_at (write rm') i ->
  word_at (read rm) i = word_at (read rm') i ->
  change_events type d rm i m = change_events type d rm' i m.
Proof. intros Hc Hw Hr. unfold change_events. rewrite Hc, Hw, Hr. reflexivity. Qed.

Lemma change_trace type d (g : Z -> Z) :
  forall ixs st rm0,
    NoDup ixs -> Forall (fun i => 0 <= i) ixs ->
    cpu_addr rm0 = cpu_addr (region st) ->
    (forall j, j ∈ ixs ->
       word_at (write rm0) j = word_at (write (region st)) j
       /\ word_at (read rm0) j = word_at (read (region st)) j) ->
    trace (fold_left (change_word type d) (map (fun i => (i, g i)) ixs) st)
    = trace st ++ flat_map (fun i => change_events type d rm0 i (g i)) ixs.
Proof.
  induction ixs as [|i ixs IH]; intros st rm0 Hnd Hpos Hc Hw.
  - cbn. rewrite app_nil_r. reflexivity.
  - cbn [map fold_left flat_map].
    apply NoDup_cons in Hnd as [Hni Hnd]. apply Forall_cons in Hpos as [Hi Hpos].
    rewrite (IH _ rm0 Hnd Hpos).
    + unfold change_word at 1. cbn [trace fst snd]. rewrite <- app_assoc. do 2 f_equal.
      destruct (Hw i ltac:(apply elem_of_cons; auto)) as [Hw1 Hw2].
      apply change_events_ext; auto.
    + exact Hc.
    + intros j Hj. unfold change_word. cbn [region fst snd apply_effect write read].
      assert (i <> j) as Hne by (intros ->; contradiction).
      rewrite !word_at_upd_other by assumption.
      apply Hw. apply elem_of_cons. auto.
Qed.

Lemma query_indices_nonneg offset size : Forall (fun i => 0 <= i) (query_indices offset size).
Proof.
  apply Forall_forall. intros i Hi. apply query_indices_bounds in Hi. lia.
Qed.

(** The trace [ChangeRegionState] leaves: word after word of the query,
    the notifications of that word, computed on the region before the call. *)
Lemma ChangeRegionState_trace type d addr size st :
  well_formed (region st) ->
  exists st',
    ChangeRegionState type d addr size st = Ok st'
    /\ region st' = region_after (change_effect type d)
                      (wrap64 (addr - cpu_addr (region st))) size (region st)
    /\ trace st' = trace st
         ++ flat_map (fun i => change_events type d (region st) i
                                 (query_mask (wrap64 (addr - cpu_addr (region st))) size i))
              (query_indices (wrap64 (addr - cpu_addr (region st))) size).
Proof.
  intros Hwf. destruct (ChangeRegionState_region type d addr size st Hwf) as (st' & Heq & Hreg).
  exists st'. split; [exact Heq|]. split; [exact Hreg|].
  destruct (ChangeRegionState_ok type d addr size st Hwf) as [Heq' _].
  rewrite Heq in Heq'. inversion Heq' as [Hst]. rewrite query_words_map.
  apply change_trace; auto using query_indices_NoDup, query_indices_nonneg.
Qed.

Lemma flat_map_nil {A B : Type} (f : A -> list B) (l : list A) :
  (forall x, x ∈ l -> f x = []) -> flat_map f l = [].
Proof.
  induction l as [|x l IH]; intros H; [reflexivity|].
  cbn [flat_map]. rewrite H by (apply elem_of_cons; auto). cbn [app].
  apply IH. intros y Hy. apply H. apply elem_of_cons. auto.
Qed.

Lemma bit_runs_zero : bit_runs 0 = [].
Proof. unfold bit_runs. apply bit_runs_loop_zero. Qed.

Lemma changed_bits_covered w m :
  0 <= m < 2 ^ 64 -> changed_bits false (Z.lor w m) m = 0.
Proof.
  intros Hm. unfold changed_bits. apply Z.bits_inj'. intros b Hb.
  rewrite Z.land_spec, not64_bit, Z.lor_spec, Z.bits_0.
  destruct (Z.ltb_spec b 64).
  - destruct (Z.testbit w b), (Z.testbit m b), (0 <=? b); reflexivity.
  - rewrite (bound_bits m 64 b) by lia. apply andb_false_r.
Qed.

(** ** Two arrays with the same words are the same array *)

Lemma array_ext (a b : WordsArray) :
  length a = length b -> (forall i, 0 <= i -> word_at a i = word_at b i) -> a = b.
Proof.
  intros Hlen Hw. apply list_eq. intros n.
  destruct (decide (n < length a)%nat) as [Hlt|Hge].
  - destruct (lookup_lt_is_Some_2 a n Hlt) as [x Hx].
    destruct (lookup_lt_is_Some_2 b n ltac:(lia)) as [y Hy].
    specialize (Hw (Z.of_nat n) ltac:(lia)). unfold word_at in Hw.
    destruct (Z.leb_spec 0 (Z.of_nat n)); [|lia].
    rewrite Nat2Z.id, Hx, Hy in Hw. cbn in Hw. congruence.
  - rewrite !(proj2 (lookup_ge_None _ _)) by lia. reflexivity.
Qed.

Lemma array_after_keep g ixs (a : WordsArray) :
  Forall (fun i => 0 <= i < Z.of_nat (length a)) ixs -> array_after Keep g ixs a = a.
Proof.
  unfold array_after. induction ixs as [|i ixs IH]; intros Hb; [reflexivity|].
  cbn [fold_left]. apply Forall_cons in Hb as [Hi Hb].
  rewrite upd_array_keep by exact Hi. apply IH. exact Hb.
Qed.

Lemma array_after_set_twice g ixs (a : WordsArray) :
  NoDup ixs -> Forall (fun i => 0 <= i < Z.of_nat (length a)) ixs ->
  array_after SetBits g ixs (array_after SetBits g ixs a) = array_after SetBits g ixs a.
Proof.
  intros Hnd Hb. apply array_ext; [rewrite !array_after_length; reflexivity|].
  intros j Hj. destruct (decide (j ∈ ixs)) as [Hin|Hout].
  - rewrite (array_after_in SetBits g ixs (array_after SetBits g ixs a));
      [|exact Hnd|rewrite array_after_length; exact Hb|exact Hin].
    rewrite array_after_in by assumption. cbn [upd_word].
    rewrite <- Z.lor_assoc, Z.lor_diag. reflexivity.
  - rewrite array_after_out; [reflexivity| |exact Hout].
    eapply Forall_impl; [exact Hb|]. cbn beta. intros; lia.
Qed.

(** ** Marking CPU-modified twice (C7) *)

(** C7. [ChangeRegionState<CPU, true>] on a range, called again on the
    same range, leaves the arrays as the first call left them and sends
    nothing to the tracker. *)
Theorem C7_marking_cpu_dirty_is_idempotent st addr size :
  well_formed (region st) ->
  exists st1,
    ChangeRegionState CPU true addr size st = Ok st1
    /\ ChangeRegionState CPU true addr size st1 = Ok st1.
Proof.
  intros Hwf.
  destruct (ChangeRegionState_trace CPU true addr size st Hwf) as (st1 & Heq1 & Hreg1 & Htr1).
  exists st1. split; [exact Heq1|].
  assert (well_formed (region st1)) as Hwf1 by (rewrite Hreg1; apply region_after_wf; exact Hwf).
  destruct (ChangeRegionState_trace CPU true addr size st1 Hwf1) as (st2 & Heq2 & Hreg2 & Htr2).
  rewrite Heq2. f_equal.
  assert (cpu_addr (region st1) = cpu_addr (region st)) as Hc by (rewrite Hreg1; reflexivity).
  rewrite Hc in Hreg2, Htr2.
  set (off := wrap64 (addr - cpu_addr (region st))) in *.
  destruct Hwf as (Hlc & Hlg & Hlw & Hlr).
  assert (forall a : WordsArray, length a = Z.to_nat NUM_REGION_WORDS ->
            Forall (fun i => 0 <= i < Z.of_nat (length a)) (query_indices off size)) as Hb.
  { intros a Ha. apply Forall_forall. intros i Hi. apply query_indices_bounds in Hi.
    rewrite Ha. consts. lia. }
  assert (region st2 = region st1) as Hreg.
  { rewrite Hreg2, Hreg1. unfold region_after. cbn [change_effect e_cpu e_gpu e_write e_read
      cpu gpu write read cpu_addr].
    rewrite !array_after_set_twice by auto using query_indices_NoDup.
    rewrite !array_after_keep by (apply Hb; rewrite ?array_after_length; assumption).
    reflexivity. }
  assert (trace st2 = trace st1) as Htr.
  { rewrite Htr2. rewrite flat_map_nil; [apply app_nil_r|].
    intros i Hi. unfold change_events, protection_events. cbn [negb].
    rewrite Hreg1. unfold region_after. cbn [change_effect e_write write].
    rewrite array_after_in by auto using query_indices_NoDup. cbn [upd_word].
    rewrite changed_bits_covered by apply query_mask_range.
    rewrite bit_runs_zero. reflexivity. }
  destruct st2, st1. cbn [region trace] in Hreg, Htr. congruence.
Qed.

Lemma C7_witness :
  exists st1,
    ChangeRegionState CPU true 8192 12288 gpu_marked = Ok st1
    /\ ChangeRegionState CPU true 8192 12288 st1 = Ok st1.
Proof.
  apply (C7_marking_cpu_dirty_is_idempotent gpu_marked 8192 12288).
  vm_compute. auto.
Defined.

(** ** Pages outside the range, and the clamped bounds *)

Lemma region_after_outside e offset size rm p :
  well_formed rm -> in_query offset size p = false ->
  same_page rm (region_after e offset size rm) p.
Proof.
  intros Hwf Hq. unfold same_page.
  destruct (region_after_pages e offset size rm p Hwf) as (-> & -> & -> & ->).
  rewrite Hq, !upd_bit_false. auto.
Qed.

(** For a signed offset and a size whose sum fits 63 bits, the clamped
    bounds are the range cut at zero. *)
Lemma range_clamps_signed o size :
  - 2 ^ 63 <= o < 2 ^ 63 -> 0 <= size -> o + size < 2 ^ 63 ->
  range_start (wrap64 o) = Z.max o 0
  /\ range_end (wrap64 o) size = Z.max (o + size) 0.
Proof.
  intros Ho Hs Hb. unfold range_start, range_end, to_s64.
  rewrite !(wrap64_small (wrap64 _)) by apply wrap64_range.
  assert (wrap64 (wrap64 o + size) = wrap64 (o + size)) as ->.
  { unfold wrap64. rewrite Zplus_mod_idemp_l. reflexivity. }
  assert (forall x, - 2 ^ 63 <= x < 2 ^ 63 ->
            (if wrap64 x <? 2 ^ 63 then wrap64 x else wrap64 x - 2 ^ 64) = x) as Hs64.
  { intros x Hx. unfold wrap64. destruct (Z.lt_ge_cases x 0).
    - replace (x mod 2 ^ 64) with (x + 2 ^ 64)
        by (apply Z.mod_unique with (q := -1); lia).
      destruct (Z.ltb_spec (x + 2 ^ 64) (2 ^ 63)); lia.
    - rewrite Z.mod_small by lia. destruct (Z.ltb_spec x (2 ^ 63)); lia. }
  rewrite !Hs64 by lia. auto.
Qed.

(** ** One notification per run (C6) *)

(** C6 fails as stated: on a fresh region, write-protecting the eight
    pages 60..67 changes one run of eight pages, which lies in two words,
    and the tracker gets two calls of four pages each. *)
Lemma C6_counterexample :
  ~ one_call_per_run CPU false 245760 32768 (mkState (RegionManager_new 0) []).
Proof.
  intros (st' & new & Heq & Htr & H).
  vm_compute in Heq. inversion Heq; subst st'; clear Heq.
  cbn [trace app] in Htr. subst new.
  assert (maximal_run (write_watch_changes CPU false (RegionManager_new 0)
                         (wrap64 (245760 - 0)) 32768) 60 8) as Hmax.
  { split; [lia|]. split; [|split; vm_compute; reflexivity].
    intros p Hp.
    assert (p = 60 \/ p = 61 \/ p = 62 \/ p = 63 \/ p = 64 \/ p = 65 \/ p = 66 \/ p = 67)
      as Hcases by lia.
    destruct Hcases as [->|[->|[->|[->|[->|[->|[->| ->]]]]]]]; vm_compute; reflexivity. }
  specialize (H 60 8 Hmax). vm_compute in H.
  apply elem_of_cons in H as [H|H]; [discriminate H|].
  apply elem_of_cons in H as [H|H]; [discriminate H|].
  apply elem_of_nil in H. exact H.
Qed.

Lemma maximal_run_ext (P Q : Z -> bool) s n :
  (forall p, P p = Q p) -> maximal_run P s n <-> maximal_run Q s n.
Proof.
  intros H. unfold maximal_run. rewrite !H.
  split; intros (H1 & H2 & H3 & H4); (split; [exact H1|]; split; [|auto]);
    intros p Hp; [rewrite <- H|rewrite H]; auto.
Qed.

Lemma changed_bits_bit add (a : WordsArray) offset size i b :
  Z.testbit (changed_bits add (word_at a i) (query_mask offset size i)) b
  = needs_change add a offset size i b.
Proof.
  unfold changed_bits, needs_change, query_mask. consts.
  rewrite Z.land_spec, bits_of_bit.
  destruct (Z.leb_spec 0 b); cbn [andb]; [|apply andb_false_r].
  destruct (Z.ltb_spec b 64); cbn [andb]; [|apply andb_false_r].
  rewrite page_bit_split by lia.
  destruct add.
  - destruct (Z.testbit _ _), (in_query _ _ _); reflexivity.
  - rewrite not64_bit.
    destruct (Z.leb_spec 0 b); [|lia]. destruct (Z.ltb_spec b 64); [|lia]. cbn [andb].
    destruct (Z.testbit _ _), (in_query _ _ _); reflexivity.
Qed.

(** C6, amended. [ChangeRegionState] notifies word by word, in ascending
    order of the words of the range: for each word and each protection it
    updates, one [UpdatePageWatchers] call per maximal run of changed
    pages inside that word, in ascending order. A run that continues into
    the next word is notified once for each word it lies in. *)
Theorem C6_one_call_per_run_within_a_word type is_dirty addr size st :
  well_formed (region st) ->
  exists st',
    ChangeRegionState type is_dirty addr size st = Ok st'
    /\ trace st' = trace st
         ++ flat_map (fun i => change_events type is_dirty (region st) i
                                 (query_mask (wrap64 (addr - cpu_addr (region st))) size i))
              (query_indices (wrap64 (addr - cpu_addr (region st))) size)
    /\ forall i add is_read (a : WordsArray),
         protection_events add is_read (cpu_addr (region st)) i (word_at a i)
           (query_mask (wrap64 (addr - cpu_addr (region st))) size i)
         = map (watch_of add is_read (cpu_addr (region st)) i)
             (bit_runs (changed_bits add (word_at a i)
                          (query_mask (wrap64 (addr - cpu_addr (region st))) size i)))
         /\ StronglySorted apart
              (bit_runs (changed_bits add (word_at a i)
                           (query_mask (wrap64 (addr - cpu_addr (region st))) size i)))
         /\ forall o n,
              (o, n) ∈ bit_runs (changed_bits add (word_at a i)
                                   (query_mask (wrap64 (addr - cpu_addr (region st))) size i))
              <-> maximal_run (needs_change add a (wrap64 (addr - cpu_addr (region st))) size i) o n.
Proof.
  intros Hwf.
  destruct (ChangeRegionState_trace type is_dirty addr size st Hwf) as (st' & Heq & _ & Htr).
  exists st'. split; [exact Heq|]. split; [exact Htr|].
  intros i add is_read a. split; [reflexivity|].
  set (m := query_mask (wrap64 (addr - cpu_addr (region st))) size i).
  pose proof (changed_bits_range add (word_at a i) m (query_mask_range _ _ _)) as Hr.
  destruct (bit_runs_spec _ Hr) as (_ & HS & _).
  split; [exact HS|]. intros o n.
  rewrite (bit_runs_maximal _ Hr). apply maximal_run_ext.
  intros p. apply changed_bits_bit.
Qed.

Lemma C6_witness :
  exists st',
    ChangeRegionState CPU false 245760 32768 (mkState (RegionManager_new 0) []) = Ok st'
    /\ trace st' =
       [Watch 1 false 245760 16384; Watch 1 false 262144 16384].
Proof.
  destruct (C6_one_call_per_run_within_a_word CPU false 245760 32768
              (mkState (RegionManager_new 0) []))
    as (st' & Heq & Htr & _).
  - vm_compute. auto.
  - exists st'. split; [exact Heq|]. rewrite Htr. vm_compute. reflexivity.
Defined.

(** ** Joining the runs of consecutive words *)

Lemma merge_step_spec macc r :
  StronglySorted (fun a b => apart b a) macc -> Forall good macc -> good r ->
  (forall x, x ∈ macc -> before x r) ->
  StronglySorted (fun a b => apart b a) (merge_step macc r)
  /\ Forall good (merge_step macc r)
  /\ (forall p, covers (merge_step macc r) p <-> covers macc p \/ fst r <= p < fst r + snd r)
  /\ (forall r', before r r' -> forall x, x ∈ merge_step macc r -> before x r').
Proof.
  intros HS HG Hr Hb. destruct r as [s' n]. unfold good, before, apart in *. cbn [fst snd] in *.
  destruct macc as [|[s l] rest]; cbn [merge_step fst snd].
  - split; [repeat constructor|]. split; [repeat constructor; cbn; lia|]. split.
    + intros p. rewrite covers_cons. cbn [fst snd]. tauto.
    + intros r' Hr' x Hx. apply list_elem_of_singleton in Hx as ->. cbn. lia.
  - apply StronglySorted_cons in HS as [HF HS]. apply Forall_cons in HG as [Hsl HG].
    cbn [fst snd] in Hsl. rewrite Forall_forall in HF.
    pose proof (Hb (s, l) ltac:(apply elem_of_cons; auto)) as Hhead. cbn [fst snd] in Hhead.
    destruct (Z.eqb_spec (s + l) s') as [E|NE].
    + split; [|split; [|split]].
      * apply StronglySorted_cons. split; [|exact HS].
        apply Forall_forall. intros x Hx. specialize (HF x Hx). cbn [fst snd] in *. lia.
      * apply Forall_cons. split; [cbn; lia|exact HG].
      * intros p. rewrite !covers_cons. cbn [fst snd]. intuition lia.
      * intros r' Hr' x Hx. apply elem_of_cons in Hx as [->|Hx].
        -- cbn. lia.
        -- specialize (Hb x ltac:(apply elem_of_cons; auto)). lia.
    + split; [|split; [|split]].
      * apply StronglySorted_cons. split.
        -- apply Forall_cons. split; [cbn; lia|].
           apply Forall_forall. intros x Hx. specialize (HF x Hx). cbn [fst snd] in *. lia.
        -- apply StronglySorted_cons. split; [apply Forall_forall; exact HF|exact HS].
      * apply Forall_cons. split; [cbn; lia|]. apply Forall_cons. split; [cbn; lia|exact HG].
      * intros p. rewrite !covers_cons. cbn [fst snd]. tauto.
      * intros r' Hr' x Hx. apply elem_of_cons in Hx as [->|Hx]; [cbn; lia|].
        specialize (Hb x Hx). lia.
Qed.

Lemma merge_fold_spec R :
  forall macc,
    StronglySorted (fun a b => apart b a) macc -> Forall good macc ->
    Forall good R -> StronglySorted before R ->
    (forall x r, x ∈ macc -> r ∈ R -> before x r) ->
    StronglySorted (fun a b => apart b a) (fold_left merge_step R macc)
    /\ Forall good (fold_left merge_step R macc)
    /\ (forall p, covers (fold_left merge_step R macc) p <-> covers macc p \/ covers R p).
Proof.
  induction R as [|r R IH]; intros macc HS HG HGR HSR Hb.
  - cbn [fold_left]. split; [exact HS|]. split; [exact HG|].
    intros p. split; [auto|]. intros [H|H]; [exact H|destruct (covers_nil _ H)].
  - cbn [fold_left]. apply Forall_cons in HGR as [Hr HGR].
    apply StronglySorted_cons in HSR as [HFR HSR]. rewrite Forall_forall in HFR.
    destruct (merge_step_spec macc r HS HG Hr) as (HS' & HG' & Hcov & Hnext).
    { intros x Hx. apply Hb; [exact Hx|apply elem_of_cons; auto]. }
    destruct (IH (merge_step macc r) HS' HG' HGR HSR) as (HS2 & HG2 & Hcov2).
    { intros x r' Hx Hr'. apply (Hnext r'); [apply HFR; exact Hr'|exact Hx]. }
    split; [exact HS2|]. split; [exact HG2|].
    intros p. rewrite Hcov2, Hcov, covers_cons. tauto.
Qed.

Lemma StronglySorted_reverse {A : Type} (R : A -> A -> Prop) (l : list A) :
  StronglySorted (fun a b => R b a) l -> StronglySorted R (reverse l).
Proof.
  induction l as [|x l IH]; intros HS; [constructor|].
  apply StronglySorted_cons in HS as [HF HS]. rewrite reverse_cons.
  apply StronglySorted_app. split; [|split; [apply IH; exact HS|repeat constructor]].
  intros x1 x2 H1 H2. rewrite elem_of_reverse in H1.
  apply list_elem_of_singleton in H2 as ->.
  rewrite Forall_forall in HF. apply HF. exact H1.
Qed.

Lemma covers_reverse L p : covers (reverse L) p <-> covers L p.
Proof.
  unfold covers. split; intros (r & Hin & Hp); exists r; split; auto.
  - rewrite elem_of_reverse in Hin. exact Hin.
  - rewrite elem_of_reverse. exact Hin.
Qed.

Lemma StronglySorted_flat_map {A B : Type} (Q : A -> A -> Prop) (R : B -> B -> Prop)
    (f : A -> list B) (l : list A) :
  StronglySorted Q l ->
  (forall x, x ∈ l -> StronglySorted R (f x)) ->
  (forall x y a b, x ∈ l -> y ∈ l -> Q x y -> a ∈ f x -> b ∈ f y -> R a b) ->
  StronglySorted R (flat_map f l).
Proof.
  intros HS Hin Hcross. induction HS as [|x l HS IH HF]; [constructor|].
  cbn [flat_map]. apply StronglySorted_app. split; [|split].
  - intros a b Ha Hb. apply list_elem_of_In, in_flat_map in Hb as (y & Hy & Hb).
    rewrite Forall_forall in HF. apply list_elem_of_In in Hy.
    apply (Hcross x y); [apply elem_of_cons; auto|apply elem_of_cons; auto
                        |apply HF; exact Hy|exact Ha|].
    apply list_elem_of_In. exact Hb.
  - apply Hin. apply elem_of_cons. auto.
  - apply IH.
    + intros y Hy. apply Hin. apply elem_of_cons. auto.
    + intros y z a b Hy Hz. apply Hcross; apply elem_of_cons; auto.
Qed.

Lemma seqZ_sorted m n : StronglySorted Z.lt (seqZ m n).
Proof.
  destruct (Z.le_gt_cases n 0) as [Hn|Hn]; [rewrite seqZ_nil by lia; constructor|].
  rewrite <- (Z2Nat.id n) by lia. generalize (Z.to_nat n). clear. intros k. revert m.
  induction k as [|k IH]; intros m; [rewrite seqZ_nil by lia; constructor|].
  rewrite seqZ_cons by lia. apply StronglySorted_cons. split.
  - apply Forall_forall. intros x Hx. apply elem_of_seqZ in Hx. lia.
  - replace (Z.pred (Z.of_nat (S k))) with (Z.of_nat k) by lia. apply IH.
Qed.

Lemma query_indices_sorted offset size : StronglySorted Z.lt (query_indices offset size).
Proof.
  unfold query_indices. destruct (in_query offset size (first_page offset)).
  - apply seqZ_sorted.
  - constructor.
Qed.

(** ** The walk of [ForEachModifiedRange] against the joined runs *)

Lemma calls_app tr1 tr2 : calls (tr1 ++ tr2) = calls tr1 ++ calls tr2.
Proof. unfold calls. apply flat_map_app. Qed.

Lemma calls_cleared_snoc type c new a len seen s n :
  calls_cleared type c new -> good (s, n) -> (a, len) = call_of c (s, n) ->
  (forall p, s <= p < s + n -> cleared_in type seen p) ->
  calls_cleared type c (new ++ [Call a len seen]).
Proof.
  intros Hc Hg Heq Hp a' len' seen' Hin. apply elem_of_app in Hin as [Hin|Hin].
  - apply (Hc _ _ _ Hin).
  - apply list_elem_of_singleton in Hin. inversion Hin; subst. eauto.
Qed.

Lemma page_rel type clear st0 w macc base o n :
  walk_rel type clear st0 w macc -> 0 <= base -> good (base + o, n) ->
  (clear = true ->
   forall p, base + o <= p < base + o + n -> cleared_in type (region (walk_state w)) p) ->
  walk_rel type clear st0 (ForEachModifiedRange_page base o n w)
    (merge_step macc (base + o, n))
  /\ region (walk_state (ForEachModifiedRange_page base o n w)) = region (walk_state w).
Proof.
  intros (Hc & HG & Hm & (new & Htr & Hnew)) Hbase Hr Hclr.
  destruct w as [st pend po pp]. cbn [walk_state pending pending_offset pending_pointer] in *.
  unfold good in Hr. cbn [fst snd] in Hr. consts.
  unfold ForEachModifiedRange_page, release.
  cbn [walk_state pending pending_offset pending_pointer].
  rewrite !(wrap64_small (base + o)) by lia.
  destruct macc as [|[s l] rest].
  - destruct Hm as [-> Hcalls]. cbn [negb merge_step].
    rewrite (wrap64_small (base + o + n)) by lia.
    split; [|reflexivity]. split; [exact Hc|]. split.
    { repeat constructor; cbn; consts; lia. }
    cbn [walk_state pending pending_offset pending_pointer]. split.
    + split; [reflexivity|]. split; [reflexivity|]. split; [reflexivity|].
      split; [rewrite reverse_nil, app_nil_r; exact Hcalls|exact Hclr].
    + exists new. auto.
  - destruct Hm as (-> & -> & -> & Hcalls & Hhead). cbn [negb merge_step fst snd].
    apply Forall_cons in HG as [Hsl HG]. pose proof Hsl as Hgood.
    unfold good in Hsl. cbn [fst snd] in Hsl. consts.
    destruct (Z.eqb_spec (s + l) (base + o)) as [E|NE].
    + rewrite (wrap64_small (s + l + n)) by lia.
      split; [|reflexivity]. split; [exact Hc|]. split.
      { apply Forall_cons. split; [unfold good; cbn; consts; lia|exact HG]. }
      cbn [walk_state pending pending_offset pending_pointer]. split.
      * split; [reflexivity|]. split; [reflexivity|]. split; [lia|].
        split; [exact Hcalls|]. intros Hcl p Hp.
        destruct (Z.lt_ge_cases p (s + l)); [apply Hhead; [exact Hcl|lia]|].
        apply Hclr; [exact Hcl|lia].
      * exists new. auto.
    + rewrite (wrap64_small (base + o + n)) by lia.
      split; [|reflexivity]. split; [exact Hc|]. split.
      { apply Forall_cons. split; [unfold good; cbn; consts; lia|].
        apply Forall_cons. split; [unfold good; cbn; consts; lia|exact HG]. }
      cbn [walk_state pending pending_offset pending_pointer region trace].
      assert ((wrap64 (cpu_addr (region st) + wrap64 (s * 4096)),
               wrap64 (wrap64 (s + l - s) * 4096))
              = call_of (cpu_addr (region st0)) (s, l)) as Hcall.
      { unfold call_of. cbn [fst snd]. consts. rewrite Hc.
        replace (s + l - s) with l by lia.
        rewrite (wrap64_small (s * 4096)), (wrap64_small l), (wrap64_small (l * 4096)) by lia.
        reflexivity. }
      split.
      * split; [reflexivity|]. split; [reflexivity|]. split; [reflexivity|].
        split; [|exact Hclr].
        unfold emit. rewrite calls_app, Hcalls, reverse_cons, map_app, <- app_assoc.
        cbn [calls flat_map map app]. rewrite Hcall. reflexivity.
      * exists (new ++ [Call (wrap64 (cpu_addr (region st) + wrap64 (s * 4096)))
                          (wrap64 (wrap64 (s + l - s) * 4096)) (region st)]).
        split; [unfold emit; rewrite Htr, app_assoc; reflexivity|].
        intros Hcl. apply (calls_cleared_snoc type _ new _ _ _ s l); auto.
Qed.

Lemma feed_rel type clear st0 base rm L :
  forall w macc,
    walk_rel type clear st0 w macc -> 0 <= base -> region (walk_state w) = rm ->
    Forall (fun r => good (shift base r)
                     /\ (clear = true ->
                         forall p, base + fst r <= p < base + fst r + snd r ->
                                   cleared_in type rm p)) L ->
    walk_rel type clear st0 (feed (ForEachModifiedRange_page base) L w)
      (fold_left merge_step (map (shift base) L) macc).
Proof.
  unfold feed. induction L as [|[o n] L IH]; intros w macc Hrel Hbase Hrm HL; [exact Hrel|].
  cbn [fold_left map fst snd]. apply Forall_cons in HL as [[Hg Hclr] HL].
  cbn [fst snd shift] in *.
  destruct (page_rel type clear st0 w macc base o n Hrel Hbase Hg) as [Hrel' Hreg].
  { rewrite Hrm. exact Hclr. }
  apply IH; [exact Hrel'|exact Hbase|congruence|exact HL].
Qed.

Lemma page_bit_upd u (a : WordsArray) i m p :
  0 <= i < Z.of_nat (length a) ->
  page_bit (upd_array u a i m) p
  = if p / 64 =? i then upd_bit u (page_bit a p) (Z.testbit m (p mod 64)) else page_bit a p.
Proof.
  intros Hi. unfold page_bit. consts. destruct (Z.eqb_spec (p / 64) i) as [->|Hne].
  - rewrite word_at_upd_same by exact Hi. apply upd_word_bit. apply Z.mod_pos_bound. lia.
  - rewrite word_at_upd_other by lia. reflexivity.
Qed.

Lemma cleared_in_effect type rm i m p :
  well_formed rm -> 0 <= i < NUM_REGION_WORDS ->
  cleared_in type rm p \/ (p / 64 = i /\ Z.testbit m (p mod 64) = true) ->
  cleared_in type (apply_effect (walk_effect type true) rm i m) p.
Proof.
  intros (Hc & Hg & Hw & Hr) Hi. consts. change (Z.to_nat 16) with 16%nat in *.
  unfold cleared_in, modified, write_tracked, read_tracked.
  destruct type;
    cbn [Span apply_effect walk_effect e_cpu e_gpu e_write e_read cpu gpu write read];
    rewrite !page_bit_upd by lia.
  - destruct (page_bit (cpu rm) p), (page_bit (write rm) p), (Z.testbit m (p mod 64)),
      (Z.eqb_spec (p / 64) i); cbn; intros [[H1 H2]|[H1 H2]];
      try discriminate; try contradiction; auto.
  - destruct (page_bit (gpu rm) p), (page_bit (read rm) p), (Z.testbit m (p mod 64)),
      (Z.eqb_spec (p / 64) i); cbn; intros [[H1 H2]|[H1 H2]];
      try discriminate; try contradiction; auto.
Qed.

Lemma calls_walk_events type clear rm i m : calls (walk_events type clear rm i m) = [].
Proof.
  unfold walk_events, protection_events.
  destruct clear, type; try reflexivity;
    generalize (bit_runs (changed_bits true (word_at (write rm) i) m)),
               (bit_runs (changed_bits false (word_at (read rm) i) m));
    intros l1 l2; [induction l1|induction l2]; cbn; auto.
Qed.

Lemma walk_word_rel type clear st0 w macc i m :
  walk_rel type clear st0 w macc -> well_formed (region (walk_state w)) ->
  0 <= i < NUM_REGION_WORDS -> 0 <= m < 2 ^ 64 ->
  walk_rel type clear st0 (walk_word type clear w (i, m))
    (fold_left merge_step (word_runs type (region (walk_state w)) i m) macc).
Proof.
  intros (Hc & HG & Hm & (new & Htr & Hnew)) Hwf Hi Hmr.
  unfold walk_word, word_runs. cbn [fst snd]. consts.
  rewrite (wrap64_small (i * 64)) by lia.
  set (rm := region (walk_state w)) in *.
  set (rm' := apply_effect (walk_effect type clear) rm i m).
  apply (feed_rel type clear st0 (i * 64) rm'); [|lia|reflexivity|].
  - split; [exact Hc|]. split; [exact HG|].
    cbn [walk_state pending pending_offset pending_pointer region trace]. split.
    + destruct macc as [|[s l] rest].
      * destruct Hm as [Hp Hcalls]. split; [exact Hp|].
        rewrite calls_app, calls_walk_events, app_nil_r. exact Hcalls.
      * destruct Hm as (Hp & Hpo & Hpp & Hcalls & Hhead).
        split; [exact Hp|]. split; [exact Hpo|]. split; [exact Hpp|]. split.
        -- rewrite calls_app, calls_walk_events, app_nil_r. exact Hcalls.
        -- intros Hcl p Hpg. subst clear. apply cleared_in_effect; auto.
    + exists (new ++ walk_events type clear rm i m). split.
      * rewrite Htr, app_assoc. reflexivity.
      * intros Hcl a len seen Hin. apply elem_of_app in Hin as [Hin|Hin].
        -- apply (Hnew Hcl _ _ _ Hin).
        -- exfalso. pose proof (calls_walk_events type clear rm i m) as Hno.
           apply list_elem_of_In in Hin. unfold calls in Hno.
           assert (In (a, len) (flat_map (fun e => match e with
                                                   | Call a s _ => [(a, s)]
                                                   | Watch _ _ _ _ => []
                                                   end) (walk_events type clear rm i m))) as Hc'.
           { apply in_flat_map. exists (Call a len seen). split; [exact Hin|left; reflexivity]. }
           rewrite Hno in Hc'. destruct Hc'.
  - pose proof (land_mask_range (word_at (Span type rm) i) m Hmr) as Hr.
    destruct (bit_runs_spec _ Hr) as (HF & _ & Hcov).
    apply Forall_forall. intros [o n] Hin. rewrite Forall_forall in HF.
    pose proof (HF _ Hin) as Hb. cbn [fst snd] in Hb. cbn [fst snd shift]. split.
    + unfold good, shift. cbn [fst snd]. consts. lia.
    + intros Hcl p Hp. subst clear. unfold rm'. apply cleared_in_effect; auto. right.
      assert (p / 64 = i /\ p mod 64 = p - i * 64) as [Hd Hmod]
        by (Z.div_mod_to_equations; lia).
      split; [exact Hd|]. rewrite Hmod.
      assert (Z.testbit (Z.land (word_at (Span type rm) i) m) (p - i * 64) = true) as Hbit.
      { apply Hcov. exists (o, n). cbn [fst snd]. split; [exact Hin|lia]. }
      rewrite Z.land_spec in Hbit. apply andb_true_iff in Hbit. tauto.
Qed.

Lemma span_effect_other type clear rm i m j :
  0 <= i -> i <> j ->
  word_at (Span type (apply_effect (walk_effect type clear) rm i m)) j
  = word_at (Span type rm) j.
Proof.
  intros Hi Hne. destruct type; cbn [Span apply_effect cpu gpu];
    apply word_at_upd_other; assumption.
Qed.

Lemma fold_left_cons {A B : Type} (f : A -> B -> A) (x : B) (l : list B) (a : A) :
  fold_left f (x :: l) a = fold_left f l (f a x).
Proof. reflexivity. Qed.

Lemma flat_map_cons {A B : Type} (f : A -> list B) (x : A) (l : list A) :
  flat_map f (x :: l) = f x ++ flat_map f l.
Proof. reflexivity. Qed.

Lemma walk_fold_rel type clear st0 (g : Z -> Z) rm0 :
  (forall i, 0 <= g i < 2 ^ 64) ->
  forall ixs w macc,
    NoDup ixs -> Forall (fun i => 0 <= i < NUM_REGION_WORDS) ixs ->
    walk_rel type clear st0 w macc -> well_formed (region (walk_state w)) ->
    (forall j, j ∈ ixs ->
       word_at (Span type rm0) j = word_at (Span type (region (walk_state w))) j) ->
    walk_rel type clear st0
      (fold_left (walk_word type clear) (map (fun i => (i, g i)) ixs) w)
      (fold_left merge_step (flat_map (fun i => word_runs type rm0 i (g i)) ixs) macc)
    /\ well_formed (region (walk_state
         (fold_left (walk_word type clear) (map (fun i => (i, g i)) ixs) w))).
Proof.
  intros Hg. induction ixs as [|i ixs IH]; intros w macc Hnd Hb Hrel Hwf Hagree.
  - split; assumption.
  - rewrite map_cons, flat_map_cons, fold_left_cons, fold_left_app.
    apply NoDup_cons in Hnd as [Hni Hnd]. apply Forall_cons in Hb as [Hi Hb].
    assert (word_runs type rm0 i (g i) = word_runs type (region (walk_state w)) i (g i)) as ->.
    { unfold word_runs. rewrite (Hagree i) by (apply elem_of_cons; auto). reflexivity. }
    apply IH; [exact Hnd|exact Hb| | |].
    + apply walk_word_rel; auto.
    + rewrite walk_word_region. apply apply_effect_wf. exact Hwf.
    + intros j Hj. rewrite walk_word_region.
      rewrite span_effect_other; [|cbn [fst]; lia|cbn [fst]; intros ->; contradiction].
      apply Hagree. apply elem_of_cons. auto.
Qed.

Lemma finish_rel type clear st0 w M :
  walk_rel type clear st0 w M ->
  calls (trace (finish w))
  = calls (trace st0) ++ map (call_of (cpu_addr (region st0))) (reverse M)
  /\ exists new, trace (finish w) = trace st0 ++ new
                 /\ (clear = true -> calls_cleared type (cpu_addr (region st0)) new).
Proof.
  intros (Hc & HG & Hm & (new & Htr & Hnew)). unfold finish.
  destruct M as [|[s l] rest].
  - destruct Hm as [-> Hcalls]. split; [rewrite reverse_nil, app_nil_r; exact Hcalls|].
    exists new. auto.
  - destruct Hm as (-> & Hpo & Hpp & Hcalls & Hhead).
    apply Forall_cons in HG as [Hsl HG]. pose proof Hsl as Hgood.
    unfold good in Hsl. cbn [fst snd] in Hsl. consts.
    unfold release. cbn [walk_state trace]. rewrite Hpo, Hpp. consts.
    assert ((wrap64 (cpu_addr (region (walk_state w)) + wrap64 (s * 4096)),
             wrap64 (wrap64 (s + l - s) * 4096))
            = call_of (cpu_addr (region st0)) (s, l)) as Hcall.
    { unfold call_of. cbn [fst snd]. consts. rewrite Hc.
      replace (s + l - s) with l by lia.
      rewrite (wrap64_small (s * 4096)), (wrap64_small l), (wrap64_small (l * 4096)) by lia.
      reflexivity. }
    split.
    + unfold emit. rewrite calls_app, Hcalls, reverse_cons, map_app, <- app_assoc.
      cbn [calls flat_map map app]. rewrite Hcall. reflexivity.
    + eexists. split; [unfold emit; rewrite Htr, <- app_assoc; reflexivity|].
      intros Hcl. apply (calls_cleared_snoc type _ new _ _ _ s l); auto.
Qed.

Lemma StronglySorted_weaken {A : Type} (R1 R2 : A -> A -> Prop) (l : list A) :
  (forall a b, R1 a b -> R2 a b) -> StronglySorted R1 l -> StronglySorted R2 l.
Proof.
  intros HR. induction 1 as [|x l HS IH HF]; constructor; [exact IH|].
  eapply Forall_impl; [exact HF|]. auto.
Qed.

Lemma covers_flat_map {A : Type} (f : A -> list (Z * Z)) (l : list A) p :
  covers (flat_map f l) p <-> exists x, x ∈ l /\ covers (f x) p.
Proof.
  unfold covers. split.
  - intros (r & Hin & Hp). apply list_elem_of_In, in_flat_map in Hin as (x & Hx & Hr).
    exists x. split; [apply list_elem_of_In; exact Hx|].
    exists r. split; [apply list_elem_of_In; exact Hr|exact Hp].
  - intros (x & Hx & r & Hr & Hp). exists r. split; [|exact Hp].
    apply list_elem_of_In, in_flat_map. exists x.
    split; apply list_elem_of_In; assumption.
Qed.

Lemma shifted_runs_spec (L : list (Z * Z)) (f : Z -> bool) i :
  0 <= i < 16 ->
  Forall (fun r => 0 <= fst r /\ 0 < snd r /\ fst r + snd r <= 64) L ->
  StronglySorted apart L ->
  (forall b, f b = true <-> covers L b) ->
  Forall (fun r => good r /\ i * 64 <= fst r /\ fst r + snd r <= i * 64 + 64)
    (map (shift (i * 64)) L)
  /\ StronglySorted before (map (shift (i * 64)) L)
  /\ (forall p, covers (map (shift (i * 64)) L) p <-> p / 64 = i /\ f (p mod 64) = true).
Proof.
  intros Hi HF HS Hcov. rewrite Forall_forall in HF. split; [|split].
  - apply Forall_forall. intros r Hin. apply list_elem_of_fmap in Hin as ([o n] & -> & Hin).
    specialize (HF _ Hin). unfold good, shift. cbn [fst snd] in *. consts. lia.
  - clear Hcov. induction HS as [|[o n] L HS IH HFa]; cbn [map]; constructor.
    + apply IH. intros x Hx. apply HF. apply elem_of_cons. auto.
    + apply Forall_forall. intros r Hin.
      apply list_elem_of_In, in_map_iff in Hin as ([o' n'] & <- & Hin).
      rewrite Forall_forall in HFa. specialize (HFa _ (proj2 (list_elem_of_In _ _) Hin)).
      unfold before, apart, shift in *. cbn [fst snd] in *.
      specialize (HF (o, n) ltac:(apply elem_of_cons; auto)). cbn [fst snd] in HF. lia.
  - intros p. split.
    + intros (r & Hin & Hp). apply list_elem_of_fmap in Hin as ([o n] & -> & Hin).
      specialize (HF _ Hin). unfold shift in Hp. cbn [fst snd] in *.
      assert (p / 64 = i /\ p mod 64 = p - i * 64) as [Hd Hmod]
        by (Z.div_mod_to_equations; lia).
      split; [exact Hd|]. rewrite Hmod. apply Hcov. exists (o, n). cbn [fst snd].
      split; [exact Hin|lia].
    + intros [Hd Hbit]. apply Hcov in Hbit as ([o n] & Hin & Hp). cbn [fst snd] in Hp.
      exists (shift (i * 64) (o, n)). split.
      * apply list_elem_of_fmap. exists (o, n). auto.
      * unfold shift. cbn [fst snd]. Z.div_mod_to_equations. lia.
Qed.

Lemma word_runs_spec type rm i m :
  0 <= i < NUM_REGION_WORDS -> 0 <= m < 2 ^ 64 ->
  Forall (fun r => good r /\ i * 64 <= fst r /\ fst r + snd r <= i * 64 + 64)
    (word_runs type rm i m)
  /\ StronglySorted before (word_runs type rm i m)
  /\ (forall p, covers (word_runs type rm i m) p
                <-> p / 64 = i /\ Z.testbit (Z.land (word_at (Span type rm) i) m) (p mod 64) = true).
Proof.
  intros Hi Hm.
  pose proof (land_mask_range (word_at (Span type rm) i) m Hm) as Hr.
  destruct (bit_runs_spec _ Hr) as (HF & HS & Hcov).
  exact (shifted_runs_spec _ (Z.testbit (Z.land (word_at (Span type rm) i) m)) i Hi HF HS Hcov).
Qed.

Lemma query_runs_spec type rm offset size :
  let R := flat_map (fun i => word_runs type rm i (query_mask offset size i))
             (query_indices offset size) in
  Forall good R /\ StronglySorted before R
  /\ forall p, reported type rm offset size p = true <-> covers R p.
Proof.
  cbv zeta. split; [|split].
  - apply Forall_forall. intros r Hin.
    apply list_elem_of_In, in_flat_map in Hin as (i & Hi & Hr).
    apply list_elem_of_In, query_indices_bounds in Hi.
    destruct (word_runs_spec type rm i (query_mask offset size i) Hi (query_mask_range _ _ _))
      as (HF & _). rewrite Forall_forall in HF.
    apply (HF r). apply list_elem_of_In. exact Hr.
  - apply (StronglySorted_flat_map Z.lt); [apply query_indices_sorted| |].
    + intros i Hi. apply query_indices_bounds in Hi.
      apply (word_runs_spec type rm i _ Hi (query_mask_range _ _ _)).
    + intros i j a b Hi Hj Hij Ha Hb.
      apply query_indices_bounds in Hi, Hj.
      destruct (word_runs_spec type rm i _ Hi (query_mask_range offset size i)) as (HFi & _).
      destruct (word_runs_spec type rm j _ Hj (query_mask_range offset size j)) as (HFj & _).
      rewrite Forall_forall in HFi, HFj.
      specialize (HFi _ Ha). specialize (HFj _ Hb). unfold before. lia.
  - intros p. rewrite covers_flat_map. unfold reported, modified.
    rewrite andb_true_iff. split.
    + intros [Hq Hm]. exists (p / 64). split.
      * apply query_indices_spec. exists p. auto.
      * assert (0 <= p / 64 < NUM_REGION_WORDS) as Hi.
        { apply (query_indices_bounds offset size). apply query_indices_spec. exists p. auto. }
        apply (word_runs_spec type rm _ _ Hi (query_mask_range _ _ _)).
        split; [reflexivity|].
        rewrite Z.land_spec, query_mask_bit by (apply Z.mod_pos_bound; lia).
        replace (p / 64 * 64 + p mod 64) with p
          by (pose proof (Z.div_mod p 64 ltac:(lia)); lia).
        rewrite Hq, andb_true_r. exact Hm.
    + intros (i & Hi & Hcov). apply query_indices_bounds in Hi.
      apply (word_runs_spec type rm _ _ Hi (query_mask_range _ _ _)) in Hcov as [Hd Hbit].
      rewrite Z.land_spec, andb_true_iff, query_mask_bit in Hbit
        by (apply Z.mod_pos_bound; lia).
      subst i. replace (p / 64 * 64 + p mod 64) with p in Hbit
        by (pose proof (Z.div_mod p 64 ltac:(lia)); lia).
      unfold page_bit. consts. tauto.
Qed.

Lemma walk_all_rel type clear addr size st :
  well_formed (region st) ->
  walk_rel type clear st (walk_all type clear addr size st)
    (fold_left merge_step
       (flat_map (fun i => word_runs type (region st) i
                             (query_mask (wrap64 (addr - cpu_addr (region st))) (wrap64 size) i))
          (query_indices (wrap64 (addr - cpu_addr (region st))) (wrap64 size)))
       []).
Proof.
  intros Hwf. unfold walk_all. rewrite query_words_map.
  apply walk_fold_rel.
  - intros i. apply query_mask_range.
  - apply query_indices_NoDup.
  - apply Forall_forall. intros i Hi. apply (query_indices_bounds _ _ _ Hi).
  - split; [reflexivity|]. split; [constructor|]. split; [split; reflexivity|].
    exists []. split; [symmetry; apply app_nil_r|].
    intros _ a len seen Hin. apply elem_of_nil in Hin. contradiction.
  - exact Hwf.
  - reflexivity.
Qed.

(** ** The callbacks of [ForEachModifiedRange] (C1) *)

(** C1. [ForEachModifiedRange] calls back once for every maximal run of
    pages of the queried range that are modified on the given side, in
    ascending order of the pages, a run that continues into the next
    word being one callback; with pages 2, 3, 4, 7, 8 modified, the
    query over pages 0..9 calls back for (page 2, 3 pages) and
    (page 7, 2 pages). *)
Theorem C1_one_callback_per_maximal_run type clear addr size st :
  well_formed (region st) ->
  (exists st' L,
     ForEachModifiedRange type clear addr size st = Ok st'
     /\ calls (trace st') = calls (trace st) ++ map (call_of (cpu_addr (region st))) L
     /\ StronglySorted apart L
     /\ forall s n,
          (s, n) ∈ L
          <-> maximal_run (reported type (region st)
                             (wrap64 (addr - cpu_addr (region st))) (wrap64 size)) s n)
  /\ (exists st',
        ForEachModifiedRange type clear 4194304 40960 pages_23478 = Ok st'
        /\ calls (trace st') = [(4194304 + 2 * 4096, 3 * 4096); (4194304 + 7 * 4096, 2 * 4096)]).
Proof.
  intros Hwf. split.
  - destruct (ForEachModifiedRange_ok type clear addr size st Hwf) as [Heq _].
    pose proof (walk_all_rel type clear addr size st Hwf) as Hrel.
    destruct (query_runs_spec type (region st) (wrap64 (addr - cpu_addr (region st))) (wrap64 size))
      as (HG & HS & Hcov).
    set (R := flat_map _ _) in *. clearbody R.
    destruct (merge_fold_spec R [] ltac:(constructor) ltac:(constructor) HG HS) as (HSM & HGM & HcovM).
    { intros x r Hx. apply elem_of_nil in Hx. contradiction. }
    destruct (finish_rel type clear st _ _ Hrel) as (Hcalls & _).
    eexists. exists (reverse (fold_left merge_step R [])).
    split; [exact Heq|]. split; [exact Hcalls|].
    split; [apply StronglySorted_reverse; exact HSM|].
    apply runs_maximal.
    + apply StronglySorted_reverse. exact HSM.
    + apply Forall_forall. intros r Hr. rewrite elem_of_reverse in Hr.
      rewrite Forall_forall in HGM. apply (HGM r Hr).
    + intros p. rewrite covers_reverse, HcovM, Hcov. split; [auto|].
      intros [H|H]; [destruct (covers_nil _ H)|exact H].
  - assert (well_formed (region pages_23478)) as Hwf' by (vm_compute; auto).
    destruct (ForEachModifiedRange_ok type clear 4194304 40960 pages_23478 Hwf') as [Heq _].
    eexists. split; [exact Heq|]. destruct type, clear; vm_compute; reflexivity.
Qed.

(** Pages 60..67 of a fresh region, which lie in two words, are one callback. *)
Example run_across_words_is_one_callback :
  exists st',
    ForEachModifiedRange CPU false 245760 32768 (mkState (RegionManager_new 0) []) = Ok st'
    /\ calls (trace st') = [(60 * 4096, 8 * 4096)].
Proof. eexists. split; [vm_compute; reflexivity|reflexivity]. Qed.

Lemma C1_witness :
  (exists st' L,
     ForEachModifiedRange CPU true 4194304 40960 pages_23478 = Ok st'
     /\ calls (trace st')
        = calls (trace pages_23478) ++ map (call_of (cpu_addr (region pages_23478))) L
     /\ StronglySorted apart L
     /\ forall s n,
          (s, n) ∈ L
          <-> maximal_run (reported CPU (region pages_23478)
                             (wrap64 (4194304 - cpu_addr (region pages_23478))) (wrap64 40960)) s n)
  /\ (exists st',
        ForEachModifiedRange CPU true 4194304 40960 pages_23478 = Ok st'
        /\ calls (trace st') = [(4194304 + 2 * 4096, 3 * 4096); (4194304 + 7 * 4096, 2 * 4096)]).
Proof.
  apply (C1_one_callback_per_maximal_run CPU true 4194304 40960 pages_23478).
  vm_compute. auto.
Defined.

(** ** Clearing while walking (C5) *)

Lemma watches_app tr1 tr2 : watches (tr1 ++ tr2) = watches tr1 ++ watches tr2.
Proof. unfold watches. apply flat_map_app. Qed.

Lemma watches_protection_events add rd c i acc m :
  watches (protection_events add rd c i acc m) = protection_events add rd c i acc m.
Proof.
  unfold protection_events. generalize (bit_runs (changed_bits add acc m)). intros L.
  induction L as [|r L IH]; [reflexivity|]. cbn [map]. unfold watches in *.
  rewrite flat_map_cons, IH. reflexivity.
Qed.

Lemma watches_walk_events type clear rm i m :
  watches (walk_events type clear rm i m) = walk_events type clear rm i m.
Proof.
  unfold walk_events. destruct clear, type; try reflexivity; apply watches_protection_events.
Qed.

Lemma feed_page_watches base L w :
  watches (trace (walk_state (feed (ForEachModifiedRange_page base) L w)))
  = watches (trace (walk_state w)).
Proof.
  unfold feed. revert w. induction L as [|[o n] L IH]; intros w; [reflexivity|].
  rewrite fold_left_cons, IH. unfold ForEachModifiedRange_page, release. cbn [fst snd].
  destruct (pending w); cbn [negb]; [|reflexivity].
  destruct (pending_pointer w =? wrap64 (base + o)); [reflexivity|].
  cbn [walk_state trace]. unfold emit. rewrite watches_app. cbn. apply app_nil_r.
Qed.

Lemma walk_events_ext type clear rm rm' i m :
  cpu_addr rm = cpu_addr rm' ->
  word_at (write rm) i = word_at (write rm') i ->
  word_at (read rm) i = word_at (read rm') i ->
  walk_events type clear rm i m = walk_events type clear rm' i m.
Proof. intros Hc Hw Hr. unfold walk_events. rewrite Hc, Hw, Hr. reflexivity. Qed.

Lemma walk_word_watches type clear w im :
  watches (trace (walk_state (walk_word type clear w im)))
  = watches (trace (walk_state w))
    ++ walk_events type clear (region (walk_state w)) (fst im) (snd im).
Proof.
  unfold walk_word. rewrite feed_page_watches. cbn [walk_state trace].
  rewrite watches_app, watches_walk_events. reflexivity.
Qed.

Lemma walk_fold_watches type clear (g : Z -> Z) rm0 :
  forall ixs w,
    NoDup ixs -> Forall (fun i => 0 <= i) ixs ->
    cpu_addr rm0 = cpu_addr (region (walk_state w)) ->
    (forall j, j ∈ ixs ->
       word_at (write rm0) j = word_at (write (region (walk_state w))) j
       /\ word_at (read rm0) j = word_at (read (region (walk_state w))) j) ->
    watches (trace (walk_state
      (fold_left (walk_word type clear) (map (fun i => (i, g i)) ixs) w)))
    = watches (trace (walk_state w))
      ++ flat_map (fun i => walk_events type clear rm0 i (g i)) ixs.
Proof.
  induction ixs as [|i ixs IH]; intros w Hnd Hpos Hc Hagree.
  - cbn [map fold_left flat_map]. symmetry. apply app_nil_r.
  - rewrite map_cons, flat_map_cons, fold_left_cons.
    apply NoDup_cons in Hnd as [Hni Hnd]. apply Forall_cons in Hpos as [Hi Hpos].
    rewrite IH; [|exact Hnd|exact Hpos| |].
    + rewrite walk_word_watches, <- app_assoc. cbn [fst snd]. do 2 f_equal.
      destruct (Hagree i ltac:(apply elem_of_cons; auto)) as [Hw Hr].
      apply walk_events_ext; auto.
    + rewrite walk_word_region. exact Hc.
    + intros j Hj. rewrite walk_word_region.
      assert (i <> j) as Hne by (intros ->; contradiction).
      unfold apply_effect. cbn [write read fst snd].
      rewrite !word_at_upd_other by assumption.
      apply Hagree. apply elem_of_cons. auto.
Qed.

Lemma finish_watches w : watches (trace (finish w)) = watches (trace (walk_state w)).
Proof.
  unfold finish, release. destruct (pending w); [|reflexivity].
  cbn [walk_state trace]. unfold emit. rewrite watches_app. cbn. apply app_nil_r.
Qed.

(** The clearing walk on the CPU side over a fresh page asks the tracker
    for one more write watcher on it, then calls back. *)
Example clearing_cpu_walk_adds_a_watcher :
  exists st',
    ForEachModifiedRange CPU true 0 4096 (mkState (RegionManager_new 0) []) = Ok st'
    /\ watches (trace st') = [Watch 1 false 0 4096]
    /\ calls (trace st') = [(0, 4096)].
Proof. eexists. split; [vm_compute; reflexivity|]. split; reflexivity. Qed.

(** C5 fails as stated on the CPU side: the clearing walk over a fresh
    page leaves it write tracked. *)
Lemma C5_counterexample :
  ~ clear_unprotects CPU 0 4096 (mkState (RegionManager_new 0) []).
Proof.
  intros (st' & Heq & H). vm_compute in Heq. inversion Heq; subst st'; clear Heq.
  destruct (H 0 ltac:(vm_compute; reflexivity)) as [_ H2].
  vm_compute in H2. discriminate.
Qed.

(** A callback that would see page 0 of a fresh region, which is still
    CPU-modified and not write tracked, is not one that finds its pages
    resolved. *)
Example callback_before_clearing_is_not_cleared :
  ~ calls_cleared CPU 0 [Call 0 4096 (RegionManager_new 0)].
Proof.
  intros H. destruct (H 0 4096 (RegionManager_new 0)) as (s & n & Hg & Hc & Hp).
  { apply list_elem_of_singleton. reflexivity. }
  unfold good, call_of in *. cbn [fst snd] in *. consts. inversion Hc as [[Ha Hl]].
  assert (n = 1) by lia. subst n.
  rewrite wrap64_small in Ha by lia. assert (s = 0) by lia. subst s.
  destruct (Hp 0 ltac:(lia)) as [Hm _]. vm_compute in Hm. discriminate.
Qed.

(** The pages of the region whose address lies in the bytes of a callback
    are the pages of its run. *)
Lemma page_in_call_run c s n p :
  good (s, n) -> 0 <= p < NUM_REGION_PAGES ->
  page_in_call c (fst (call_of c (s, n))) (snd (call_of c (s, n))) p <-> s <= p < s + n.
Proof.
  unfold good, page_in_call, call_of. cbn [fst snd]. consts. intros Hg Hp.
  assert (wrap64 (c + p * 4096 - wrap64 (c + s * 4096)) = wrap64 ((p - s) * 4096)) as ->.
  { unfold wrap64. rewrite Zminus_mod_idemp_r. f_equal. lia. }
  destruct (Z.lt_ge_cases p s) as [Hlt|Hge].
  - assert (wrap64 ((p - s) * 4096) = (p - s) * 4096 + 2 ^ 64) as ->.
    { unfold wrap64. symmetry. apply Z.mod_unique with (q := -1); lia. }
    lia.
  - rewrite wrap64_small by lia. lia.
Qed.

(** C5, amended. [ForEachModifiedRange] with [clear] leaves every page of
    the range not modified on the side walked, so [IsRegionModified] on
    that range answers false afterwards; on the CPU side it write
    protects these pages (write tracking on, one watcher added per run of
    pages that were not tracked), on the GPU side it lifts their read
    protection (read tracking off, one watcher removed per run of pages
    that were tracked); and every callback is for a run of pages of the
    region and finds every page of the region that lies in its bytes
    already in that state. *)
Theorem C5_clearing_walk_resolves_the_range type addr size st :
  well_formed (region st) ->
  exists st' new,
    ForEachModifiedRange type true addr size st = Ok st'
    /\ (forall p, in_query (wrap64 (addr - cpu_addr (region st))) (wrap64 size) p = true ->
          cleared_in type (region st') p)
    /\ IsRegionModified type (wrap64 (addr - cpu_addr (region st))) (wrap64 size) (region st')
       = Ok false
    /\ trace st' = trace st ++ new
    /\ calls_cleared type (cpu_addr (region st)) new
    /\ (forall a len seen p,
          Call a len seen ∈ new -> 0 <= p < NUM_REGION_PAGES ->
          page_in_call (cpu_addr (region st)) a len p -> cleared_in type seen p)
    /\ watches new
       = flat_map (fun i => walk_events type true (region st) i
                              (query_mask (wrap64 (addr - cpu_addr (region st))) (wrap64 size) i))
           (query_indices (wrap64 (addr - cpu_addr (region st))) (wrap64 size)).
Proof.
  intros Hwf.
  destruct (ForEachModifiedRange_ok type true addr size st Hwf) as [Heq Hwf'].
  pose proof (walk_all_rel type true addr size st Hwf) as Hrel.
  destruct (finish_rel type true st _ _ Hrel) as (_ & new & Htr & Hnew).
  exists (finish (walk_all type true addr size st)), new.
  set (off := wrap64 (addr - cpu_addr (region st))) in *.
  assert (region (finish (walk_all type true addr size st))
          = region_after (walk_effect type true) off (wrap64 size) (region st)) as Hreg
    by (rewrite finish_region; apply walk_all_region).
  assert (forall p, in_query off (wrap64 size) p = true ->
            cleared_in type (region (finish (walk_all type true addr size st))) p) as Hclr.
  { intros p Hq. rewrite Hreg.
    destruct (region_after_pages (walk_effect type true) off (wrap64 size) (region st) p Hwf)
      as (H1 & H2 & H3 & H4).
    unfold cleared_in, modified, write_tracked, read_tracked.
    destruct type; cbn [Span walk_effect e_cpu e_gpu e_write e_read] in *.
    - rewrite H1, H3, Hq. cbn. rewrite !andb_false_r. auto.
    - rewrite H2, H4, Hq. cbn. rewrite andb_false_r, orb_true_r. auto. }
  split; [exact Heq|]. split; [exact Hclr|].
  split; [|split; [exact Htr|split; [auto|split]]].
  - assert (well_formed (region (finish (walk_all type true addr size st)))) as Hwf2
      by (rewrite Hreg; apply region_after_wf; exact Hwf).
    destruct (IsRegionModified_pages type off (wrap64 size) _ Hwf2) as (r & -> & Hr).
    f_equal. destruct r; [|reflexivity]. exfalso.
    destruct Hr as [Hr _]. destruct (Hr eq_refl) as (p & Hq & Hm).
    destruct (Hclr p Hq) as [Hm' _]. congruence.
  - intros a len seen p Hin Hp Hpage.
    destruct (Hnew eq_refl a len seen Hin) as (s & n & Hg & Hcall & Hrun).
    apply Hrun. apply (page_in_call_run (cpu_addr (region st)) s n p Hg Hp).
    rewrite <- Hcall. exact Hpage.
  - pose proof (finish_watches (walk_all type true addr size st)) as Hw.
    rewrite Htr, watches_app in Hw. unfold walk_all in Hw.
    rewrite query_words_map in Hw.
    rewrite (walk_fold_watches type true _ (region st)) in Hw;
      [|apply query_indices_NoDup|apply query_indices_nonneg|reflexivity|auto].
    cbn [walk_state trace] in Hw. apply app_inv_head in Hw. exact Hw.
Qed.

Lemma C5_witness :
  exists st' new,
    ForEachModifiedRange CPU true 4194304 40960 pages_23478 = Ok st'
    /\ (forall p, in_query (wrap64 (4194304 - cpu_addr (region pages_23478))) (wrap64 40960) p = true ->
          cleared_in CPU (region st') p)
    /\ IsRegionModified CPU (wrap64 (4194304 - cpu_addr (region pages_23478))) (wrap64 40960)
         (region st') = Ok false
    /\ trace st' = trace pages_23478 ++ new
    /\ calls_cleared CPU (cpu_addr (region pages_23478)) new
    /\ (forall a len seen p,
          Call a len seen ∈ new -> 0 <= p < NUM_REGION_PAGES ->
          page_in_call (cpu_addr (region pages_23478)) a len p -> cleared_in CPU seen p)
    /\ watches new
       = flat_map (fun i => walk_events CPU true (region pages_23478) i
                              (query_mask (wrap64 (4194304 - cpu_addr (region pages_23478)))
                                 (wrap64 40960) i))
           (query_indices (wrap64 (4194304 - cpu_addr (region pages_23478))) (wrap64 40960)).
Proof.
  apply (C5_clearing_walk_resolves_the_range CPU 4194304 40960 pages_23478).
  vm_compute. auto.
Defined.

(** ** Clipping and empty ranges (C8) *)

Lemma region_after_marked type d offset size rm p :
  well_formed rm -> in_query offset size p = true ->
  marked type d rm (region_after (change_effect type d) offset size rm) p.
Proof.
  intros Hwf Hq.
  destruct (region_after_pages (change_effect type d) offset size rm p Hwf)
    as (H1 & H2 & H3 & H4).
  rewrite Hq in *. unfold marked, modified, write_tracked, read_tracked.
  destruct type, d; cbn [Span change_effect e_cpu e_gpu e_write e_read upd_bit] in *;
    rewrite ?H1, ?H2, ?H3, ?H4, ?orb_true_r, ?andb_false_r; cbn [negb]; auto.
Qed.

Lemma region_after_walked type clear offset size rm p :
  well_formed rm -> in_query offset size p = true ->
  walked type clear rm (region_after (walk_effect type clear) offset size rm) p.
Proof.
  intros Hwf Hq.
  destruct (region_after_pages (walk_effect type clear) offset size rm p Hwf)
    as (H1 & H2 & H3 & H4).
  rewrite Hq in *. unfold walked, same_page, cleared_in, modified, write_tracked, read_tracked.
  destruct type, clear; cbn [Span walk_effect e_cpu e_gpu e_write e_read upd_bit] in *;
    rewrite ?H1, ?H2, ?H3, ?H4, ?orb_true_r, ?andb_false_r; cbn [negb]; auto.
Qed.

(** A page is touched by the range exactly when it is a page of the
    region that holds a byte of the clamped range. *)
Lemma in_query_bytes offset size p :
  in_query offset size p = true
  <-> 0 <= p < NUM_REGION_PAGES
      /\ exists x, range_start offset <= x < range_end offset size /\ x / BYTES_PER_PAGE = p.
Proof.
  pose proof (range_start_range offset) as HS. split.
  - intros H. split; [apply (in_query_bounds _ _ _ H)|].
    apply in_query_spec in H. unfold first_page, end_page in H. consts.
    exists (Z.max (range_start offset) (p * 4096)).
    split; Z.div_mod_to_equations; lia.
  - intros [Hp (x & Hx & Hd)]. apply in_query_spec. unfold first_page, end_page. consts.
    Z.div_mod_to_equations. lia.
Qed.

(** The callbacks of a walk cover exactly the modified pages of the range. *)
Lemma walk_calls_cover type clear addr size st :
  well_formed (region st) ->
  exists st' L,
    ForEachModifiedRange type clear addr size st = Ok st'
    /\ region st' = region_after (walk_effect type clear)
                      (wrap64 (addr - cpu_addr (region st))) (wrap64 size) (region st)
    /\ calls (trace st') = calls (trace st) ++ map (call_of (cpu_addr (region st))) L
    /\ Forall good L
    /\ forall p, (exists s n, (s, n) ∈ L /\ s <= p < s + n)
                 <-> in_query (wrap64 (addr - cpu_addr (region st))) (wrap64 size) p = true
                     /\ modified type (region st) p = true.
Proof.
  intros Hwf.
  destruct (ForEachModifiedRange_ok type clear addr size st Hwf) as [Heq _].
  pose proof (walk_all_rel type clear addr size st Hwf) as Hrel.
  destruct (query_runs_spec type (region st) (wrap64 (addr - cpu_addr (region st))) (wrap64 size))
    as (HG & HS & Hcov).
  set (R := flat_map _ _) in *. clearbody R.
  destruct (merge_fold_spec R [] ltac:(constructor) ltac:(constructor) HG HS)
    as (HSM & HGM & HcovM).
  { intros x r Hx. apply elem_of_nil in Hx. contradiction. }
  destruct (finish_rel type clear st _ _ Hrel) as (Hcalls & _).
  eexists. exists (reverse (fold_left merge_step R [])).
  split; [exact Heq|].
  split; [rewrite finish_region; apply walk_all_region; exact Hwf|].
  split; [exact Hcalls|]. split.
  - apply Forall_forall. intros r Hr. rewrite elem_of_reverse in Hr.
    rewrite Forall_forall in HGM. apply (HGM r Hr).
  - intros p.
    assert ((exists s n, (s, n) ∈ reverse (fold_left merge_step R []) /\ s <= p < s + n)
            <-> covers (reverse (fold_left merge_step R [])) p) as ->.
    { unfold covers. split.
      - intros (s & n & Hin & Hp). exists (s, n). auto.
      - intros ([s n] & Hin & Hp). exists s, n. auto. }
    rewrite covers_reverse, HcovM, <- Hcov. unfold reported. rewrite andb_true_iff.
    split; [|auto]. intros [H|H]; [destruct (covers_nil _ H)|exact H].
Qed.

(** A range that runs past the end of a fresh region: the last page of
    the region is unmarked and its watcher asked for, the page before is
    left alone. *)
Example range_past_the_end_is_clipped :
  exists st',
    ChangeRegionState CPU false 4190208 8192 (mkState (RegionManager_new 0) []) = Ok st'
    /\ modified CPU (region st') 1023 = false
    /\ modified CPU (region st') 1022 = true
    /\ watches (trace st') = [Watch 1 false 4190208 4096].
Proof. eexists. split; [vm_compute; reflexivity|]. repeat split; reflexivity. Qed.

(** C8. Every operation returns on every range, without reaching outside
    the sixteen words, and a range that leaves the region is clipped to
    it, not dropped: the pages touched are exactly the pages of the
    region that hold a byte of the clamped range; [ChangeRegionState]
    marks every one of them and no other page, [ForEachModifiedRange]
    resolves every one of them when it clears and calls back for exactly
    those of them that are modified, [IsRegionModified] answers true
    exactly when one of them is modified; an empty range changes
    nothing, calls nothing and notifies nothing. *)
Theorem C8_ranges_are_clipped type flag addr size offset st :
  well_formed (region st) ->
  (exists st',
     ChangeRegionState type flag addr size st = Ok st'
     /\ well_formed (region st')
     /\ (forall p, in_query (wrap64 (addr - cpu_addr (region st))) size p = false ->
                   same_page (region st) (region st') p)
     /\ (forall p, in_query (wrap64 (addr - cpu_addr (region st))) size p = true ->
                   marked type flag (region st) (region st') p))
  /\ (exists st' L,
        ForEachModifiedRange type flag addr size st = Ok st'
        /\ well_formed (region st')
        /\ (forall p, in_query (wrap64 (addr - cpu_addr (region st))) (wrap64 size) p = false ->
                      same_page (region st) (region st') p)
        /\ (forall p, in_query (wrap64 (addr - cpu_addr (region st))) (wrap64 size) p = true ->
                      walked type flag (region st) (region st') p)
        /\ calls (trace st') = calls (trace st) ++ map (call_of (cpu_addr (region st))) L
        /\ (forall p, (exists s n, (s, n) ∈ L /\ s <= p < s + n)
                      <-> in_query (wrap64 (addr - cpu_addr (region st))) (wrap64 size) p = true
                          /\ modified type (region st) p = true))
  /\ (exists r,
        IsRegionModified type offset size (region st) = Ok r
        /\ (r = true <-> exists p, in_query offset size p = true
                                   /\ modified type (region st) p = true))
  /\ (forall p, in_query offset size p = true
                <-> 0 <= p < NUM_REGION_PAGES
                    /\ exists x, range_start offset <= x < range_end offset size
                                 /\ x / BYTES_PER_PAGE = p)
  /\ (forall o, - 2 ^ 63 <= o < 2 ^ 63 -> 0 <= size -> o + size < 2 ^ 63 ->
        range_start (wrap64 o) = Z.max o 0
        /\ range_end (wrap64 o) size = Z.max (o + size) 0)
  /\ ChangeRegionState type flag addr 0 st = Ok st
  /\ ForEachModifiedRange type flag addr 0 st = Ok st
  /\ IsRegionModified type offset 0 (region st) = Ok false.
Proof.
  intros Hwf. split; [|split; [|split; [|split; [|split; [|split; [|split]]]]]].
  - destruct (ChangeRegionState_region type flag addr size st Hwf) as (st' & Heq & Hreg).
    exists st'. split; [exact Heq|]. rewrite Hreg.
    split; [apply region_after_wf; exact Hwf|]. split.
    + intros p Hp. apply region_after_outside; assumption.
    + intros p Hp. apply region_after_marked; assumption.
  - destruct (walk_calls_cover type flag addr size st Hwf)
      as (st' & L & Heq & Hreg & Hcalls & _ & Hcov).
    exists st', L. split; [exact Heq|]. rewrite Hreg.
    split; [apply region_after_wf; exact Hwf|]. split; [|split; [|split]].
    + intros p Hp. apply region_after_outside; assumption.
    + intros p Hp. apply region_after_walked; assumption.
    + exact Hcalls.
    + exact Hcov.
  - apply IsRegionModified_pages. exact Hwf.
  - apply in_query_bytes.
  - intros o. apply range_clamps_signed.
  - destruct (ChangeRegionState_ok type flag addr 0 st Hwf) as [-> _].
    rewrite query_words_map, query_empty. reflexivity.
  - destruct (ForEachModifiedRange_ok type flag addr 0 st Hwf) as [-> _].
    unfold walk_all. change (wrap64 0) with 0.
    rewrite query_words_map, query_empty. cbn. destruct st; reflexivity.
  - rewrite IsRegionModified_ok by exact Hwf.
    rewrite query_words_map, query_empty. reflexivity.
Qed.

Lemma C8_witness :
  (exists st',
     ChangeRegionState CPU false 4190208 8192 gpu_marked = Ok st'
     /\ well_formed (region st')
     /\ (forall p, in_query (wrap64 (4190208 - cpu_addr (region gpu_marked))) 8192 p = false ->
                   same_page (region gpu_marked) (region st') p)
     /\ (forall p, in_query (wrap64 (4190208 - cpu_addr (region gpu_marked))) 8192 p = true ->
                   marked CPU false (region gpu_marked) (region st') p))
  /\ (exists st' L,
        ForEachModifiedRange CPU false 4190208 8192 gpu_marked = Ok st'
        /\ well_formed (region st')
        /\ (forall p, in_query (wrap64 (4190208 - cpu_addr (region gpu_marked))) (wrap64 8192) p = false ->
                      same_page (region gpu_marked) (region st') p)
        /\ (forall p, in_query (wrap64 (4190208 - cpu_addr (region gpu_marked))) (wrap64 8192) p = true ->
                      walked CPU false (region gpu_marked) (region st') p)
        /\ calls (trace st') = calls (trace gpu_marked) ++ map (call_of (cpu_addr (region gpu_marked))) L
        /\ (forall p, (exists s n, (s, n) ∈ L /\ s <= p < s + n)
                      <-> in_query (wrap64 (4190208 - cpu_addr (region gpu_marked))) (wrap64 8192) p = true
                          /\ modified CPU (region gpu_marked) p = true))
  /\ (exists r,
        IsRegionModified CPU 4190208 8192 (region gpu_marked) = Ok r
        /\ (r = true <-> exists p, in_query 4190208 8192 p = true
                                   /\ modified CPU (region gpu_marked) p = true))
  /\ (forall p, in_query 4190208 8192 p = true
                <-> 0 <= p < NUM_REGION_PAGES
                    /\ exists x, range_start 4190208 <= x < range_end 4190208 8192
                                 /\ x / BYTES_PER_PAGE = p)
  /\ (forall o, - 2 ^ 63 <= o < 2 ^ 63 -> 0 <= 8192 -> o + 8192 < 2 ^ 63 ->
        range_start (wrap64 o) = Z.max o 0
        /\ range_end (wrap64 o) 8192 = Z.max (o + 8192) 0)
  /\ ChangeRegionState CPU false 4190208 0 gpu_marked = Ok gpu_marked
  /\ ForEachModifiedRange CPU false 4190208 0 gpu_marked = Ok gpu_marked
  /\ IsRegionModified CPU 4190208 0 (region gpu_marked) = Ok false.
Proof.
  apply (C8_ranges_are_clipped CPU false 4190208 8192 4190208 gpu_marked).
  vm_compute. auto.
Defined.

(** ** [util_streaming_load_memcpy] (C2) *)

Lemma land_15 x : Z.land x 15 = x mod 16.
Proof. change 15 with (Z.ones 4). rewrite Z.land_ones by lia. reflexivity. Qed.

Lemma align_down y : 0 <= y < 2 ^ 64 -> Z.land y (not64 15) = 16 * (y / 16).
Proof.
  intros Hy. replace (16 * (y / 16)) with (Z.shiftl (Z.shiftr y 4) 4)
    by (rewrite Z.shiftl_mul_pow2, Z.shiftr_div_pow2 by lia; change (2 ^ 4) with 16; lia).
  apply Z.bits_inj'. intros b Hb.
  rewrite Z.land_spec, not64_bit, Z.shiftl_spec by lia.
  destruct (Z.leb_spec 0 b); [|lia]. cbn [andb].
  destruct (Z.lt_ge_cases b 4).
  - rewrite (Z.testbit_neg_r _ (b - 4)) by lia.
    assert (Z.testbit 15 b = true) as ->.
    { assert (b = 0 \/ b = 1 \/ b = 2 \/ b = 3) as [->|[->|[->| ->]]] by lia; reflexivity. }
    rewrite andb_false_r. apply andb_false_r.
  - rewrite Z.shiftr_spec by lia. replace (b - 4 + 4) with b by lia.
    assert (Z.testbit 15 b = false) as ->.
    { apply (bound_bits 15 4); lia. }
    destruct (Z.ltb_spec b 64); cbn [negb andb].
    + apply andb_true_r.
    + rewrite andb_false_r. symmetry. apply (bound_bits y 64); lia.
Qed.

Lemma ALIGN_POT_16 x :
  0 <= x -> x + 15 < 2 ^ 64 -> ALIGN_POT x 16 = 16 * ((x + 15) / 16).
Proof.
  intros Hx Hb. unfold ALIGN_POT. change (wrap64 (16 - 1)) with 15.
  replace (x + 16 - 1) with (x + 15) by lia.
  rewrite wrap64_small by lia. apply align_down. lia.
Qed.

Lemma poke_all_spec v : forall m p a,
  poke_all m p v a
  = if (p <=? a) && (a <? p + Z.of_nat (length v))
    then nth (Z.to_nat (a - p)) v (m a) else m a.
Proof.
  induction v as [|b v IH]; intros m p a; cbn [poke_all length].
  - destruct (Z.leb_spec p a), (Z.ltb_spec a (p + Z.of_nat 0)); cbn [andb]; try reflexivity; lia.
  - rewrite IH. unfold poke.
    destruct (Z.leb_spec (p + 1) a), (Z.ltb_spec a (p + 1 + Z.of_nat (length v)));
      destruct (Z.leb_spec p a), (Z.ltb_spec a (p + Z.of_nat (S (length v))));
      cbn [andb]; try lia.
    + replace (Z.to_nat (a - p)) with (S (Z.to_nat (a - (p + 1)))) by lia. cbn [nth].
      apply nth_indep. lia.
    + destruct (Z.eqb_spec a p); [lia|reflexivity].
    + assert (a = p) as -> by lia. rewrite Z.eqb_refl, Z.sub_diag. reflexivity.
    + destruct (Z.eqb_spec a p); [lia|reflexivity].
Qed.

Lemma lanes_spec (m : Memory) s k :
  (k < 16)%nat -> forall d, nth k (map (fun i => m (s + i)) lanes) d = m (s + Z.of_nat k).
Proof.
  intros Hk d.
  do 16 (destruct k as [|k]; [reflexivity|]). lia.
Qed.

(** One round of the vector loop copies sixteen bytes. *)
Lemma stream_round m d s :
  Z.land d 15 = 0 -> Z.land s 15 = 0 ->
  exists m1,
    (do temp1 <- _mm_stream_load_si128 m (s + 0); _mm_store_si128 m (d + 0) temp1) = Ok m1
    /\ forall a, m1 a = memcpy m d s 16 a.
Proof.
  intros Hd Hs. unfold _mm_stream_load_si128, _mm_store_si128.
  rewrite !Z.add_0_r, Hd, Hs. cbn [Z.eqb bind]. eexists. split; [reflexivity|].
  intros a. rewrite poke_all_spec. unfold memcpy.
  change (Z.of_nat (length (map (fun i => m (s + i)) lanes))) with 16.
  destruct ((d <=? a) && (a <? d + 16)) eqn:E; [|reflexivity].
  apply andb_true_iff in E as [E1 E2]. apply Z.leb_le in E1. apply Z.ltb_lt in E2.
  rewrite lanes_spec by lia. f_equal. lia.
Qed.

Lemma memcpy_ext m m' d s n :
  (forall a, m a = m' a) -> forall a, memcpy m d s n a = memcpy m' d s n a.
Proof. intros H a. unfold memcpy. rewrite !H. reflexivity. Qed.

Ltac case_bound :=
  match goal with
  | |- context [?lo <=? ?x] => destruct (Z.leb_spec lo x) as [?|?]
  | |- context [?x <? ?hi] => destruct (Z.ltb_spec x hi) as [?|?]
  | |- context [?x =? ?y] => destruct (Z.eqb_spec x y) as [?|?]
  end.

Ltac ranges :=
  repeat case_bound;
  cbn [andb]; try lia; try reflexivity; try (f_equal; lia).

Lemma memcpy_compose m d s n1 n2 :
  0 <= n1 -> 0 <= n2 ->
  d + (n1 + n2) <= s \/ s + (n1 + n2) <= d ->
  forall a, memcpy (memcpy m d s n1) (d + n1) (s + n1) n2 a = memcpy m d s (n1 + n2) a.
Proof. intros H1 H2 Hdis a. unfold memcpy. ranges. Qed.

Lemma memcpy_zero m d s : forall a, memcpy m d s 0 a = m a.
Proof. intros a. unfold memcpy. ranges. Qed.

Lemma stream_loop_spec fuel :
  forall m d s len,
    0 <= d -> 0 <= s -> 0 <= len -> d + len <= 2 ^ 64 -> s + len <= 2 ^ 64 ->
    Z.land d 15 = 0 -> Z.land s 15 = 0 ->
    d + len <= s \/ s + len <= d ->
    (Z.to_nat (len / 16) <= fuel)%nat ->
    exists m' d' s',
      stream_loop fuel m d s len = Ok (m', d', s', len mod 16)
      /\ (len mod 16 <> 0 -> d' = d + 16 * (len / 16) /\ s' = s + 16 * (len / 16))
      /\ forall a, m' a = memcpy m d s (16 * (len / 16)) a.
Proof.
  induction fuel as [|fuel IH]; intros m d s len Hd Hs Hl Hdb Hsb Hda Hsa Hdis Hf.
  - assert (0 <= len / 16) as Hq0 by (apply Z.div_pos; lia).
    assert (len / 16 = 0) as Hq by lia.
    assert (len < 16) by (Z.div_mod_to_equations; lia).
    cbn [stream_loop]. destruct (Z.ltb_spec len 16); [|lia].
    exists m, d, s. rewrite Z.mod_small by lia. rewrite Hq. split; [reflexivity|].
    split; [lia|]. intros a. symmetry. apply memcpy_zero.
  - cbn [stream_loop]. destruct (Z.ltb_spec len 16) as [Hlt|Hge].
    + exists m, d, s. rewrite Z.mod_small by lia. rewrite Z.div_small by lia.
      split; [reflexivity|]. split; [lia|]. intros a. symmetry. apply memcpy_zero.
    + destruct (stream_round m d s Hda Hsa) as (m1 & Hround & Hm1).
      unfold bind in Hround |- *.
      destruct (_mm_stream_load_si128 m (s + 0)) as [temp1|]; [|discriminate].
      rewrite Hround.
      assert (len / 16 = (len - 16) / 16 + 1 /\ len mod 16 = (len - 16) mod 16) as [Hq Hr]
        by (Z.div_mod_to_equations; lia).
      destruct (Z.lt_ge_cases (len - 16) 16) as [Hlast|Hmore].
      * assert ((len - 16) / 16 = 0) as Hq0 by (Z.div_mod_to_equations; lia).
        exists m1, (wrap64 (d + 16)), (wrap64 (s + 16)).
        destruct fuel; cbn [stream_loop];
          (destruct (Z.ltb_spec (len - 16) 16); [|lia]);
          (split; [rewrite Hr, Z.mod_small by lia; reflexivity|]);
          (split; [intros Hne; rewrite Hq, Hq0; rewrite !wrap64_small by
                     (rewrite Hr, Z.mod_small in Hne by lia; lia); lia|]);
          intros a; rewrite Hm1, Hq, Hq0; reflexivity.
      * rewrite !wrap64_small by lia.
        assert (Z.land (d + 16) 15 = 0 /\ Z.land (s + 16) 15 = 0) as [Hda' Hsa'].
        { rewrite !land_15 in *. Z.div_mod_to_equations. lia. }
        destruct (IH m1 (d + 16) (s + 16) (len - 16)) as (m' & d' & s' & Heq & Hds & Hm');
          try lia.
        exists m', d', s'. rewrite Heq, Hr. split; [reflexivity|]. split.
        { intros Hne. destruct (Hds Hne) as [-> ->]. lia. }
        intros a. rewrite Hm'.
        rewrite (memcpy_ext m1 (memcpy m d s 16)) by exact Hm1.
        rewrite memcpy_compose; [|lia|Z.div_mod_to_equations; lia|Z.div_mod_to_equations; lia].
        rewrite Hq. f_equal. lia.
Qed.

Lemma bytewise_copy_spec n :
  forall m d s,
    d + Z.of_nat n <= s \/ s + Z.of_nat n <= d ->
    forall a, bytewise_copy n m d s a = memcpy m d s (Z.of_nat n) a.
Proof.
  induction n as [|n IH]; intros m d s Hdis a; cbn [bytewise_copy].
  - symmetry. apply memcpy_zero.
  - rewrite IH by lia. unfold memcpy, poke. ranges.
Qed.

(** The vector loop followed by the copy of the tail. *)
Lemma aligned_copy fuel m d s len :
  0 <= d -> 0 <= s -> 0 <= len -> d + len <= 2 ^ 64 -> s + len <= 2 ^ 64 ->
  Z.land d 15 = 0 -> Z.land s 15 = 0 ->
  d + len <= s \/ s + len <= d ->
  (Z.to_nat (len / 16) <= fuel)%nat ->
  exists m',
    (do t <- stream_loop fuel m d s len;
     let '(m, d, s, len) := t in
     if negb (len =? 0) then Ok (memcpy m d s len) else Ok m) = Ok m'
    /\ forall a, m' a = memcpy m d s len a.
Proof.
  intros Hd Hs Hl Hdb Hsb Hda Hsa Hdis Hf.
  destruct (stream_loop_spec fuel m d s len) as (m1 & d1 & s1 & -> & Hds & Hm1); try assumption.
  cbn [bind]. pose proof (Z.div_mod len 16 ltac:(lia)) as Hdm.
  pose proof (Z.mod_pos_bound len 16 ltac:(lia)) as Hmb.
  destruct (Z.eqb_spec (len mod 16) 0) as [E|NE]; cbn [negb].
  - exists m1. split; [reflexivity|]. intros a. rewrite Hm1. f_equal. lia.
  - destruct (Hds NE) as [-> ->]. eexists. split; [reflexivity|]. intros a.
    rewrite (memcpy_ext m1 (memcpy m d s (16 * (len / 16)))) by exact Hm1.
    rewrite memcpy_compose by (try apply Z.mul_nonneg_nonneg; try apply Z.div_pos; lia).
    f_equal. lia.
Qed.

Lemma stream_loop_done fuel m d s len :
  len < 16 -> stream_loop fuel m d s len = Ok (m, d, s, len).
Proof. intros H. destruct fuel; cbn [stream_loop]; destruct (Z.ltb_spec len 16); auto; lia. Qed.

Lemma util_streaming_load_memcpy_ok fuel m dst src len :
  0 <= dst -> 0 <= src -> 0 <= len -> dst + len <= 2 ^ 64 -> src + len <= 2 ^ 64 ->
  dst + len <= src \/ src + len <= dst ->
  (Z.to_nat (len / 16) <= fuel)%nat ->
  exists m',
    util_streaming_load_memcpy fuel m dst src len = Ok m'
    /\ forall a, m' a = memcpy m dst src len a.
Proof.
  intros Hd Hs Hl Hdb Hsb Hdis Hf. unfold util_streaming_load_memcpy.
  destruct (Z.eqb_spec (Z.land dst 15) (Z.land src 15)) as [Hres|Hres]; cbn [negb].
  2: { eexists. split; reflexivity. }
  destruct (Z.eqb_spec (Z.land dst 15) 0) as [Hal|Hmis]; cbn [negb bind].
  - apply aligned_copy; try assumption. rewrite <- Hres. exact Hal.
  - rewrite (land_15 dst), (land_15 src) in *.
    pose proof (Z.mod_pos_bound dst 16 ltac:(lia)) as Hr.
    pose proof (Z.div_mod dst 16 ltac:(lia)) as Hdd.
    pose proof (Z.div_mod src 16 ltac:(lia)) as Hsd.
    set (r := dst mod 16) in *.
    destruct (Z.ltb_spec (16 - r) 16) as [_|]; [|lia].
    unfold align_uintptr. change (has_single_bit 16) with true. cbn [bind].
    destruct (Z.le_gt_cases len (16 - r)) as [Hshort|Hlong].
    + rewrite Z.min_r by lia. rewrite Z.sub_diag.
      rewrite stream_loop_done by lia. cbn [Z.eqb negb].
      eexists. split; reflexivity.
    + rewrite Z.min_l by lia.
      assert (dst + 15 < 2 ^ 64 /\ src + 15 < 2 ^ 64) as [Hd15 Hs15].
      { change (2 ^ 64) with (16 * 1152921504606846976) in *. clearbody r. lia. }
      rewrite !ALIGN_POT_16 by lia.
      assert (16 * ((dst + 15) / 16) = dst + (16 - r)) as -> by (Z.div_mod_to_equations; lia).
      assert (16 * ((src + 15) / 16) = src + (16 - r)) as -> by (Z.div_mod_to_equations; lia).
      destruct (aligned_copy fuel (memcpy m dst src (16 - r)) (dst + (16 - r)) (src + (16 - r))
                  (len - (16 - r))) as (m' & Heq & Hm'); try lia.
      * rewrite land_15. Z.div_mod_to_equations. lia.
      * rewrite land_15. Z.div_mod_to_equations. lia.
      * assert ((len - (16 - r)) / 16 <= len / 16) by (apply Z.div_le_mono; lia).
        assert (0 <= (len - (16 - r)) / 16) by (apply Z.div_pos; lia). lia.
      * exists m'. split; [exact Heq|]. intros a. rewrite Hm'.
        rewrite memcpy_compose by lia. f_equal. lia.
Qed.

(** C2. On buffers that do not overlap, whatever their alignment and the
    length, [util_streaming_load_memcpy] returns and leaves what a copy
    byte after byte leaves: the [len] bytes of the source in the
    destination, and every other byte as it was. *)
Theorem C2_streaming_copy_is_a_copy fuel m dst src len :
  0 <= dst -> 0 <= src -> 0 <= len -> dst + len <= 2 ^ 64 -> src + len <= 2 ^ 64 ->
  dst + len <= src \/ src + len <= dst ->
  (Z.to_nat (len / 16) <= fuel)%nat ->
  exists m',
    util_streaming_load_memcpy fuel m dst src len = Ok m'
    /\ (forall a, m' a = bytewise_copy (Z.to_nat len) m dst src a)
    /\ (forall i, 0 <= i < len -> m' (dst + i) = m (src + i))
    /\ (forall a, a < dst \/ dst + len <= a -> m' a = m a).
Proof.
  intros Hd Hs Hl Hdb Hsb Hdis Hf.
  destruct (util_streaming_load_memcpy_ok fuel m dst src len) as (m' & Heq & Hm'); try assumption.
  exists m'. split; [exact Heq|]. split; [|split].
  - intros a. rewrite bytewise_copy_spec by (rewrite Z2Nat.id by lia; exact Hdis).
    rewrite Z2Nat.id by lia. apply Hm'.
  - intros i Hi. rewrite Hm'. unfold memcpy. ranges.
  - intros a Ha. rewrite Hm'. unfold memcpy. ranges.
Qed.

Lemma C2_witness :
  exists m',
    util_streaming_load_memcpy 3 ramp 1003 4107 45 = Ok m'
    /\ (forall a, m' a = bytewise_copy (Z.to_nat 45) ramp 1003 4107 a)
    /\ (forall i, 0 <= i < 45 -> m' (1003 + i) = ramp (4107 + i))
    /\ (forall a, a < 1003 \/ 1003 + 45 <= a -> m' a = ramp a).
Proof.
  apply (C2_streaming_copy_is_a_copy 3 ramp 1003 4107 45); try lia.
  vm_compute. lia.
Defined.

(** ** [ForEachBufferInRange] (C10) *)

Lemma contained_page_is_covered b p :
  0 <= p -> CpuAddr b + SizeBytes b <= 2 ^ AddressSpaceBits ->
  0 <= CpuAddr b <= p * CACHING_PAGESIZE ->
  (p + 1) * CACHING_PAGESIZE <= CpuAddr b + SizeBytes b ->
  covers_page b p.
Proof.
  unfold covers_page. change CACHING_PAGESIZE with 4096. intros. lia.
Qed.

Lemma next_page_after b p :
  covers_page b p ->
  DivCeil (wrap64 (CpuAddr b + SizeBytes b)) CACHING_PAGESIZE
  = (CpuAddr b + SizeBytes b + 4095) / 4096
  /\ p < (CpuAddr b + SizeBytes b + 4095) / 4096
  /\ p * 4096 < CpuAddr b + SizeBytes b <= 4096 * ((CpuAddr b + SizeBytes b + 4095) / 4096).
Proof.
  unfold covers_page, DivCeil. change CACHING_PAGESIZE with 4096.
  change (2 ^ AddressSpaceBits) with 1099511627776.
  intros (H1 & H2 & H3 & H4 & H5).
  assert (2 ^ 64 = 18446744073709551616) as E by reflexivity.
  rewrite (wrap64_small (CpuAddr b + SizeBytes b)) by lia.
  replace (CpuAddr b + SizeBytes b + 4096 - 1) with (CpuAddr b + SizeBytes b + 4095) by lia.
  rewrite wrap64_small by lia. split; [reflexivity|].
  Z.div_mod_to_equations. lia.
Qed.

Lemma ForEachBufferInRange_loop_spec {S : Type} (func : BufferId -> Buffer -> S -> S)
    (page_table : gmap Z Z) (slot_buffers : gmap Z Buffer) page_end fuel :
  table_covered page_table slot_buffers ->
  page_end < 2 ^ 63 ->
  forall page s,
    0 <= page -> (Z.to_nat (page_end - page) <= fuel)%nat ->
    exists visits,
      ForEachBufferInRange_loop fuel page_table slot_buffers page page_end func s
      = Ok (visit_all func visits s)
      /\ Forall (fun v => page <= v_page v < page_end
                          /\ page_table !! v_page v = Some (v_id v)
                          /\ slot_buffers !! v_id v = Some (v_buffer v)) visits
      /\ StronglySorted (fun v1 v2 => v_page v1 < next_page v1 <= v_page v2) visits.
Proof.
  intros Hcov Hend. induction fuel as [|fuel IH]; intros page s Hp Hf.
  - exists []. cbn [ForEachBufferInRange_loop]. destruct (Z.ltb_spec page page_end); [lia|].
    split; [reflexivity|]. split; constructor.
  - cbn [ForEachBufferInRange_loop]. destruct (Z.ltb_spec page page_end) as [Hlt|Hge].
    2: { exists []. split; [reflexivity|]. split; constructor. }
    destruct (page_table !! page) as [id|] eqn:Hpt; cbv beta iota.
    + destruct (Hcov page id Hpt) as (b & Hsb & Hb). rewrite Hsb.
      destruct (next_page_after b page Hb) as (Hnext & Hgt & Hrange). rewrite Hnext.
      set (np := (CpuAddr b + SizeBytes b + 4095) / 4096) in *.
      destruct (IH np (func id b s) ltac:(lia) ltac:(lia)) as (visits & Heq & HF & HS).
      exists (mkVisit page id b :: visits). split; [exact Heq|]. split.
      * constructor; [cbn; auto with lia|].
        eapply Forall_impl; [exact HF|]. cbn beta. intros v (H1 & H2 & H3).
        split; [lia|auto].
      * constructor; [exact HS|].
        eapply Forall_impl; [exact HF|]. cbn beta. intros v (H1 & _).
        unfold next_page. cbn [v_page v_buffer]. rewrite Hnext. fold np. lia.
    + assert (2 ^ 64 = 18446744073709551616) as E by reflexivity.
      assert (2 ^ 63 = 9223372036854775808) as E' by reflexivity.
      rewrite wrap64_small by lia.
      destruct (IH (page + 1) s ltac:(lia) ltac:(lia)) as (visits & Heq & HF & HS).
      exists visits. split; [exact Heq|]. split; [|exact HS].
      eapply Forall_impl; [exact HF|]. cbn beta. intros v (H1 & H2). split; [lia|auto].
Qed.

Lemma DivCeil_bound x : 0 <= DivCeil (wrap64 x) CACHING_PAGESIZE < 2 ^ 63.
Proof.
  unfold DivCeil. change CACHING_PAGESIZE with 4096.
  pose proof (wrap64_range (wrap64 x + 4096 - 1)) as H.
  assert (2 ^ 64 = 18446744073709551616) as E by reflexivity.
  assert (2 ^ 63 = 9223372036854775808) as E' by reflexivity.
  Z.div_mod_to_equations. lia.
Qed.

(** C10. When every entry of the page table that is not null names a
    buffer covering the page of the entry, [ForEachBufferInRange] returns
    on every range (one unit of fuel per page of the range is enough): the
    cursor moves forward at every step, past the end of each buffer it
    visits, and no buffer is handed to the callback twice. *)
Theorem C10_each_buffer_is_visited_once {S : Type} (func : BufferId -> Buffer -> S -> S)
    (page_table : gmap Z Z) (slot_buffers : gmap Z Buffer) device_addr size fuel s :
  table_covered page_table slot_buffers ->
  (Z.to_nat (DivCeil (wrap64 (device_addr + size)) CACHING_PAGESIZE
             - Z.shiftr (wrap64 device_addr) CACHING_PAGEBITS) <= fuel)%nat ->
  exists visits,
    ForEachBufferInRange fuel page_table slot_buffers device_addr size func s
    = Ok (visit_all func visits s)
    /\ Forall (fun v => Z.shiftr (wrap64 device_addr) CACHING_PAGEBITS <= v_page v
                        /\ v_page v < DivCeil (wrap64 (device_addr + size)) CACHING_PAGESIZE
                        /\ page_table !! v_page v = Some (v_id v)
                        /\ slot_buffers !! v_id v = Some (v_buffer v)) visits
    /\ StronglySorted (fun v1 v2 => v_page v1 < next_page v1 <= v_page v2) visits
    /\ NoDup (map v_id visits).
Proof.
  intros Hcov Hf. unfold ForEachBufferInRange.
  destruct (ForEachBufferInRange_loop_spec func page_table slot_buffers
              (DivCeil (wrap64 (device_addr + size)) CACHING_PAGESIZE) fuel Hcov
              (proj2 (DivCeil_bound _))
              (Z.shiftr (wrap64 device_addr) CACHING_PAGEBITS) s)
    as (visits & Heq & HF & HS).
  { apply Z.shiftr_nonneg. apply wrap64_range. }
  { exact Hf. }
  exists visits. split; [exact Heq|]. split; [|split; [exact HS|]].
  - eapply Forall_impl; [exact HF|]. cbn beta. intros v ((H1 & H2) & H3 & H4). auto.
  - clear Heq. induction HS as [|v visits HS IH Hafter]; [constructor|].
    apply Forall_cons in HF as [(_ & Hpt & Hsb) HF].
    cbn [map]. apply NoDup_cons. split; [|apply IH; exact HF].
    intros Hin. apply list_elem_of_fmap in Hin as (v' & Hid & Hin').
    rewrite Forall_forall in Hafter, HF.
    specialize (Hafter _ Hin'). destruct (HF _ Hin') as (_ & Hpt' & Hsb').
    rewrite <- Hid, Hsb in Hsb'. inversion Hsb' as [Hbuf].
    destruct (Hcov _ _ Hpt') as (b' & Hsb2 & Hb').
    rewrite <- Hid, Hsb in Hsb2. inversion Hsb2; subst b'.
    destruct (Hcov _ _ Hpt) as (b & Hsb3 & Hb). rewrite Hsb in Hsb3. inversion Hsb3; subst b.
    destruct (next_page_after _ _ Hb) as (Hn & _ & Hr).
    destruct (next_page_after _ _ Hb') as (_ & _ & Hr').
    unfold next_page in Hafter. rewrite Hn in Hafter. lia.
Qed.

Lemma two_buffers_covered : table_covered two_buffers_table two_buffers_slots.
Proof.
  assert (forall p, 4 <= p <= 6 -> covers_page (mkBuffer 16384 12288) p) as H1.
  { intros p Hp. unfold covers_page. cbn [CpuAddr SizeBytes].
    change CACHING_PAGESIZE with 4096. change (2 ^ AddressSpaceBits) with 1099511627776. lia. }
  assert (covers_page (mkBuffer 36864 4096) 9) as H2.
  { unfold covers_page. cbn [CpuAddr SizeBytes].
    change CACHING_PAGESIZE with 4096. change (2 ^ AddressSpaceBits) with 1099511627776. lia. }
  assert (two_buffers_slots !! 1 = Some (mkBuffer 16384 12288)) as S1
    by (unfold two_buffers_slots; apply lookup_insert_eq).
  assert (two_buffers_slots !! 2 = Some (mkBuffer 36864 4096)) as S2
    by (unfold two_buffers_slots; rewrite lookup_insert_ne by lia; apply lookup_insert_eq).
  intros p id Hp. unfold two_buffers_table in Hp.
  apply lookup_insert_Some in Hp as [[<- <-]|[_ Hp]]; [eexists; split; [exact S1|apply H1; lia]|].
  apply lookup_insert_Some in Hp as [[<- <-]|[_ Hp]]; [eexists; split; [exact S1|apply H1; lia]|].
  apply lookup_insert_Some in Hp as [[<- <-]|[_ Hp]]; [eexists; split; [exact S1|apply H1; lia]|].
  apply lookup_insert_Some in Hp as [[<- <-]|[_ Hp]]; [eexists; split; [exact S2|exact H2]|].
  rewrite lookup_empty in Hp. discriminate.
Qed.

Lemma C10_witness :
  exists visits,
    ForEachBufferInRange 16 two_buffers_table two_buffers_slots 0 65536
      (fun id _ acc => acc ++ [id]) []
    = Ok (visit_all (fun id _ acc => acc ++ [id]) visits [])
    /\ Forall (fun v => Z.shiftr (wrap64 0) CACHING_PAGEBITS <= v_page v
                        /\ v_page v < DivCeil (wrap64 (0 + 65536)) CACHING_PAGESIZE
                        /\ two_buffers_table !! v_page v = Some (v_id v)
                        /\ two_buffers_slots !! v_id v = Some (v_buffer v)) visits
    /\ StronglySorted (fun v1 v2 => v_page v1 < next_page v1 <= v_page v2) visits
    /\ NoDup (map v_id visits).
Proof.
  apply (C10_each_buffer_is_visited_once (fun id _ acc => acc ++ [id])
           two_buffers_table two_buffers_slots 0 65536 16 []).
  - exact two_buffers_covered.
  - vm_compute. lia.
Defined.

(** ** [ExtractBits] on any word *)

Lemma shift_guard n : 0 <= n < 64 -> (0 <=? n) && (n <? 64) = true.
Proof. intros H. apply andb_true_iff. rewrite Z.leb_le, Z.ltb_lt. exact H. Qed.

(** X1. [ExtractBits(word, page_start, page_end)] keeps the bits
    [page_start .. page_end) of the word and clears the others; it shifts
    by 64, which is undefined, when [page_start] is 64 or more or
    [page_end] is 0. *)
Theorem X1_ExtractBits_keeps_the_pages_between word page_start page_end :
  0 <= word < 2 ^ 64 -> 0 <= page_start -> 0 <= page_end ->
  (page_start < 64 -> 1 <= page_end ->
     exists bits,
       ExtractBits word page_start page_end = Ok bits
       /\ 0 <= bits < 2 ^ 64
       /\ forall b, Z.testbit bits b
                    = Z.testbit word b && (page_start <=? b) && (b <? page_end))
  /\ (64 <= page_start \/ page_end = 0 ->
      ExtractBits word page_start page_end = Err BadShift).
Proof.
  intros Hw Hps Hpe. split.
  - intros Hlt Hge. unfold ExtractBits, shr64, shl64.
    assert (0 <= 64 - Z.min page_end 64 < 64) as Hl by lia.
    set (l := 64 - Z.min page_end 64) in *.
    rewrite (shift_guard page_start), (shift_guard l) by lia. cbn [bind].
    eexists. split; [reflexivity|].
    assert (forall b, Z.testbit
              (Z.shiftr (wrap64 (Z.shiftl (wrap64 (Z.shiftl (Z.shiftr word page_start) page_start)) l)) l) b
            = Z.testbit word b && (page_start <=? b) && (b <? page_end)) as Hbits.
    { intros b. destruct (Z.lt_ge_cases b 0) as [Hneg|Hb].
      - rewrite !Z.testbit_neg_r by lia. reflexivity.
      - rewrite Z.shiftr_spec, wrap64_bit, Z.shiftl_spec, wrap64_bit by lia.
        replace (b + l - l) with b by lia.
        destruct (Z.lt_ge_cases b page_start) as [Hlo|Hhi].
        + rewrite Z.shiftl_spec, Z.testbit_neg_r by lia.
          destruct (Z.leb_spec page_start b); [lia|]. rewrite !andb_false_r. reflexivity.
        + rewrite Z.shiftl_spec, Z.shiftr_spec by lia.
          replace (b - page_start + page_start) with b by lia.
          destruct (Z.lt_ge_cases b 64) as [Hin|Hout].
          * destruct (Z.ltb_spec (b + l) 64), (Z.ltb_spec b 64), (Z.leb_spec page_start b),
              (Z.ltb_spec b page_end); cbn [andb]; rewrite ?andb_true_r, ?andb_false_r;
              try reflexivity; lia.
          * rewrite (bound_bits word 64 b) by lia. rewrite !andb_false_r. reflexivity. }
    split; [|exact Hbits].
    apply u64_of_bits. intros b Hb. rewrite Hbits, (bound_bits word 64 b) by lia. reflexivity.
  - intros [Hbig|Hzero]; unfold ExtractBits, shr64, shl64.
    + destruct (Z.ltb_spec page_start 64); [lia|]. rewrite andb_false_r. reflexivity.
    + subst page_end. change (64 - Z.min 0 64) with 64.
      destruct (Z.leb_spec 0 page_start), (Z.ltb_spec page_start 64); cbn; try reflexivity; lia.
Qed.

Lemma X1_witness :
  (3 < 64 -> 1 <= 9 ->
     exists bits,
       ExtractBits 65535 3 9 = Ok bits
       /\ 0 <= bits < 2 ^ 64
       /\ forall b, Z.testbit bits b = Z.testbit 65535 b && (3 <=? b) && (b <? 9))
  /\ (64 <= 3 \/ 9 = 0 -> ExtractBits 65535 3 9 = Err BadShift).
Proof. apply (X1_ExtractBits_keeps_the_pages_between 65535 3 9); lia. Defined.

(** ** [GetWordPage] *)

(** X2. [GetWordPage] splits an address of the region into the word and
    the page inside the word: the page is below 64, and the address lies
    in page [word * 64 + page] of the region. *)
Theorem X2_GetWordPage_splits_the_page_number address :
  0 <= address ->
  let '(word_number, page) := GetWordPage address in
  0 <= word_number /\ 0 <= page < PAGES_PER_WORD
  /\ address / BYTES_PER_PAGE = word_number * PAGES_PER_WORD + page
  /\ forall w p r, 0 <= p < PAGES_PER_WORD -> 0 <= r < BYTES_PER_PAGE ->
       address = w * BYTES_PER_WORD + p * BYTES_PER_PAGE + r ->
       word_number = w /\ page = p.
Proof.
  intros Ha. unfold GetWordPage. consts.
  split; [apply Z.div_pos; lia|].
  split; [Z.div_mod_to_equations; lia|].
  split; [Z.div_mod_to_equations; lia|].
  intros w p r Hp Hr Heq. Z.div_mod_to_equations. lia.
Qed.

Lemma X2_witness :
  let '(word_number, page) := GetWordPage 1000000 in
  0 <= word_number /\ 0 <= page < PAGES_PER_WORD
  /\ 1000000 / BYTES_PER_PAGE = word_number * PAGES_PER_WORD + page
  /\ forall w p r, 0 <= p < PAGES_PER_WORD -> 0 <= r < BYTES_PER_PAGE ->
       1000000 = w * BYTES_PER_WORD + p * BYTES_PER_PAGE + r ->
       word_number = w /\ page = p.
Proof. apply (X2_GetWordPage_splits_the_page_number 1000000). lia. Defined.

(** ** [IteratePages] on any mask *)

Lemma bit_runs_full : bit_runs (2 ^ 64 - 1) = [(0, 64)].
Proof. vm_compute. reflexivity. Qed.

(** X3. [IteratePages(mask, func)] returns for every mask, and calls
    [func(offset, size)] once for each maximal run of set bits of the
    mask, in ascending order, and for nothing else: no call for the
    empty mask, one call [(0, 64)] for the full one. *)
Theorem X3_IteratePages_calls_once_per_run {S : Type} mask (func : Z -> Z -> S -> S) s :
  0 <= mask < 2 ^ 64 ->
  exists L,
    IteratePages mask func s = Ok (fold_left (fun s r => func (fst r) (snd r) s) L s)
    /\ Forall (fun r => 0 <= fst r /\ 0 < snd r /\ fst r + snd r <= PAGES_PER_WORD) L
    /\ StronglySorted apart L
    /\ (forall o n, (o, n) ∈ L <-> maximal_run (Z.testbit mask) o n)
    /\ (mask = 0 -> L = [])
    /\ (mask = 2 ^ 64 - 1 -> L = [(0, 64)]).
Proof.
  intros Hm.
  destruct (bit_runs_spec mask Hm) as (Hin & Hsort & _).
  pose proof (bit_runs_maximal mask Hm) as Hmax.
  pose proof (IteratePages_runs mask func s Hm) as Hrun.
  assert (mask = 0 -> bit_runs mask = []) as Hzero by (intros ->; exact bit_runs_zero).
  assert (mask = 2 ^ 64 - 1 -> bit_runs mask = [(0, 64)]) as Hfull
    by (intros ->; exact bit_runs_full).
  revert Hin Hsort Hmax Hrun Hzero Hfull. generalize (bit_runs mask). intros L.
  intros Hin Hsort Hmax Hrun Hzero Hfull. exists L. unfold feed in Hrun. auto 10.
Qed.

Lemma X3_witness :
  exists L,
    IteratePages 412 (fun o n acc => acc ++ [(o, n)]) []
    = Ok (fold_left (fun s r => (fun o n acc => acc ++ [(o, n)]) (fst r) (snd r) s) L [])
    /\ Forall (fun r => 0 <= fst r /\ 0 < snd r /\ fst r + snd r <= PAGES_PER_WORD) L
    /\ StronglySorted apart L
    /\ (forall o n, (o, n) ∈ L <-> maximal_run (Z.testbit 412) o n)
    /\ (412 = 0 -> L = [])
    /\ (412 = 2 ^ 64 - 1 -> L = [(0, 64)]).
Proof.
  apply (X3_IteratePages_calls_once_per_run 412 (fun o n acc => acc ++ [(o, n)]) []). lia.
Defined.

(** ** [IterateWords] *)

Lemma positive_of_bit x b : 0 <= x -> Z.testbit x b = true -> 0 < x.
Proof.
  intros Hx Hb. destruct (Z.eq_dec x 0) as [->|]; [|lia].
  rewrite Z.bits_0 in Hb. discriminate.
Qed.

(** X4. [IterateWords(offset, size, func)] calls [func(index, mask)] for
    the words that hold a page of the clamped range, in ascending order
    of the index and until [func] breaks: every index is below 16, every
    mask is not empty and has exactly the bits of the pages of the range,
    and no word holding a page of the range is left out. *)
Theorem X4_IterateWords_visits_the_words_of_the_range {S : Type} offset size
    (func : Z -> Z -> S -> result (bool * S)) s :
  exists W,
    IterateWords offset size func s = run_words func W s
    /\ StronglySorted Z.lt (map fst W)
    /\ Forall (fun im =>
                 0 <= fst im < NUM_REGION_WORDS /\ 0 < snd im < 2 ^ 64
                 /\ forall b, 0 <= b < PAGES_PER_WORD ->
                      Z.testbit (snd im) b
                      = in_query offset size (fst im * PAGES_PER_WORD + b)) W
    /\ (forall p, in_query offset size p = true ->
          exists m, (p / PAGES_PER_WORD, m) ∈ W).
Proof.
  exists (query_words offset size).
  split; [apply IterateWords_words|]. rewrite query_words_map.
  split.
  { rewrite map_map. cbn [fst]. rewrite map_id. apply query_indices_sorted. }
  split.
  - apply Forall_forall. intros [i m] Him. apply list_elem_of_fmap in Him as (j & Heq & Hj).
    inversion Heq; subst i m; clear Heq. cbn [fst snd].
    split; [apply (query_indices_bounds _ _ _ Hj)|].
    pose proof (query_mask_range offset size j) as Hr.
    split; [split; [|lia]|].
    + apply query_indices_spec in Hj as (p & Hq & ->).
      apply (positive_of_bit _ (p mod 64)); [lia|].
      rewrite query_mask_bit by (apply Z.mod_pos_bound; lia).
      consts. rewrite <- Hq. f_equal. rewrite Z.mul_comm. symmetry. apply Z.div_mod. lia.
    + intros b Hb. apply query_mask_bit. exact Hb.
  - intros p Hq. exists (query_mask offset size (p / PAGES_PER_WORD)).
    apply (list_elem_of_fmap_2 (fun i => (i, query_mask offset size i))).
    apply query_indices_spec. eauto.
Qed.

(** ** [IsRegionModified] *)

Lemma in_query_plain offset size p :
  0 <= offset -> 0 < size -> offset + size < 2 ^ 63 ->
  in_query offset size p = true
  <-> offset / BYTES_PER_PAGE <= p <= (offset + size - 1) / BYTES_PER_PAGE
      /\ p < NUM_REGION_PAGES.
Proof.
  intros Ho Hs Hb. rewrite in_query_spec. unfold first_page, end_page.
  destruct (range_of_plain offset size) as [-> ->]; try lia.
  consts. split; intros H; repeat split; Z.div_mod_to_equations; lia.
Qed.

(** X5. [IsRegionModified<type>(offset, size)] answers true exactly when
    one of the pages of the region that the byte range
    [offset, offset + size) meets is modified on that side. *)
Theorem X5_IsRegionModified_finds_a_modified_page type offset size rm :
  well_formed rm -> 0 <= offset -> 0 < size -> offset + size < 2 ^ 63 ->
  exists r,
    IsRegionModified type offset size rm = Ok r
    /\ (r = true <->
        exists p, offset / BYTES_PER_PAGE <= p <= (offset + size - 1) / BYTES_PER_PAGE
                  /\ p < NUM_REGION_PAGES /\ modified type rm p = true).
Proof.
  intros Hwf Ho Hs Hb.
  destruct (IsRegionModified_pages type offset size rm Hwf) as (r & Heq & Hr).
  exists r. split; [exact Heq|]. rewrite Hr.
  split; intros (p & Hp & Hm); exists p.
  - rewrite in_query_plain in Hp by lia. tauto.
  - rewrite in_query_plain by lia. tauto.
Qed.

Lemma X5_witness :
  exists r,
    IsRegionModified CPU 100 8000 (region pages_23478) = Ok r
    /\ (r = true <->
        exists p, 100 / BYTES_PER_PAGE <= p <= (100 + 8000 - 1) / BYTES_PER_PAGE
                  /\ p < NUM_REGION_PAGES /\ modified CPU (region pages_23478) p = true).
Proof.
  apply (X5_IsRegionModified_finds_a_modified_page CPU 100 8000 (region pages_23478));
    [vm_compute; auto|lia..].
Defined.

(** ** Marking, then asking *)

(** X6. After [ChangeRegionState<type, is_dirty>] on a range that is not
    empty and starts inside the region, [IsRegionModified<type>] on the
    same range answers [is_dirty]. *)
Theorem X6_query_after_marking type is_dirty addr size st :
  well_formed (region st) ->
  cpu_addr (region st) <= addr -> addr - cpu_addr (region st) < HIGHER_PAGE_SIZE ->
  0 < size -> addr - cpu_addr (region st) + size < 2 ^ 63 ->
  exists st',
    ChangeRegionState type is_dirty addr size st = Ok st'
    /\ IsRegionModified type (addr - cpu_addr (region st)) size (region st') = Ok is_dirty.
Proof.
  intros Hwf Hlo Hhi Hs Hb.
  destruct (ChangeRegionState_region type is_dirty addr size st Hwf) as (st' & Heq & Hreg).
  exists st'. split; [exact Heq|].
  assert (wrap64 (addr - cpu_addr (region st)) = addr - cpu_addr (region st)) as Hoff
    by (apply wrap64_small; consts; lia).
  rewrite Hoff in Hreg. set (off := addr - cpu_addr (region st)) in *.
  assert (well_formed (region st')) as Hwf' by (rewrite Hreg; apply region_after_wf; exact Hwf).
  destruct (IsRegionModified_pages type off size (region st') Hwf') as (r & -> & Hr).
  f_equal.
  assert (forall p, in_query off size p = true -> modified type (region st') p = is_dirty) as Hm.
  { intros p Hq. rewrite Hreg.
    pose proof (region_after_marked type is_dirty off size (region st) p Hwf Hq) as H.
    unfold marked in H. destruct type; tauto. }
  destruct is_dirty.
  - apply Hr. exists (off / BYTES_PER_PAGE).
    assert (in_query off size (off / BYTES_PER_PAGE) = true) as Hq.
    { apply in_query_plain; try lia. consts. Z.div_mod_to_equations. lia. }
    split; [exact Hq|apply Hm; exact Hq].
  - destruct r; [|reflexivity]. destruct Hr as [Hr _].
    destruct (Hr eq_refl) as (p & Hq & Hp). rewrite (Hm p Hq) in Hp. discriminate.
Qed.

Lemma X6_witness :
  exists st',
    ChangeRegionState GPU true 12288 8192 gpu_marked = Ok st'
    /\ IsRegionModified GPU (12288 - cpu_addr (region gpu_marked)) 8192 (region st') = Ok true.
Proof.
  apply (X6_query_after_marking GPU true 12288 8192 gpu_marked);
    [vm_compute; auto|vm_compute; discriminate|vm_compute; reflexivity|lia|vm_compute; reflexivity].
Defined.

(** ** What an operation leaves alone *)

Lemma calls_protection_events add rd c i acc m : calls (protection_events add rd c i acc m) = [].
Proof.
  unfold protection_events. generalize (bit_runs (changed_bits add acc m)).
  intros l. induction l; cbn; auto.
Qed.

Lemma calls_change_events type d rm i m : calls (change_events type d rm i m) = [].
Proof.
  unfold change_events. destruct type; rewrite ?calls_app, !calls_protection_events; reflexivity.
Qed.

Lemma calls_flat_map_nil {A : Type} (f : A -> list Event) (l : list A) :
  (forall x, calls (f x) = []) -> calls (flat_map f l) = [].
Proof.
  intros H. induction l as [|x l IH]; [reflexivity|].
  rewrite flat_map_cons, calls_app, H, IH. reflexivity.
Qed.

Lemma query_indices_in_array offset size (a : WordsArray) :
  length a = Z.to_nat NUM_REGION_WORDS ->
  Forall (fun i => 0 <= i < Z.of_nat (length a)) (query_indices offset size).
Proof.
  intros Ha. apply Forall_forall. intros i Hi. apply query_indices_bounds in Hi.
  rewrite Ha. consts. lia.
Qed.

(** X7. [ChangeRegionState<CPU, _>] writes the arrays [cpu] and [write]
    only, [ChangeRegionState<GPU, _>] never writes [cpu], and neither
    invokes a callback; [ForEachModifiedRange<CPU, _>] never writes [gpu]
    or [read], [ForEachModifiedRange<GPU, _>] never writes [cpu] or
    [write], and without [clear] the walk leaves the whole region as it
    was and sends nothing to the tracker. No operation moves the region. *)
Theorem X7_operations_keep_to_their_side type flag addr size st :
  well_formed (region st) ->
  (exists st',
     ChangeRegionState type flag addr size st = Ok st'
     /\ cpu_addr (region st') = cpu_addr (region st)
     /\ match type with
        | CPU => gpu (region st') = gpu (region st) /\ read (region st') = read (region st)
        | GPU => cpu (region st') = cpu (region st)
        end
     /\ calls (trace st') = calls (trace st))
  /\ (exists st',
        ForEachModifiedRange type flag addr size st = Ok st'
        /\ cpu_addr (region st') = cpu_addr (region st)
        /\ match type with
           | CPU => gpu (region st') = gpu (region st) /\ read (region st') = read (region st)
           | GPU => cpu (region st') = cpu (region st) /\ write (region st') = write (region st)
           end
        /\ (flag = false ->
            region st' = region st /\ watches (trace st') = watches (trace st))).
Proof.
  intros Hwf. pose proof Hwf as (Hlc & Hlg & Hlw & Hlr). split.
  - destruct (ChangeRegionState_trace type flag addr size st Hwf) as (st' & Heq & Hreg & Htr).
    exists st'. split; [exact Heq|]. rewrite Hreg, Htr. split; [reflexivity|]. split.
    + unfold region_after.
      destruct type, flag; cbn [change_effect e_cpu e_gpu e_write e_read cpu gpu write read];
        rewrite ?array_after_keep by (apply query_indices_in_array; assumption); auto.
    + rewrite calls_app, calls_flat_map_nil, app_nil_r; [reflexivity|].
      intros i. apply calls_change_events.
  - destruct (ForEachModifiedRange_ok type flag addr size st Hwf) as [Heq _].
    eexists. split; [exact Heq|]. rewrite finish_region, walk_all_region.
    split; [reflexivity|]. split.
    + unfold region_after.
      destruct type, flag; cbn [walk_effect e_cpu e_gpu e_write e_read cpu gpu write read];
        rewrite ?array_after_keep by (apply query_indices_in_array; assumption); auto.
    + intros ->. split.
      * unfold region_after. cbn [walk_effect e_cpu e_gpu e_write e_read].
        rewrite !array_after_keep by (apply query_indices_in_array; assumption).
        destruct (region st); reflexivity.
      * rewrite finish_watches. unfold walk_all. rewrite query_words_map.
        rewrite (walk_fold_watches type false _ (region st));
          [|apply query_indices_NoDup|apply query_indices_nonneg|reflexivity|auto].
        cbn [walk_state trace]. rewrite flat_map_nil; [apply app_nil_r|].
        intros i _. destruct type; reflexivity.
Qed.

Lemma X7_witness :
  (exists st',
     ChangeRegionState GPU true 4096 8192 gpu_marked = Ok st'
     /\ cpu_addr (region st') = cpu_addr (region gpu_marked)
     /\ cpu (region st') = cpu (region gpu_marked)
     /\ calls (trace st') = calls (trace gpu_marked))
  /\ (exists st',
        ForEachModifiedRange GPU true 4096 8192 gpu_marked = Ok st'
        /\ cpu_addr (region st') = cpu_addr (region gpu_marked)
        /\ (cpu (region st') = cpu (region gpu_marked)
            /\ write (region st') = write (region gpu_marked))
        /\ (true = false ->
            region st' = region gpu_marked
            /\ watches (trace st') = watches (trace gpu_marked))).
Proof.
  apply (X7_operations_keep_to_their_side GPU true 4096 8192 gpu_marked).
  vm_compute. auto.
Defined.

(** ** Doing it twice *)

Lemma upd_word_twice u w m : upd_word u (upd_word u w m) m = upd_word u w m.
Proof.
  destruct u; cbn [upd_word]; [reflexivity| |].
  - rewrite <- Z.lor_assoc, Z.lor_diag. reflexivity.
  - rewrite <- Z.land_assoc, Z.land_diag. reflexivity.
Qed.

Lemma array_after_twice u g ixs (a : WordsArray) :
  NoDup ixs -> Forall (fun i => 0 <= i < Z.of_nat (length a)) ixs ->
  array_after u g ixs (array_after u g ixs a) = array_after u g ixs a.
Proof.
  intros Hnd Hb. apply array_ext; [rewrite !array_after_length; reflexivity|].
  intros j Hj. destruct (decide (j ∈ ixs)) as [Hin|Hout].
  - rewrite (array_after_in u g ixs (array_after u g ixs a));
      [|exact Hnd|rewrite array_after_length; exact Hb|exact Hin].
    rewrite array_after_in by assumption. apply upd_word_twice.
  - rewrite array_after_out; [reflexivity| |exact Hout].
    eapply Forall_impl; [exact Hb|]. cbn beta. intros; lia.
Qed.

Lemma region_after_twice e offset size rm :
  well_formed rm ->
  region_after e offset size (region_after e offset size rm) = region_after e offset size rm.
Proof.
  intros (Hc & Hg & Hw & Hr). unfold region_after. cbn [cpu_addr cpu gpu write read].
  rewrite !array_after_twice
    by (try apply query_indices_NoDup; apply query_indices_in_array; assumption).
  reflexivity.
Qed.

Lemma changed_bits_cleared w m :
  0 <= m < 2 ^ 64 -> changed_bits true (Z.land w (not64 m)) m = 0.
Proof.
  intros Hm. unfold changed_bits. apply Z.bits_inj'. intros b Hb.
  rewrite !Z.land_spec, not64_bit, Z.bits_0.
  destruct (Z.testbit w b), (Z.testbit m b), (0 <=? b), (b <? 64); reflexivity.
Qed.

(** After an update of the word, the notification the same update would
    ask for is empty. *)
Lemma protection_events_settled add rd c i w m :
  0 <= m < 2 ^ 64 ->
  protection_events add rd c i (upd_word (if add then ClearBits else SetBits) w m) m = [].
Proof.
  intros Hm. unfold protection_events.
  destruct add; cbn [upd_word];
    rewrite ?changed_bits_cleared, ?changed_bits_covered by exact Hm;
    rewrite bit_runs_zero; reflexivity.
Qed.

(** X8. Every [ChangeRegionState<type, is_dirty>] is idempotent: called
    again on the same range it returns the state the first call left,
    the arrays as they were and nothing more sent to the tracker. *)
Theorem X8_ChangeRegionState_twice_is_once type is_dirty addr size st :
  well_formed (region st) ->
  exists st1,
    ChangeRegionState type is_dirty addr size st = Ok st1
    /\ ChangeRegionState type is_dirty addr size st1 = Ok st1.
Proof.
  intros Hwf.
  destruct (ChangeRegionState_trace type is_dirty addr size st Hwf)
    as (st1 & Heq1 & Hreg1 & Htr1).
  exists st1. split; [exact Heq1|].
  assert (well_formed (region st1)) as Hwf1 by (rewrite Hreg1; apply region_after_wf; exact Hwf).
  destruct (ChangeRegionState_trace type is_dirty addr size st1 Hwf1)
    as (st2 & Heq2 & Hreg2 & Htr2).
  rewrite Heq2. f_equal.
  assert (cpu_addr (region st1) = cpu_addr (region st)) as Hc by (rewrite Hreg1; reflexivity).
  rewrite Hc in Hreg2, Htr2.
  set (off := wrap64 (addr - cpu_addr (region st))) in *.
  assert (region st2 = region st1) as Hreg
    by (rewrite Hreg2, Hreg1; apply region_after_twice; exact Hwf).
  assert (trace st2 = trace st1) as Htr.
  { rewrite Htr2. rewrite flat_map_nil; [apply app_nil_r|].
    intros i Hi. pose proof (query_mask_range off size i) as Hm.
    destruct Hwf as (Hlc & Hlg & Hlw & Hlr).
    unfold change_events. rewrite Hreg1. unfold region_after.
    destruct type, is_dirty; cbn [change_effect e_cpu e_gpu e_write e_read write read cpu_addr negb];
      rewrite !array_after_in
        by (try apply query_indices_NoDup; try apply query_indices_in_array; assumption).
    - apply (protection_events_settled false). exact Hm.
    - apply (protection_events_settled true). exact Hm.
    - rewrite (protection_events_settled true), (protection_events_settled true) by exact Hm.
      reflexivity.
    - rewrite (protection_events_settled true), (protection_events_settled false) by exact Hm.
      reflexivity. }
  destruct st2 as [r2 t2], st1 as [r1 t1]. cbn [region trace] in Hreg, Htr. congruence.
Qed.

Lemma X8_witness :
  exists st1,
    ChangeRegionState GPU false 0 12288 gpu_marked = Ok st1
    /\ ChangeRegionState GPU false 0 12288 st1 = Ok st1.
Proof.
  apply (X8_ChangeRegionState_twice_is_once GPU false 0 12288 gpu_marked).
  vm_compute. auto.
Defined.

Lemma calls_watches_nil (l : list Event) : calls l = [] -> watches l = [] -> l = [].
Proof.
  destruct l as [|e l]; [reflexivity|]. intros Hc Hw. destruct e; discriminate.
Qed.

(** The trace of a walk: what it adds, callbacks and notifications apart. *)
Lemma walk_trace type clear addr size st :
  well_formed (region st) ->
  exists st' new L,
    ForEachModifiedRange type clear addr size st = Ok st'
    /\ region st' = region_after (walk_effect type clear)
                      (wrap64 (addr - cpu_addr (region st))) (wrap64 size) (region st)
    /\ trace st' = trace st ++ new
    /\ calls new = map (call_of (cpu_addr (region st))) L
    /\ Forall good L
    /\ (forall p, (exists s n, (s, n) ∈ L /\ s <= p < s + n)
                  <-> in_query (wrap64 (addr - cpu_addr (region st))) (wrap64 size) p = true
                      /\ modified type (region st) p = true)
    /\ watches new
       = flat_map (fun i => walk_events type clear (region st) i
                              (query_mask (wrap64 (addr - cpu_addr (region st))) (wrap64 size) i))
           (query_indices (wrap64 (addr - cpu_addr (region st))) (wrap64 size)).
Proof.
  intros Hwf.
  destruct (walk_calls_cover type clear addr size st Hwf)
    as (st' & L & Heq & Hreg & Hcalls & HG & Hcov).
  destruct (ForEachModifiedRange_ok type clear addr size st Hwf) as [Heq' _].
  rewrite Heq' in Heq. inversion Heq as [Hst]. rewrite <- Hst in Hreg, Hcalls. clear Heq Hst st'.
  pose proof (walk_all_rel type clear addr size st Hwf) as Hrel.
  destruct (finish_rel type clear st _ _ Hrel) as (_ & new & Htr & _).
  exists (finish (walk_all type clear addr size st)), new, L.
  split; [exact Heq'|]. split; [exact Hreg|]. split; [exact Htr|].
  split; [|split; [exact HG|split; [exact Hcov|]]].
  - rewrite Htr, calls_app in Hcalls. apply app_inv_head in Hcalls. exact Hcalls.
  - pose proof (finish_watches (walk_all type clear addr size st)) as Hw.
    rewrite Htr, watches_app in Hw. unfold walk_all in Hw.
    rewrite query_words_map in Hw.
    rewrite (walk_fold_watches type clear _ (region st)) in Hw;
      [|apply query_indices_NoDup|apply query_indices_nonneg|reflexivity|auto].
    cbn [walk_state trace] in Hw. apply app_inv_head in Hw. exact Hw.
Qed.

(** X9. [ForEachModifiedRange] with [clear] is idempotent: called again
    on the same range it returns the state the first call left, without
    a callback and without a notification. *)
Theorem X9_clearing_walk_twice_is_once type addr size st :
  well_formed (region st) ->
  exists st1,
    ForEachModifiedRange type true addr size st = Ok st1
    /\ ForEachModifiedRange type true addr size st1 = Ok st1.
Proof.
  intros Hwf.
  destruct (walk_trace type true addr size st Hwf)
    as (st1 & new1 & L1 & Heq1 & Hreg1 & _).
  exists st1. split; [exact Heq1|].
  assert (well_formed (region st1)) as Hwf1 by (rewrite Hreg1; apply region_after_wf; exact Hwf).
  destruct (walk_trace type true addr size st1 Hwf1)
    as (st2 & new & L & Heq2 & Hreg2 & Htr2 & Hcalls & HG & Hcov & Hwatch).
  rewrite Heq2. f_equal.
  assert (cpu_addr (region st1) = cpu_addr (region st)) as Hc by (rewrite Hreg1; reflexivity).
  rewrite Hc in *.
  set (off := wrap64 (addr - cpu_addr (region st))) in *.
  assert (region st2 = region st1) as Hreg
    by (rewrite Hreg2, Hreg1; apply region_after_twice; exact Hwf).
  assert (L = []) as HL.
  { destruct L as [|[s n] L]; [reflexivity|]. exfalso.
    apply Forall_cons in HG as [Hg _]. unfold good in Hg. cbn [fst snd] in Hg.
    destruct (Hcov s) as [Hs _].
    destruct Hs as [Hq Hm]; [exists s, n; split; [apply elem_of_cons; auto|lia]|].
    rewrite Hreg1 in Hm.
    pose proof (region_after_walked type true off (wrap64 size) (region st) s Hwf Hq) as Hw.
    unfold walked, cleared_in in Hw. destruct Hw as [[Hw _] _]. congruence. }
  assert (new = []) as Hnew.
  { apply calls_watches_nil; [rewrite Hcalls, HL; reflexivity|].
    rewrite Hwatch. apply flat_map_nil. intros i Hi.
    pose proof (query_mask_range off (wrap64 size) i) as Hm.
    destruct Hwf as (Hlc & Hlg & Hlw & Hlr).
    unfold walk_events. rewrite Hreg1. unfold region_after.
    destruct type; cbn [walk_effect e_cpu e_gpu e_write e_read write read cpu_addr];
      rewrite !array_after_in
        by (try apply query_indices_NoDup; try apply query_indices_in_array; assumption).
    - apply (protection_events_settled true). exact Hm.
    - apply (protection_events_settled false). exact Hm. }
  rewrite Hnew, app_nil_r in Htr2.
  destruct st2 as [r2 t2], st1 as [r1 t1]. cbn [region trace] in Hreg, Htr2. congruence.
Qed.

Lemma X9_witness :
  exists st1,
    ForEachModifiedRange CPU true 4194304 40960 pages_23478 = Ok st1
    /\ ForEachModifiedRange CPU true 4194304 40960 st1 = Ok st1.
Proof.
  apply (X9_clearing_walk_twice_is_once CPU 4194304 40960 pages_23478).
  vm_compute. auto.
Defined.

(** ** The watchers the tracker is left with *)

Lemma watchers_app rd c p tr1 tr2 :
  watchers rd c p (tr1 ++ tr2) = watchers rd c p tr1 + watchers rd c p tr2.
Proof.
  unfold watchers. induction tr1 as [|e tr1 IH]; cbn [app fold_right]; [reflexivity|].
  rewrite IH. lia.
Qed.

Lemma watchers_watches rd c p tr : watchers rd c p (watches tr) = watchers rd c p tr.
Proof.
  induction tr as [|e tr IH]; [reflexivity|].
  change (e :: tr) with ([e] ++ tr). rewrite watches_app, !watchers_app, IH.
  destruct e; reflexivity.
Qed.

Lemma watchers_flat_map_app {A : Type} rd c p (f g : A -> list Event) (l : list A) :
  watchers rd c p (flat_map (fun i => f i ++ g i) l)
  = watchers rd c p (flat_map f l) + watchers rd c p (flat_map g l).
Proof.
  induction l as [|x l IH]; [reflexivity|].
  rewrite !flat_map_cons, !watchers_app, IH. lia.
Qed.

Lemma watchers_flat_map_one {A : Type} `{EqDecision A} rd c p (f : A -> list Event)
    (l : list A) (x : A) :
  NoDup l -> (forall y, y ∈ l -> y <> x -> watchers rd c p (f y) = 0) ->
  watchers rd c p (flat_map f l) = if decide (x ∈ l) then watchers rd c p (f x) else 0.
Proof.
  induction l as [|y l IH]; intros Hnd Hz.
  - destruct (decide (x ∈ [])) as [H|_]; [apply elem_of_nil in H; contradiction|reflexivity].
  - apply NoDup_cons in Hnd as [Hny Hnd]. rewrite flat_map_cons, watchers_app.
    rewrite IH; [|exact Hnd|intros z Hz1 Hz2; apply Hz; [apply elem_of_cons; auto|exact Hz2]].
    destruct (decide (y = x)) as [->|Hne].
    + destruct (decide (x ∈ l)) as [H|_]; [contradiction|].
      destruct (decide (x ∈ x :: l)) as [_|H]; [lia|]. exfalso. apply H, elem_of_cons. auto.
    + rewrite (Hz y) by (try apply elem_of_cons; auto).
      destruct (decide (x ∈ l)) as [H|H], (decide (x ∈ y :: l)) as [H'|H']; try lia.
      * exfalso. apply H', elem_of_cons. auto.
      * exfalso. apply elem_of_cons in H' as [->|H']; [congruence|contradiction].
Qed.

(** The notification for a run of a word counts for the pages of the run. *)
Lemma watch_delta_run rd c p add rd' i o n :
  0 <= i < NUM_REGION_WORDS -> 0 <= o -> 0 < n -> o + n <= PAGES_PER_WORD ->
  0 <= p < NUM_REGION_PAGES ->
  watch_delta rd c p (watch_of add rd' c i (o, n))
  = if Bool.eqb rd' rd && (i * 64 + o <=? p) && (p <? i * 64 + o + n)
    then (if add then 1 else -1) else 0.
Proof.
  intros Hi Ho Hn Hon Hp. consts. unfold watch_delta, watch_of. cbn [fst snd]. consts.
  assert (wrap64 (wrap64 (c + wrap64 (i * 262144)) + wrap64 (o * 4096))
          = wrap64 (c + (i * 64 + o) * 4096)) as ->.
  { rewrite (wrap64_small (i * 262144)), (wrap64_small (o * 4096)) by lia.
    unfold wrap64. rewrite Zplus_mod_idemp_l. f_equal. lia. }
  rewrite (wrap64_small (n * 4096)) by lia.
  pose proof (page_in_call_run c (i * 64 + o) n p) as Hrun.
  unfold page_in_call, call_of, good in Hrun. cbn [fst snd] in Hrun. consts.
  specialize (Hrun ltac:(lia) ltac:(lia)).
  destruct (Bool.eqb rd' rd); cbn [andb]; [|reflexivity].
  destruct (Z.ltb_spec (wrap64 (c + p * 4096 - wrap64 (c + (i * 64 + o) * 4096))) (n * 4096)),
    (Z.leb_spec (i * 64 + o) p), (Z.ltb_spec p (i * 64 + o + n)); cbn [andb];
    try reflexivity; lia.
Qed.

Lemma watchers_runs rd c p add rd' i (L : list (Z * Z)) (f : Z -> bool) :
  0 <= i < NUM_REGION_WORDS -> 0 <= p < NUM_REGION_PAGES ->
  Forall (fun r => 0 <= fst r /\ 0 < snd r /\ fst r + snd r <= 64) L ->
  StronglySorted apart L ->
  (forall b, f b = true <-> covers L b) ->
  watchers rd c p (map (watch_of add rd' c i) L)
  = if Bool.eqb rd' rd && (p / 64 =? i) && f (p mod 64)
    then (if add then 1 else -1) else 0.
Proof.
  intros Hi Hp HF HS Hcov.
  assert (watchers rd c p (map (watch_of add rd' c i) L)
          = if Bool.eqb rd' rd && existsb (fun r => (i * 64 + fst r <=? p)
                                                   && (p <? i * 64 + fst r + snd r)) L
            then (if add then 1 else -1) else 0) as ->.
  { clear Hcov. induction HS as [|[o n] L HS IH Hap]; [rewrite andb_false_r; reflexivity|].
    apply Forall_cons in HF as [Hr HF]. cbn [fst snd] in Hr.
    cbn [map watchers fold_right existsb fst snd].
    fold (watchers rd c p (map (watch_of add rd' c i) L)). rewrite (IH HF).
    rewrite watch_delta_run by (consts; lia).
    destruct (Bool.eqb rd' rd); cbn [andb]; [|reflexivity].
    destruct (Z.leb_spec (i * 64 + o) p), (Z.ltb_spec p (i * 64 + o + n)); cbn [andb orb];
      try reflexivity; try lia.
    replace (existsb _ L) with false; [destruct add; reflexivity|].
    symmetry. apply not_true_is_false. intros Hex. apply existsb_exists in Hex as ([o' n'] & Hin & Hb).
    rewrite Forall_forall in Hap. specialize (Hap (o', n') (proj2 (list_elem_of_In _ _) Hin)).
    unfold apart in Hap. cbn [fst snd] in *. lia. }
  destruct (Bool.eqb rd' rd); cbn [andb]; [|reflexivity].
  assert (existsb (fun r => (i * 64 + fst r <=? p) && (p <? i * 64 + fst r + snd r)) L
          = (p / 64 =? i) && f (p mod 64)) as ->; [|reflexivity].
  apply eq_true_iff_eq. rewrite existsb_exists, andb_true_iff, Z.eqb_eq, Hcov.
  rewrite Forall_forall in HF. split.
  - intros ([o n] & Hin & Hb). apply list_elem_of_In in Hin. specialize (HF _ Hin).
    cbn [fst snd] in *. assert (p / 64 = i /\ p mod 64 = p - i * 64) as [Hd Hm]
      by (Z.div_mod_to_equations; lia).
    split; [exact Hd|]. exists (o, n). cbn [fst snd]. split; [exact Hin|lia].
  - intros [Hd ([o n] & Hin & Hb)]. exists (o, n). split; [apply list_elem_of_In; exact Hin|].
    cbn [fst snd] in *. Z.div_mod_to_equations. lia.
Qed.

Lemma watchers_protection_events rd c p add rd' i acc m :
  0 <= i < NUM_REGION_WORDS -> 0 <= p < NUM_REGION_PAGES -> 0 <= m < 2 ^ 64 ->
  watchers rd c p (protection_events add rd' c i acc m)
  = if Bool.eqb rd' rd && (p / 64 =? i) && Z.testbit (changed_bits add acc m) (p mod 64)
    then (if add then 1 else -1) else 0.
Proof.
  intros Hi Hp Hm. unfold protection_events.
  destruct (bit_runs_spec _ (changed_bits_range add acc m Hm)) as (HF & HS & Hcov).
  exact (watchers_runs rd c p add rd' i _ (Z.testbit (changed_bits add acc m)) Hi Hp HF HS Hcov).
Qed.

(** The notifications of one [UpdateProtection] over the words of a range. *)
Lemma watchers_range rd c p add rd' (a : WordsArray) offset size :
  0 <= p < NUM_REGION_PAGES ->
  watchers rd c p
    (flat_map (fun i => protection_events add rd' c i (word_at a i) (query_mask offset size i))
       (query_indices offset size))
  = if Bool.eqb rd' rd then watch_change add (in_query offset size p) (page_bit a p) else 0.
Proof.
  intros Hp.
  rewrite (watchers_flat_map_one rd c p _ _ (p / 64)); [|apply query_indices_NoDup|].
  - destruct (decide (p / 64 ∈ query_indices offset size)) as [Hin|Hout].
    + rewrite watchers_protection_events;
        [|apply (query_indices_bounds _ _ _ Hin)|exact Hp|apply query_mask_range].
      rewrite Z.eqb_refl, andb_true_r, changed_bits_bit. unfold needs_change, watch_change.
      consts. replace (p / 64 * 64 + p mod 64) with p
        by (pose proof (Z.div_mod p 64 ltac:(lia)); lia).
      pose proof (Z.mod_pos_bound p 64 ltac:(lia)).
      destruct (Z.leb_spec 0 (p mod 64)), (Z.ltb_spec (p mod 64) 64); try lia.
      cbn [andb]. destruct (Bool.eqb rd' rd); reflexivity.
    + assert (in_query offset size p = false) as ->.
      { apply not_true_is_false. intros Hq. apply Hout. apply query_indices_spec. eauto. }
      unfold watch_change. cbn [andb]. destruct (Bool.eqb rd' rd); reflexivity.
  - intros i Hi Hne. rewrite watchers_protection_events;
      [|apply (query_indices_bounds _ _ _ Hi)|exact Hp|apply query_mask_range].
    destruct (Z.eqb_spec (p / 64) i); [congruence|]. rewrite andb_false_r. reflexivity.
Qed.

(** X10. In every state reached from a fresh region by
    [ChangeRegionState] and [ForEachModifiedRange], the notifications sent
    to the tracker have left every page of the region with exactly one
    write watcher when the page is write tracked and none when it is
    not, and with exactly one read watcher when it is read tracked and
    none when it is not: a watcher is never added twice and never removed
    when there is none. *)
Theorem X10_watchers_follow_the_access_bits c st p :
  reachable c st -> 0 <= p < NUM_REGION_PAGES ->
  cpu_addr (region st) = c
  /\ watchers false c p (trace st) = (if write_tracked (region st) p then 1 else 0)
  /\ watchers true c p (trace st) = (if read_tracked (region st) p then 1 else 0).
Proof.
  intros Hreach Hp. induction Hreach as [|st op st' Hr IH Hrun].
  - cbn [region trace]. destruct (fresh_pages c p Hp) as (_ & _ & Hw & Hrd).
    unfold write_tracked, read_tracked. rewrite Hw, Hrd. auto.
  - destruct IH as (Hc & IHw & IHr). pose proof (reachable_wf _ _ Hr) as Hwf.
    unfold write_tracked, read_tracked in *.
    destruct op as [type d addr size|type clear addr size]; cbn [run_op] in Hrun.
    + destruct (ChangeRegionState_trace type d addr size st Hwf) as (st2 & Heq & Hreg & Htr).
      rewrite Hrun in Heq. inversion Heq; subst st2. clear Heq.
      rewrite Hreg, Htr, Hc. split; [exact Hc|]. rewrite !watchers_app, IHw, IHr.
      set (off := wrap64 (addr - c)).
      destruct (region_after_pages (change_effect type d) off size (region st) p Hwf)
        as (_ & _ & -> & ->).
      destruct type; unfold change_events; rewrite Hc.
      * rewrite !watchers_range by exact Hp. unfold watch_change.
        destruct d, (in_query off size p), (page_bit (write (region st)) p),
          (page_bit (read (region st)) p); cbn; auto.
      * rewrite !watchers_flat_map_app, !watchers_range by exact Hp. unfold watch_change.
        destruct d, (in_query off size p), (page_bit (write (region st)) p),
          (page_bit (read (region st)) p); cbn; auto.
    + destruct (walk_trace type clear addr size st Hwf)
        as (st2 & new & L & Heq & Hreg & Htr & _ & _ & _ & Hwatch).
      rewrite Hrun in Heq. inversion Heq; subst st2. clear Heq.
      rewrite Hreg, Htr, Hc in *. split; [exact Hc|]. rewrite !watchers_app, IHw, IHr.
      rewrite <- (watchers_watches false), <- (watchers_watches true), Hwatch.
      set (off := wrap64 (addr - c)).
      destruct (region_after_pages (walk_effect type clear) off (wrap64 size) (region st) p Hwf)
        as (_ & _ & -> & ->).
      destruct clear, type; unfold walk_events; rewrite ?Hc;
        rewrite ?flat_map_nil by reflexivity;
        rewrite ?watchers_range by exact Hp; unfold watch_change;
        destruct (in_query off (wrap64 size) p), (page_bit (write (region st)) p),
          (page_bit (read (region st)) p); cbn; auto.
Qed.

Lemma X10_witness :
  cpu_addr (region gpu_then_cpu_marked) = 0
  /\ watchers false 0 0 (trace gpu_then_cpu_marked)
     = (if write_tracked (region gpu_then_cpu_marked) 0 then 1 else 0)
  /\ watchers true 0 0 (trace gpu_then_cpu_marked)
     = (if read_tracked (region gpu_then_cpu_marked) 0 then 1 else 0).
Proof.
  apply (X10_watchers_follow_the_access_bits 0 gpu_then_cpu_marked 0).
  - exact gpu_then_cpu_marked_reachable.
  - vm_compute. split; [discriminate|reflexivity].
Defined.

(** ** The region at another address *)

(** X11. A region answers to the distance of an address from its base
    only: after [SetCpuAddress] moved the base by [k], marking the range
    that starts [k] further writes the same bits as marking the original
    range did before the move, and [GetCpuAddr] gives the new base. *)
Theorem X11_region_moves_with_its_base type is_dirty addr size k st :
  well_formed (region st) ->
  exists st1 st2,
    ChangeRegionState type is_dirty addr size st = Ok st1
    /\ ChangeRegionState type is_dirty (wrap64 (addr + k)) size
         (mkState (SetCpuAddress (wrap64 (cpu_addr (region st) + k)) (region st)) (trace st))
       = Ok st2
    /\ region st2 = SetCpuAddress (wrap64 (cpu_addr (region st) + k)) (region st1)
    /\ GetCpuAddr (region st2) = wrap64 (GetCpuAddr (region st) + k).
Proof.
  intros Hwf.
  destruct (ChangeRegionState_region type is_dirty addr size st Hwf) as (st1 & Heq1 & Hreg1).
  set (st0 := mkState (SetCpuAddress (wrap64 (cpu_addr (region st) + k)) (region st)) (trace st)).
  assert (well_formed (region st0)) as Hwf0 by exact Hwf.
  destruct (ChangeRegionState_region type is_dirty (wrap64 (addr + k)) size st0 Hwf0)
    as (st2 & Heq2 & Hreg2).
  exists st1, st2. split; [exact Heq1|]. split; [exact Heq2|].
  assert (wrap64 (wrap64 (addr + k) - cpu_addr (region st0))
          = wrap64 (addr - cpu_addr (region st))) as Hoff.
  { unfold st0. cbn [region SetCpuAddress cpu_addr]. unfold wrap64.
    rewrite Zminus_mod_idemp_l, Zminus_mod_idemp_r. f_equal. lia. }
  rewrite Hoff in Hreg2. rewrite Hreg2, Hreg1. split; reflexivity.
Qed.

Lemma X11_witness :
  exists st1 st2,
    ChangeRegionState CPU false 8192 4096 gpu_marked = Ok st1
    /\ ChangeRegionState CPU false (wrap64 (8192 + 4194304)) 4096
         (mkState (SetCpuAddress (wrap64 (cpu_addr (region gpu_marked) + 4194304))
                     (region gpu_marked)) (trace gpu_marked))
       = Ok st2
    /\ region st2 = SetCpuAddress (wrap64 (cpu_addr (region gpu_marked) + 4194304)) (region st1)
    /\ GetCpuAddr (region st2) = wrap64 (GetCpuAddr (region gpu_marked) + 4194304).
Proof.
  apply (X11_region_moves_with_its_base CPU false 8192 4096 4194304 gpu_marked).
  vm_compute. auto.
Defined.

(** ** [align_uintptr] *)

(** A word with a single bit set is a power of two. *)
Lemma has_single_bit_pow2 a :
  has_single_bit a = true -> exists k, 0 <= k /\ a = 2 ^ k.
Proof.
  unfold has_single_bit. rewrite andb_true_iff, Z.ltb_lt, Z.eqb_eq. intros [Hpos Hland].
  exists (Z.log2 a). pose proof (Z.log2_nonneg a) as Hk. split; [exact Hk|].
  destruct (Z.log2_spec a Hpos) as [Hlo Hhi].
  destruct (Z.eq_dec a (2 ^ Z.log2 a)) as [E|NE]; [exact E|]. exfalso.
  assert (Z.log2 (a - 1) = Z.log2 a) as Hl by (apply Z.log2_unique; lia).
  assert (Z.testbit (Z.land a (a - 1)) (Z.log2 a) = true) as Hbit.
  { rewrite Z.land_spec, Z.bit_log2 by lia. rewrite <- Hl. rewrite Z.bit_log2 by lia.
    reflexivity. }
  rewrite Hland, Z.bits_0 in Hbit. discriminate.
Qed.

Lemma align_down_pow2 y k :
  0 <= k < 64 -> 0 <= y < 2 ^ 64 -> Z.land y (not64 (2 ^ k - 1)) = 2 ^ k * (y / 2 ^ k).
Proof.
  intros Hk Hy. replace (2 ^ k * (y / 2 ^ k)) with (Z.shiftl (Z.shiftr y k) k)
    by (rewrite Z.shiftl_mul_pow2, Z.shiftr_div_pow2 by lia; lia).
  apply Z.bits_inj'. intros b Hb.
  rewrite Z.land_spec, not64_bit, Z.shiftl_spec by lia.
  replace (2 ^ k - 1) with (Z.ones k) by (rewrite Z.ones_equiv; lia).
  destruct (Z.leb_spec 0 b); [|lia]. cbn [andb].
  destruct (Z.lt_ge_cases b k).
  - rewrite (Z.testbit_neg_r _ (b - k)) by lia.
    rewrite Z.ones_spec_low by lia. rewrite andb_false_r. apply andb_false_r.
  - rewrite Z.shiftr_spec by lia. replace (b - k + k) with b by lia.
    rewrite Z.ones_spec_high by lia.
    destruct (Z.ltb_spec b 64); cbn [negb andb].
    + apply andb_true_r.
    + rewrite andb_false_r. symmetry. apply (bound_bits y 64); lia.
Qed.

(** X12. [align_uintptr(value, alignment)] stops at its ASSERT unless the
    alignment is a power of two; for a power of two it returns the least
    multiple of the alignment that is not below the value, as long as
    that multiple is an address. *)
Theorem X12_align_uintptr_rounds_up value alignment :
  0 <= value < 2 ^ 64 -> 0 <= alignment < 2 ^ 64 ->
  (has_single_bit alignment = false -> align_uintptr value alignment = Err AssertFailed)
  /\ (has_single_bit alignment = true -> value + alignment <= 2 ^ 64 ->
      exists r,
        align_uintptr value alignment = Ok r
        /\ r mod alignment = 0
        /\ value <= r < value + alignment).
Proof.
  intros Hv Ha. unfold align_uintptr. split; intros Hs; rewrite Hs; [reflexivity|].
  intros Hfit. eexists. split; [reflexivity|].
  destruct (has_single_bit_pow2 alignment Hs) as (k & Hk & ->).
  assert (k < 64) as Hk64.
  { destruct (Z.lt_ge_cases k 64); [assumption|].
    pose proof (Z.pow_le_mono_r 2 64 k ltac:(lia) ltac:(lia)). lia. }
  assert (0 < 2 ^ k) as Hpos by (apply Z.pow_pos_nonneg; lia).
  unfold ALIGN_POT. rewrite !wrap64_small by lia.
  rewrite align_down_pow2 by lia.
  split.
  - rewrite Z.mul_comm. apply Z.mod_mul. lia.
  - Z.div_mod_to_equations. nia.
Qed.

Lemma X12_witness :
  (has_single_bit 64 = false -> align_uintptr 1000 64 = Err AssertFailed)
  /\ (has_single_bit 64 = true -> 1000 + 64 <= 2 ^ 64 ->
      exists r,
        align_uintptr 1000 64 = Ok r
        /\ r mod 64 = 0
        /\ 1000 <= r < 1000 + 64).
Proof. apply (X12_align_uintptr_rounds_up 1000 64); lia. Defined.

(** ** [ForEachBufferInRange]: what the cursor passes over *)

Lemma ForEachBufferInRange_loop_pages {S : Type} (func : BufferId -> Buffer -> S -> S)
    (page_table : gmap Z Z) (slot_buffers : gmap Z Buffer) page_end fuel :
  table_covered page_table slot_buffers ->
  page_end < 2 ^ 63 ->
  forall page s,
    0 <= page -> (Z.to_nat (page_end - page) <= fuel)%nat ->
    exists visits,
      ForEachBufferInRange_loop fuel page_table slot_buffers page page_end func s
      = Ok (visit_all func visits s)
      /\ Forall (fun v => page <= v_page v < page_end
                          /\ page_table !! v_page v = Some (v_id v)
                          /\ slot_buffers !! v_id v = Some (v_buffer v)) visits
      /\ forall q, page <= q < page_end -> is_Some (page_table !! q) ->
           exists v, v ∈ visits /\ v_page v <= q < next_page v.
Proof.
  intros Hcov Hend. induction fuel as [|fuel IH]; intros page s Hp Hf.
  - exists []. cbn [ForEachBufferInRange_loop]. destruct (Z.ltb_spec page page_end); [lia|].
    split; [reflexivity|]. split; [constructor|]. intros q Hq. lia.
  - cbn [ForEachBufferInRange_loop]. destruct (Z.ltb_spec page page_end) as [Hlt|Hge].
    2: { exists []. split; [reflexivity|]. split; [constructor|]. intros q Hq. lia. }
    destruct (page_table !! page) as [id|] eqn:Hpt; cbv beta iota.
    + destruct (Hcov page id Hpt) as (b & Hsb & Hb). rewrite Hsb.
      destruct (next_page_after b page Hb) as (Hnext & Hgt & Hrange). rewrite Hnext.
      set (np := (CpuAddr b + SizeBytes b + 4095) / 4096) in *.
      destruct (IH np (func id b s) ltac:(lia) ltac:(lia)) as (visits & Heq & HF & Hall).
      exists (mkVisit page id b :: visits). split; [exact Heq|]. split.
      * constructor; [cbn; auto with lia|].
        eapply Forall_impl; [exact HF|]. cbn beta. intros v (H1 & H2 & H3).
        split; [lia|auto].
      * intros q Hq Hsome. destruct (Z.lt_ge_cases q np) as [Hin|Hout].
        -- exists (mkVisit page id b). split; [apply elem_of_cons; auto|].
           unfold next_page. cbn [v_page v_buffer]. rewrite Hnext. fold np. lia.
        -- destruct (Hall q ltac:(lia) Hsome) as (v & Hv & Hqv).
           exists v. split; [apply elem_of_cons; auto|exact Hqv].
    + assert (2 ^ 64 = 18446744073709551616) as E by reflexivity.
      assert (2 ^ 63 = 9223372036854775808) as E' by reflexivity.
      rewrite wrap64_small by lia.
      destruct (IH (page + 1) s ltac:(lia) ltac:(lia)) as (visits & Heq & HF & Hall).
      exists visits. split; [exact Heq|]. split.
      * eapply Forall_impl; [exact HF|]. cbn beta. intros v (H1 & H2). split; [lia|auto].
      * intros q Hq Hsome. destruct (Z.eq_dec q page) as [->|Hne].
        -- rewrite Hpt in Hsome. destruct Hsome as [x Hx]. discriminate.
        -- apply Hall; [lia|exact Hsome].
Qed.

(** X13. [ForEachBufferInRange] passes over no page that has a buffer:
    every page of the range whose entry is not null is the page of a
    visit or lies below the end of a buffer that was visited, and the
    callback is not invoked at all exactly when every entry of the range
    is null. *)
Theorem X13_no_page_with_a_buffer_is_passed_over {S : Type}
    (func : BufferId -> Buffer -> S -> S)
    (page_table : gmap Z Z) (slot_buffers : gmap Z Buffer) device_addr size fuel s :
  table_covered page_table slot_buffers ->
  (Z.to_nat (DivCeil (wrap64 (device_addr + size)) CACHING_PAGESIZE
             - Z.shiftr (wrap64 device_addr) CACHING_PAGEBITS) <= fuel)%nat ->
  exists visits,
    ForEachBufferInRange fuel page_table slot_buffers device_addr size func s
    = Ok (visit_all func visits s)
    /\ (forall q,
          Z.shiftr (wrap64 device_addr) CACHING_PAGEBITS <= q
          < DivCeil (wrap64 (device_addr + size)) CACHING_PAGESIZE ->
          is_Some (page_table !! q) ->
          exists v, v ∈ visits /\ v_page v <= q < next_page v
                    /\ page_table !! v_page v = Some (v_id v)
                    /\ slot_buffers !! v_id v = Some (v_buffer v))
    /\ (visits = []
        <-> forall q,
              Z.shiftr (wrap64 device_addr) CACHING_PAGEBITS <= q
              < DivCeil (wrap64 (device_addr + size)) CACHING_PAGESIZE ->
              page_table !! q = None).
Proof.
  intros Hcov Hf. unfold ForEachBufferInRange.
  destruct (ForEachBufferInRange_loop_pages func page_table slot_buffers
              (DivCeil (wrap64 (device_addr + size)) CACHING_PAGESIZE) fuel Hcov
              (proj2 (DivCeil_bound _))
              (Z.shiftr (wrap64 device_addr) CACHING_PAGEBITS) s)
    as (visits & Heq & HF & Hall).
  { apply Z.shiftr_nonneg. apply wrap64_range. }
  { exact Hf. }
  exists visits. split; [exact Heq|]. rewrite Forall_forall in HF. split; [|split].
  - intros q Hq Hsome. destruct (Hall q Hq Hsome) as (v & Hv & Hqv).
    exists v. destruct (HF v Hv) as (_ & H2 & H3). auto.
  - intros -> q Hq. destruct (page_table !! q) eqn:E; [|reflexivity].
    destruct (Hall q Hq ltac:(rewrite E; eauto)) as (v & Hv & _).
    apply elem_of_nil in Hv. contradiction.
  - intros Hnone. destruct visits as [|v visits]; [reflexivity|]. exfalso.
    destruct (HF v ltac:(apply elem_of_cons; auto)) as (Hr & Hpt & _).
    rewrite (Hnone _ Hr) in Hpt. discriminate.
Qed.

Lemma X13_witness :
  exists visits,
    ForEachBufferInRange 16 two_buffers_table two_buffers_slots 20480 20480
      (fun id _ acc => acc ++ [id]) []
    = Ok (visit_all (fun id _ acc => acc ++ [id]) visits [])
    /\ (forall q,
          Z.shiftr (wrap64 20480) CACHING_PAGEBITS <= q
          < DivCeil (wrap64 (20480 + 20480)) CACHING_PAGESIZE ->
          is_Some (two_buffers_table !! q) ->
          exists v, v ∈ visits /\ v_page v <= q < next_page v
                    /\ two_buffers_table !! v_page v = Some (v_id v)
                    /\ two_buffers_slots !! v_id v = Some (v_buffer v))
    /\ (visits = []
        <-> forall q,
              Z.shiftr (wrap64 20480) CACHING_PAGEBITS <= q
              < DivCeil (wrap64 (20480 + 20480)) CACHING_PAGESIZE ->
              two_buffers_table !! q = None).
Proof.
  apply (X13_no_page_with_a_buffer_is_passed_over (fun id _ acc => acc ++ [id])
           two_buffers_table two_buffers_slots 20480 20480 16 []).
  - exact two_buffers_covered.
  - vm_compute. lia.
Defined.

(** X14. A range of no bytes is not always a range of no pages: at an
    address on a page boundary [ForEachBufferInRange] with size 0 returns
    at once, whatever the tables hold, but at an address inside a page it
    visits the buffer of that page. *)
Theorem X14_empty_range_inside_a_page_is_visited {S : Type}
    (func : BufferId -> Buffer -> S -> S)
    (page_table : gmap Z Z) (slot_buffers : gmap Z Buffer) device_addr fuel s :
  0 <= device_addr -> device_addr + CACHING_PAGESIZE <= 2 ^ 64 ->
  (device_addr mod CACHING_PAGESIZE = 0 ->
   ForEachBufferInRange fuel page_table slot_buffers device_addr 0 func s = Ok s)
  /\ (forall id b,
        device_addr mod CACHING_PAGESIZE <> 0 ->
        page_table !! (device_addr / CACHING_PAGESIZE) = Some id ->
        slot_buffers !! id = Some b ->
        covers_page b (device_addr / CACHING_PAGESIZE) ->
        ForEachBufferInRange (Datatypes.S fuel) page_table slot_buffers device_addr 0 func s
        = Ok (func id b s)).
Proof.
  intros Hlo Hhi. unfold ForEachBufferInRange, DivCeil. change CACHING_PAGESIZE with 4096 in *.
  change CACHING_PAGEBITS with 12.
  assert (2 ^ 64 = 18446744073709551616) as E by reflexivity.
  rewrite Z.add_0_r, (wrap64_small device_addr) by lia.
  rewrite (wrap64_small (device_addr + 4096 - 1)) by lia.
  rewrite Z.shiftr_div_pow2 by lia. change (2 ^ 12) with 4096.
  split.
  - intros Hal. assert ((device_addr + 4096 - 1) / 4096 = device_addr / 4096) as ->
      by (Z.div_mod_to_equations; lia).
    destruct fuel; cbn [ForEachBufferInRange_loop]; rewrite Z.ltb_irrefl; reflexivity.
  - intros id b Hun Hpt Hsb Hb.
    assert ((device_addr + 4096 - 1) / 4096 = device_addr / 4096 + 1) as ->
      by (Z.div_mod_to_equations; lia).
    cbn [ForEachBufferInRange_loop].
    destruct (Z.ltb_spec (device_addr / 4096) (device_addr / 4096 + 1)); [|lia].
    rewrite Hpt, Hsb.
    destruct (next_page_after b _ Hb) as (Hnext & Hgt & _).
    rewrite Hnext.
    destruct fuel; cbn [ForEachBufferInRange_loop];
      destruct (Z.ltb_spec ((CpuAddr b + SizeBytes b + 4095) / 4096) (device_addr / 4096 + 1));
      try reflexivity; lia.
Qed.

Lemma X14_witness :
  (16500 mod CACHING_PAGESIZE = 0 ->
   ForEachBufferInRange 0 two_buffers_table two_buffers_slots 16500 0
     (fun id _ acc => acc ++ [id]) [] = Ok [])
  /\ (forall id b,
        16500 mod CACHING_PAGESIZE <> 0 ->
        two_buffers_table !! (16500 / CACHING_PAGESIZE) = Some id ->
        two_buffers_slots !! id = Some b ->
        covers_page b (16500 / CACHING_PAGESIZE) ->
        ForEachBufferInRange 1 two_buffers_table two_buffers_slots 16500 0
          (fun id _ acc => acc ++ [id]) []
        = Ok ((fun id _ acc => acc ++ [id]) id b [])).
Proof.
  apply (X14_empty_range_inside_a_page_is_visited (fun id _ acc => acc ++ [id])
           two_buffers_table two_buffers_slots 16500 0 []);
    [lia|change CACHING_PAGESIZE with 4096; lia].
Defined.
